(** * TCG_threes: the n-tuple TD-learning agents of [agent.h]

    A shallow embedding of [agent], [weight_agent], [four_tuple_agent] and
    [six_tuple_agent].

    - The board, the action and the weight shard come from headers that are
      not among the sources ([board.h], [action.h], [weight.h]).  The board
      is an interface ([BoardOps]); the shard is a record of a length and its
      entries.
    - [float] and [double] are one abstract type [num] with the operations
      the agents use ([NumOps]), the rounding on a store into a table entry
      included ([num_to_entry]); nothing is assumed of them unless a
      statement says so ([NumExact], [NumOrder]), so a statement without
      such an assumption holds for IEEE arithmetic as well ([ieee_num] is
      that arithmetic; [Qc_num] is the exact one).
    - [int] is [Z]; the values that occur are taken to fit the machine type
      (signed overflow and an out-of-range conversion are undefined in C++).
    - Indexing a [std::vector] out of range is undefined: the functions that
      index return [option], [None] standing for undefined behaviour.
    - Data members that an operation changes are threaded as [agent_state]. *)

From Stdlib Require Import ZArith Zquot QArith Qcanon Lia List Ascii String.
From Stdlib Require Import SpecFloat.
From Stdlib.Strings Require Import Byte.
From stdpp Require Import base option list gmap strings.

Open Scope Z_scope.

(** ** Interfaces of the collaborators *)

(** [board.h]: the agents only use the default constructor, the linear cell
    read [b(i)], [slide(op)] (which changes the board in place and returns the
    reward, [-1] for an illegal move), and the two in-place transforms. *)
Class BoardOps (board : Type) := {
  board_new : board;
  cell_at : board → Z → Z;
  slide : board → Z → board * Z;
  rotate_clockwise : board → board;
  reflect_horizontal : board → board
}.

(** Floating-point values ([float] and [double] alike) and the operations the
    agents perform on them.  [num_of_Z] is the conversion of an [int],
    [num_to_int] the conversion back to [int] on [push_back] into a
    [std::vector<int>], [num_lit] a decimal literal, [num_of_string] the
    [std::stod] behind [meta] values ([None] when it throws).
    [num_to_entry] is the conversion of the [double] result of
    [w[idx] += d] to the entry type of the shard, which [weight.h] declares:
    the rounding to single precision for [float] entries, the identity for
    [double] entries. *)
Class NumOps (num : Type) := {
  num_of_Z : Z → num;
  num_lit : Q → num;
  num_of_string : string → option num;
  nadd : num → num → num;
  nmul : num → num → num;
  ndiv : num → num → num;
  ngt : num → num → bool;
  num_to_int : num → Z;
  num_to_entry : num → num
}.

(** Exact arithmetic: what the value function's algebra needs of [nadd],
    [nmul], [num_of_Z] and [num_to_entry].  The rationals satisfy it
    ([Qc_exact]); IEEE arithmetic does not. *)
Class NumExact (num : Type) `{NumOps num} := {
  num_to_entry_exact : ∀ x : num, num_to_entry x = x;
  nadd_comm : ∀ x y : num, nadd x y = nadd y x;
  nadd_assoc : ∀ x y z : num, nadd x (nadd y z) = nadd (nadd x y) z;
  nadd_0_l : ∀ x : num, nadd (num_of_Z 0) x = x;
  nmul_0_l : ∀ x : num, nmul (num_of_Z 0) x = num_of_Z 0;
  nmul_succ_l : ∀ (n : Z) (x : num),
    0 ≤ n → nmul (num_of_Z (n + 1)) x = nadd (nmul (num_of_Z n) x) x
}.


(** Modelled from the spec: the [action] of [action.h], of which the agents
    use [action()], the rejection, and [action::slide(op)]. *)
Inductive action :=
  | action_none
  | action_slide (op : Z).

(** ** Small helpers for loops *)

(** A [for] loop over [l] whose body can hit undefined behaviour ([None]). *)
Fixpoint for_each {A S : Type} (body : S → A → option S) (l : list A) (s : S)
  : option S :=
  match l with
  | [] => Some s
  | x :: l' => s' ← body s x; for_each body l' s'
  end.

(** ** Tuple addresses *)

(** [four_tuple_agent::net_index]. *)
Definition net_index (index0 index1 index2 index3 : Z) : Z :=
  Z.lor (Z.lor (Z.lor index0 (Z.shiftl index1 4)) (Z.shiftl index2 8))
        (Z.shiftl index3 12).

(** The inner loop of the six-tuple agent,
    [for (j = 0; j < k; j++) index |= fb(tup[j]) << (4*j)], starting from
    [index = 0]; [tup] is one row of [tuple_index]. *)
Definition tuple_address {board : Type} `{!BoardOps board} (fb : board)
  (tup : list Z) (k : nat) : Z :=
  foldl (λ index j,
           Z.lor index (Z.shiftl (cell_at fb (nth j tup 0)) (4 * Z.of_nat j)))
        0 (seq 0 k).

(** The address as the specification words it: the sum over [j] of the cell at
    the [j]-th position shifted left by [4*j]; [j0] is the index of the first
    position of [tup]. *)
Fixpoint nibble_sum {board : Type} `{!BoardOps board} (fb : board) (j0 : Z)
  (tup : list Z) : Z :=
  match tup with
  | [] => 0
  | p :: tup' => Z.shiftl (cell_at fb p) (4 * j0) + nibble_sum fb (j0 + 1) tup'
  end.

(** ** The weight table store *)

(** Modelled from the spec: the [weight] class of [weight.h], one shard of the
    table store: a numeric array of fixed length whose entries start at zero
    ([weight(len)]).  The array is kept sparse, an index absent from
    [weight_value] holds zero, so that a shard of [2^24] entries stays a small
    term.  [w[idx]] outside [0 .. weight_size - 1] is undefined behaviour. *)
Record weight (num : Type) := Weight {
  weight_size : Z;
  weight_value : gmap Z num
}.
Arguments Weight {num} _ _.
Arguments weight_size {num} _.
Arguments weight_value {num} _.

(** [weight(len)]: [len] zero entries. *)
Definition weight_new {num : Type} (len : Z) : weight num := Weight len ∅.

(** Reading [w[idx]]. *)
Definition weight_get {num : Type} `{!NumOps num} (w : weight num) (idx : Z)
  : option num :=
  if bool_decide (0 ≤ idx < weight_size w)
  then Some (default (num_of_Z 0) (weight_value w !! idx))
  else None.

(** [w[idx] += d]. *)
Definition weight_add {num : Type} `{!NumOps num} (w : weight num) (idx : Z)
  (d : num) : option (weight num) :=
  v ← weight_get w idx;
  Some (Weight (weight_size w)
          (<[idx := num_to_entry (nadd v d)]> (weight_value w))).

(** Reading [net[s][idx]]; [net[s]] beyond [net.size()] is undefined. *)
Definition net_get {num : Type} `{!NumOps num} (net : list (weight num))
  (s : nat) (idx : Z) : option num :=
  w ← net !! s; weight_get w idx.

(** [net[s][idx] += d]. *)
Definition net_add {num : Type} `{!NumOps num} (net : list (weight num))
  (s : nat) (idx : Z) (d : num) : option (list (weight num)) :=
  w ← net !! s; w' ← weight_add w idx d; Some (<[s := w']> net).

(** The data members of a tuple agent: [net] and [alpha] from [weight_agent],
    the three trace vectors from the concrete agent.  [episode_values] and
    [episode_rewards] are [std::vector<int>]. *)
Record agent_state (board num : Type) := AgentState {
  net : list (weight num);
  alpha : num;
  episode_boards : list board;
  episode_values : list Z;
  episode_rewards : list Z
}.
Arguments AgentState {board num} _ _ _ _ _.
Arguments net {board num} _.
Arguments alpha {board num} _.
Arguments episode_boards {board num} _.
Arguments episode_values {board num} _.
Arguments episode_rewards {board num} _.

(** The locals of [take_action] that survive an iteration of its loop.
    [best_episode_after_state_value] exists in [six_tuple_agent] only; the
    four-tuple agent leaves it at its initial value and never reads it. *)
Record best (board num : Type) := Best {
  best_reward : Z;
  best_action : Z;
  best_after_state_value : num;
  best_episode_after_state_value : num;
  best_after : board
}.
Arguments Best {board num} _ _ _ _ _.
Arguments best_reward {board num} _.
Arguments best_action {board num} _.
Arguments best_after_state_value {board num} _.
Arguments best_episode_after_state_value {board num} _.
Arguments best_after {board num} _.

(** Both agents hold [opcode = {0, 1, 2, 3}] and never change it. *)
Definition opcode : list Z := [0; 1; 2; 3].

(** The body shared by both [close_episode] loops, for the loop variable [i]:
    [update_value = alpha * (episode_values[i+1] + episode_rewards[i+1] -
    episode_values[i])], then [update_net(episode_boards[i], update_value)].
    An index past the end of a vector is undefined behaviour. *)
Definition close_episode_body {board num : Type} `{!NumOps num}
  (update_net : list (weight num) → board → num → option (list (weight num)))
  (alpha : num) (episode_boards : list board)
  (episode_values episode_rewards : list Z)
  (net : list (weight num)) (i : nat) : option (list (weight num)) :=
  v1 ← episode_values !! (i + 1)%nat;
  r1 ← episode_rewards !! (i + 1)%nat;
  v0 ← episode_values !! i;
  b ← episode_boards !! i;
  let update_value := nmul alpha (num_of_Z (v1 + r1 - v0)) in
  update_net net b update_value.

(** Reading a run of decimal digits. *)
Fixpoint digits_value (acc : Z) (s : string) : option Z :=
  match s with
  | EmptyString => Some acc
  | String c s' =>
      let n := Z.of_N (N_of_ascii c) in
      if bool_decide (48 ≤ n ≤ 57)
      then digits_value (10 * acc + (n - 48)) s'
      else None
  end.

(** Splitting at the first occurrence of [sep], which is dropped. *)
Fixpoint split_at (sep : ascii) (s : string) : string * option string :=
  match s with
  | EmptyString => (EmptyString, None)
  | String c s' =>
      if bool_decide (c = sep) then (EmptyString, Some s')
      else let r := split_at sep s' in (String c r.1, r.2)
  end.

(** ** agent and weight_agent: configuration and weight files *)

(** How a call can end: it returns, the process leaves through
    [std::exit(status)], an exception escapes, or the behaviour is
    undefined. *)
Inductive outcome (A : Type) :=
  | Done (a : A)
  | Exit (status : Z)
  | Throws
  | Undefined.
Arguments Done {A} _.
Arguments Exit {A} _.
Arguments Throws {A}.
Arguments Undefined {A}.

#[global] Instance outcome_bind : MBind outcome := λ A B f m,
  match m with
  | Done a => f a
  | Exit status => Exit status
  | Throws => Throws
  | Undefined => Undefined
  end.

(** The files the process can see: the content of each file that opens for
    reading, and whether a path opens for writing. *)
Record filesystem := FileSystem {
  fs_files : gmap string (list byte);
  fs_writable : string → bool
}.

(** What [weight.h] and the platform contribute to the weight file: the
    stream extraction [in >> w] (it consumes a prefix of the remaining input),
    the stream insertion [out << w] (it emits bytes), and the object
    representation of a [uint32_t] in native byte order.  [weight_fits len]
    tells whether the platform grants [weight(len)] its array of [len]
    entries; when it does not (a length no array can have, or more memory
    than there is), the constructor throws. *)
Class WeightIO (num : Type) := {
  weight_read : weight num → list byte → weight num * list byte;
  weight_write : weight num → list byte;
  u32_decode : list byte → Z;
  u32_encode : Z → list byte;
  weight_fits : Z → bool
}.

(** [std::isspace] and [std::isdigit] in the "C" locale. *)
Definition is_space (c : ascii) : bool :=
  let n := Z.of_N (N_of_ascii c) in
  bool_decide (n = 32) || bool_decide (9 ≤ n ≤ 13).

Definition is_digit (c : ascii) : bool :=
  let n := Z.of_N (N_of_ascii c) in bool_decide (48 ≤ n ≤ 57).

(** The tokens that repeated [ss >> token] extracts: the maximal runs
    without white space; [cur] is the run being read. *)
Fixpoint words_from (s : string) (cur : string) : list string :=
  match s with
  | EmptyString =>
      match cur with EmptyString => [] | _ => [cur] end
  | String c s' =>
      if is_space c
      then match cur with
           | EmptyString => words_from s' EmptyString
           | _ => cur :: words_from s' EmptyString
           end
      else words_from s' (cur +:+ String c EmptyString)
  end.

(** [agent::agent]: every token [key=value] of
    ["name=unknown role=unknown " + args] is stored in [meta]; a token
    without ['='] is stored under itself ([find] returns [npos], so both
    [substr] calls return the whole token). *)
Definition agent_new (args : string) : gmap string string :=
  foldl (λ meta pair,
           let r := split_at "="%char pair in
           let key := r.1 in
           let value := default pair r.2 in
           <[key := value]> meta)
        ∅ (words_from ("name=unknown role=unknown " +:+ args) EmptyString).

(** [std::string] with every character that is not a digit replaced by a
    space. *)
Fixpoint blank_non_digits (s : string) : string :=
  match s with
  | EmptyString => EmptyString
  | String c s' =>
      String (if is_digit c then c else " "%char) (blank_non_digits s')
  end.

(** The loop [for (size_t size; in >> size; net.emplace_back(size))]: it
    stops at the first number that does not fit a 64-bit [size_t], and the
    exception of a shard that cannot be allocated leaves the loop and the
    function. *)
Fixpoint emplace_sizes {num : Type} `{!WeightIO num} (tokens : list string)
  (net : list (weight num)) : outcome (list (weight num)) :=
  match tokens with
  | [] => Done net
  | t :: tokens' =>
      match digits_value 0 t with
      | Some size =>
          if bool_decide (size < 2 ^ 64)
          then
            if weight_fits size
            then emplace_sizes tokens' (net ++ [weight_new size])
            else Throws
          else Done net
      | None => Done net
      end
  end.

Definition init_weights {num : Type} `{!WeightIO num} (info : string)
  (net : list (weight num)) : outcome (list (weight num)) :=
  emplace_sizes (words_from (blank_non_digits info) EmptyString) net.

(** The loop [for (weight& w : net) in >> w]. *)
Fixpoint read_each {num : Type} `{!WeightIO num} (net : list (weight num))
  (input : list byte) : list (weight num) * list byte :=
  match net with
  | [] => ([], input)
  | w :: net' =>
      let r := weight_read w input in
      let rs := read_each net' r.2 in
      (r.1 :: rs.1, rs.2)
  end.

(** [weight_agent::load_weights].  A file shorter than the 4-byte header
    leaves [size] indeterminate. *)
Definition load_weights {num : Type} `{!WeightIO num} (fs : filesystem)
  (path : string) (net : list (weight num)) : outcome (list (weight num)) :=
  match fs_files fs !! path with
  | None => Exit (-1)
  | Some data =>
      if bool_decide (length data < 4)%nat then Undefined
      else
        let size := u32_decode (take 4 data) in
        let net := resize (Z.to_nat size) (weight_new 0) net in
        Done (read_each net (drop 4 data)).1
  end.

(** [weight_agent::save_weights]; [uint32_t size = net.size()] keeps the low
    32 bits, and the file is truncated on opening. *)
Definition save_weights {num : Type} `{!WeightIO num} (fs : filesystem)
  (path : string) (net : list (weight num)) : outcome filesystem :=
  if fs_writable fs path
  then
    let size := Z.of_nat (length net) mod 2 ^ 32 in
    let out := u32_encode size in
    let out := foldl (λ out w, out ++ weight_write w) out net in
    Done (FileSystem (<[path := out]> (fs_files fs)) (fs_writable fs))
  else Exit (-1).

(** An agent object: [meta] from [agent], the rest from [weight_agent] and
    the concrete class. *)
Record agent_object (board num : Type) := AgentObject {
  meta : gmap string string;
  state : agent_state board num
}.
Arguments AgentObject {board num} _ _.
Arguments meta {board num} _.
Arguments state {board num} _.

(** [weight_agent::weight_agent]: [alpha] starts at 0.0125; then the keys
    [init], [load] and [alpha] are honoured in this order. *)
Definition weight_agent_new {board num : Type} `{!NumOps num, !WeightIO num}
  (fs : filesystem) (args : string) : outcome (agent_object board num) :=
  let meta := agent_new args in
  let alpha := num_lit (1 # 80) in
  let net := [] in
  net ← match meta !! "init" with
        | Some info => init_weights info net
        | None => Done net
        end;
  net ← match meta !! "load" with
        | Some path => load_weights fs path net
        | None => Done net
        end;
  alpha ← match meta !! "alpha" with
          | Some value =>
              match num_of_string value with
              | Some x => Done x
              | None => Throws
              end
          | None => Done alpha
          end;
  Done (AgentObject meta (AgentState net alpha [] [] [])).

(** [weight_agent::~weight_agent]. *)
Definition weight_agent_delete {board num : Type} `{!WeightIO num}
  (fs : filesystem) (a : agent_object board num) : outcome filesystem :=
  match meta a !! "save" with
  | Some path => save_weights fs path (net (state a))
  | None => Done fs
  end.

(** ** four_tuple_agent *)

Module four_tuple_agent.
Section Defs.
Context {board num : Type} `{!BoardOps board, !NumOps num}.

(** The constructor adds nothing to [weight_agent]'s but [opcode]. *)
Definition new `{!WeightIO num} (fs : filesystem) (args : string)
  : outcome (agent_object board num) :=
  weight_agent_new fs args.

Definition open_episode (st : agent_state board num) : agent_state board num :=
  AgentState (net st) (alpha st) [] [] [].

(** One iteration of the loop of [update_net]: the row tuple [i] goes to
    shard [i], the column tuple [i] to shard [i+4]. *)
Definition update_net_body (b : board) (update_value : num)
  (net : list (weight num)) (i : nat) : option (list (weight num)) :=
  let index_base := 4 * Z.of_nat i in
  let index := net_index (cell_at b index_base) (cell_at b (index_base + 1))
                 (cell_at b (index_base + 2)) (cell_at b (index_base + 3)) in
  net ← net_add net i index update_value;
  let index := net_index (cell_at b (Z.of_nat i + 0)) (cell_at b (Z.of_nat i + 4))
                 (cell_at b (Z.of_nat i + 8)) (cell_at b (Z.of_nat i + 12)) in
  net_add net (i + 4) index update_value.

Definition update_net (net : list (weight num)) (b : board) (update_value : num)
  : option (list (weight num)) :=
  for_each (update_net_body b update_value) (seq 0 4) net.

Definition calculate_state_value_body (net : list (weight num)) (b : board)
  (state_value : num) (i : nat) : option num :=
  let index_base := 4 * Z.of_nat i in
  let index := net_index (cell_at b index_base) (cell_at b (index_base + 1))
                 (cell_at b (index_base + 2)) (cell_at b (index_base + 3)) in
  w ← net_get net i index;
  let state_value := nadd state_value w in
  let index := net_index (cell_at b (Z.of_nat i + 0)) (cell_at b (Z.of_nat i + 4))
                 (cell_at b (Z.of_nat i + 8)) (cell_at b (Z.of_nat i + 12)) in
  w ← net_get net (4 + i) index;
  Some (nadd state_value w).

Definition calculate_state_value (net : list (weight num)) (b : board)
  : option num :=
  for_each (calculate_state_value_body net b) (seq 0 4) (num_of_Z 0).

(** [close_episode]: the two sentinels, then the loop
    [for (i = len-1; i >= 0; i--)]. *)
Definition close_episode (st : agent_state board num)
  : option (agent_state board num) :=
  let rewards := episode_rewards st ++ [0] in
  let values := episode_values st ++ [0] in
  let len := length (episode_boards st) in
  net' ← for_each
           (close_episode_body update_net (alpha st) (episode_boards st)
              values rewards)
           (rev (seq 0 len)) (net st);
  Some (AgentState net' (alpha st) (episode_boards st) values rewards).

(** One iteration of [for (int op : opcode)] in [take_action]. *)
Definition take_action_body (net : list (weight num)) (b : board)
  (cur : best board num) (op : Z) : option (best board num) :=
  let '(after, reward) := slide b op in
  if bool_decide (reward = -1) then Some cur
  else
    v ← calculate_state_value net after;
    let after_state_value := nadd v (num_of_Z reward) in
    if ngt after_state_value (best_after_state_value cur)
       || bool_decide (best_reward cur = -1)
    then Some (Best reward op after_state_value
                 (best_episode_after_state_value cur) after)
    else Some cur.

Definition take_action (st : agent_state board num) (b : board)
  : option (agent_state board num * action) :=
  cur ← for_each (take_action_body (net st) b) opcode
          (Best (-1) (-1) (num_of_Z (-1000)) (num_of_Z (-1000)) board_new);
  if bool_decide (best_reward cur ≠ -1)
  then Some (AgentState (net st) (alpha st)
               (episode_boards st ++ [best_after cur])
               (episode_values st ++ [num_to_int (best_after_state_value cur)])
               (episode_rewards st ++ [best_reward cur]),
             action_slide (best_action cur))
  else Some (st, action_none).

End Defs.
End four_tuple_agent.

(** ** six_tuple_agent *)

Module six_tuple_agent.
Section Defs.
Context {board num : Type} `{!BoardOps board, !NumOps num}.

(** [tuple_index], as the constructor fills it. *)
Definition tuple_index : list (list Z) :=
  [ [0; 1; 2; 3; 4; 5];
    [4; 5; 6; 7; 8; 9];
    [5; 6; 7; 9; 10; 11];
    [9; 10; 11; 13; 14; 15] ].

(** The constructor: after [weight_agent]'s, the body assigns
    [alpha = 0.1/32] and fills [tuple_index]. *)
Definition new `{!WeightIO num} (fs : filesystem) (args : string)
  : outcome (agent_object board num) :=
  a ← weight_agent_new fs args;
  let st := state a in
  Done (AgentObject (meta a)
          (AgentState (net st) (ndiv (num_lit (1 # 10)) (num_of_Z 32))
             (episode_boards st) (episode_values st) (episode_rewards st))).

Definition open_episode (st : agent_state board num) : agent_state board num :=
  AgentState (net st) (alpha st) [] [] [].

(** The block [for (i = 0; i < 4; i++) { index = ...; net[base+i][index] +=
    update_value; }] that [update_net] repeats for every variant [fb]; [base]
    is [0], [k*4], [16] and [16+k*4] in its four occurrences. *)
Definition update_tuples (fb : board) (base : nat) (update_value : num)
  (net : list (weight num)) : option (list (weight num)) :=
  for_each
    (λ net i,
       let index := tuple_address fb (nth i tuple_index []) 6 in
       net_add net (base + i) index update_value)
    (seq 0 4) net.

(** [for (k = 1; k <= 3; k++) { fb.rotate_clockwise(); ... net[base+k*4+i] }]. *)
Definition update_rotations (base : nat) (update_value : num)
  (s : board * list (weight num)) : option (board * list (weight num)) :=
  for_each
    (λ s k,
       let fb := rotate_clockwise s.1 in
       net ← update_tuples fb (base + k * 4) update_value s.2;
       Some (fb, net))
    (seq 1 3) s.

Definition update_net (net : list (weight num)) (b : board) (update_value : num)
  : option (list (weight num)) :=
  let fb := b in
  net ← update_tuples fb 0 update_value net;
  s ← update_rotations 0 update_value (fb, net);
  let fb := reflect_horizontal b in
  net ← update_tuples fb 16 update_value s.2;
  s ← update_rotations 16 update_value (fb, net);
  Some s.2.

(** The same four blocks in [calculate_state_value], accumulating
    [state_value += net[base+i][index]]. *)
Definition value_tuples (net : list (weight num)) (fb : board) (base : nat)
  (state_value : num) : option num :=
  for_each
    (λ state_value i,
       let index := tuple_address fb (nth i tuple_index []) 6 in
       w ← net_get net (base + i) index;
       Some (nadd state_value w))
    (seq 0 4) state_value.

Definition value_rotations (net : list (weight num)) (base : nat)
  (s : board * num) : option (board * num) :=
  for_each
    (λ s k,
       let fb := rotate_clockwise s.1 in
       state_value ← value_tuples net fb (base + k * 4) s.2;
       Some (fb, state_value))
    (seq 1 3) s.

Definition calculate_state_value (net : list (weight num)) (b : board)
  : option num :=
  let state_value := num_of_Z 0 in
  let fb := b in
  state_value ← value_tuples net fb 0 state_value;
  s ← value_rotations net 0 (fb, state_value);
  let fb := reflect_horizontal b in
  state_value ← value_tuples net fb 16 s.2;
  s ← value_rotations net 16 (fb, state_value);
  Some s.2.

Definition close_episode (st : agent_state board num)
  : option (agent_state board num) :=
  let rewards := episode_rewards st ++ [0] in
  let values := episode_values st ++ [0] in
  let len := length (episode_boards st) in
  net' ← for_each
           (close_episode_body update_net (alpha st) (episode_boards st)
              values rewards)
           (rev (seq 0 len)) (net st);
  Some (AgentState net' (alpha st) (episode_boards st) values rewards).

Definition take_action_body (net : list (weight num)) (b : board)
  (cur : best board num) (op : Z) : option (best board num) :=
  let '(after, reward) := slide b op in
  if bool_decide (reward = -1) then Some cur
  else
    episode_after_state_value ← calculate_state_value net after;
    let after_state_value := nadd episode_after_state_value (num_of_Z reward) in
    if ngt after_state_value (best_after_state_value cur)
       || bool_decide (best_reward cur = -1)
    then Some (Best reward op after_state_value episode_after_state_value after)
    else Some cur.

Definition take_action (st : agent_state board num) (b : board)
  : option (agent_state board num * action) :=
  cur ← for_each (take_action_body (net st) b) opcode
          (Best (-1) (-1) (num_of_Z (-1000)) (num_of_Z (-1000)) board_new);
  if bool_decide (best_reward cur ≠ -1)
  then Some (AgentState (net st) (alpha st)
               (episode_boards st ++ [best_after cur])
               (episode_values st
                  ++ [num_to_int (best_episode_after_state_value cur)])
               (episode_rewards st ++ [best_reward cur]),
             action_slide (best_action cur))
  else Some (st, action_none).

End Defs.
End six_tuple_agent.

(** ** The active table entries, as the specification describes them *)

(** The canonical order of the 8 symmetry variants: the board, three
    successive clockwise rotations, the horizontal reflection of the board,
    three successive clockwise rotations of that. *)
Definition variants {board : Type} `{!BoardOps board} (b : board) : list board :=
  let f := reflect_horizontal b in
  [ b;
    rotate_clockwise b;
    rotate_clockwise (rotate_clockwise b);
    rotate_clockwise (rotate_clockwise (rotate_clockwise b));
    f;
    rotate_clockwise f;
    rotate_clockwise (rotate_clockwise f);
    rotate_clockwise (rotate_clockwise (rotate_clockwise f)) ].

(** The (shard, address) pairs of the six-tuple scheme: variant [v] crossed
    with base tuple [i] targets shard [4*v + i]. *)
Definition six_active_entries {board : Type} `{!BoardOps board} (b : board)
  : list (nat * Z) :=
  mjoin (imap (λ v fb,
                 imap (λ i tup, ((4 * v + i)%nat, tuple_address fb tup 6))
                      six_tuple_agent.tuple_index)
              (variants b)).

(** The (shard, address) pairs of the four-tuple scheme: row [i] targets shard
    [i], column [i] targets shard [i+4]. *)
Definition four_tuple_entries {board : Type} `{!BoardOps board} (b : board)
  (i : nat) : list (nat * Z) :=
  let r := 4 * Z.of_nat i in
  let c := Z.of_nat i in
  [ (i, net_index (cell_at b r) (cell_at b (r + 1))
          (cell_at b (r + 2)) (cell_at b (r + 3)));
    ((i + 4)%nat, net_index (cell_at b c) (cell_at b (c + 4))
                    (cell_at b (c + 8)) (cell_at b (c + 12))) ].

Definition four_active_entries {board : Type} `{!BoardOps board} (b : board)
  : list (nat * Z) :=
  mjoin (map (four_tuple_entries b) (seq 0 4)).

(** The entries of one variant [fb] of the six-tuple scheme, its first shard
    being [base]. *)
Definition variant_entries {board : Type} `{!BoardOps board} (fb : board)
  (base : nat) : list (nat * Z) :=
  imap (λ i tup, ((base + i)%nat, tuple_address fb tup 6))
       six_tuple_agent.tuple_index.

(** The entries of the three successive clockwise rotations of [fb]. *)
Definition rotation_entries {board : Type} `{!BoardOps board} (fb : board)
  (base : nat) : list (nat * Z) :=
  variant_entries (rotate_clockwise fb) (base + 4)
  ++ variant_entries (rotate_clockwise (rotate_clockwise fb)) (base + 8)
  ++ variant_entries (rotate_clockwise (rotate_clockwise (rotate_clockwise fb)))
       (base + 12).

(** Summing the entries [es] of [net] onto [acc], in order. *)
Definition entries_sum {num : Type} `{!NumOps num} (net : list (weight num))
  (es : list (nat * Z)) (acc : num) : option num :=
  for_each (λ acc e, w ← net_get net e.1 e.2; Some (nadd acc w)) es acc.

(** The values that the entries [es] of [net] hold, in order. *)
Fixpoint entries_values {num : Type} `{!NumOps num} (net : list (weight num))
  (es : list (nat * Z)) : option (list num) :=
  match es with
  | [] => Some []
  | e :: es' =>
      w ← net_get net e.1 e.2; ws ← entries_values net es'; Some (w :: ws)
  end.

(** Adding [d] to the entries [es] of [net], in order. *)
Definition entries_add {num : Type} `{!NumOps num} (net : list (weight num))
  (es : list (nat * Z)) (d : num) : option (list (weight num)) :=
  for_each (λ net e, net_add net e.1 e.2 d) es net.

(** ** Vocabulary for the action selector *)

(** Direction [op] is legal on [b] when [slide] does not return [-1]. *)
Definition legal {board : Type} `{!BoardOps board} (b : board) (op : Z) : Prop :=
  (slide b op).2 ≠ -1.


(** The two [take_action] loop bodies differ in [calculate_state_value] and in
    whether the raw value is kept in [best_episode_after_state_value]
    ([keeps_raw], six-tuple agent) or not (four-tuple agent); this is their
    common shape, which the proofs work on. *)
Definition take_action_body_common {board num : Type}
  `{!BoardOps board, !NumOps num} (calc : board → option num) (keeps_raw : bool)
  (b : board) (cur : best board num) (op : Z) : option (best board num) :=
  if bool_decide ((slide b op).2 = -1) then Some cur
  else
    v ← calc (slide b op).1;
    let after_state_value := nadd v (num_of_Z (slide b op).2) in
    if ngt after_state_value (best_after_state_value cur)
       || bool_decide (best_reward cur = -1)
    then Some (Best (slide b op).2 op after_state_value
                 (if keeps_raw then v else best_episode_after_state_value cur)
                 (slide b op).1)
    else Some cur.

(** What the locals [cur] hold once some direction has been adopted, [cur0]
    being the locals before the loop. *)
Definition adopted {board num : Type} `{!BoardOps board, !NumOps num}
  (calc : board → option num) (keeps_raw : bool) (b : board)
  (cur0 cur : best board num) : Prop :=
  slide b (best_action cur) = (best_after cur, best_reward cur)
  ∧ best_reward cur ≠ -1
  ∧ ∃ v, calc (best_after cur) = Some v
      ∧ best_after_state_value cur = nadd v (num_of_Z (best_reward cur))
      ∧ best_episode_after_state_value cur
        = (if keeps_raw then v else best_episode_after_state_value cur0).

(** The locals of [take_action] before its loop. *)
Definition best_init {board num : Type} `{!BoardOps board, !NumOps num}
  : best board num :=
  Best (-1) (-1) (num_of_Z (-1000)) (num_of_Z (-1000)) board_new.


(** ** Episodes *)

(** The caller's loop between [open_episode] and [close_episode]: one
    [take_action] per board of [bs]; the result counts the accepted calls. *)
Fixpoint play {board num : Type}
  (take_action : agent_state board num → board
                 → option (agent_state board num * action))
  (st : agent_state board num) (bs : list board)
  : option (agent_state board num * nat) :=
  match bs with
  | [] => Some (st, 0%nat)
  | b :: bs' =>
      r ← take_action st b;
      match r.2 with
      | action_none => play take_action r.1 bs'
      | action_slide _ =>
          r' ← play take_action r.1 bs'; Some (r'.1, S r'.2)
      end
  end.

(** ** The backward pass, as the specification describes it *)

(** The update of each recorded position, first position first: position [i]
    pairs [board_seq[i]] with
    [alpha * (value_seq[i+1] + reward_seq[i+1] - value_seq[i])].  [values]
    and [rewards] are the sequences with their terminal sentinel; they are
    paired with their own tails, so that no index is computed. *)
Definition td_updates {board num : Type} `{!NumOps num} (alpha : num)
  (boards : list board) (values rewards : list Z) : list (board * num) :=
  zip_with (λ b t, (b, nmul alpha (num_of_Z (t.2.1 + t.2.2 - t.1))))
    boards (zip values (zip (tail values) (tail rewards))).

(** [close_episode] by the specification: append the two sentinels, then
    apply the updates of the recorded positions from the last to the first. *)
Definition close_episode_spec {board num : Type} `{!NumOps num}
  (update_net : list (weight num) → board → num → option (list (weight num)))
  (st : agent_state board num) : option (agent_state board num) :=
  let rewards := episode_rewards st ++ [0] in
  let values := episode_values st ++ [0] in
  net' ← for_each (λ net u, update_net net u.1 u.2)
           (rev (td_updates (alpha st) (episode_boards st) values rewards))
           (net st);
  Some (AgentState net' (alpha st) (episode_boards st) values rewards).

(** ** Concrete collaborators for worked examples *)

(** Exact rational arithmetic in the place of [double]: every operation is
    carried out without rounding, and the conversion to [int] discards the
    fractional part (it truncates toward zero). *)
Definition Qc_trunc (q : Qc) : Z := Z.quot (Qnum q) (Z.pos (Qden q)).

(** A stand-in for [std::stod] on the strings of the examples: the plain
    decimals [digits] and [digits.digits], optionally preceded by [-].  The
    other forms that [std::stod] converts (a [+] sign, an exponent,
    hexadecimal, trailing text, infinity, NaN) are not covered and come out
    as [None]; no example passes one. *)
Definition decimal_value (s : string) : option Qc :=
  let '(neg, s) :=
    match s with
    | String "-"%char s' => (true, s')
    | _ => (false, s)
    end in
  let '(ip, fp) := split_at "."%char s in
  let fp := default EmptyString fp in
  i ← digits_value 0 ip;
  f ← digits_value 0 fp;
  if bool_decide (String.length ip + String.length fp = 0)%nat then None
  else
    let scale := inject_Z (10 ^ Z.of_nat (String.length fp)) in
    let q := Q2Qc (inject_Z i + inject_Z f / scale) in
    Some (if neg then (- q)%Qc else q).

#[global] Instance Qc_num : NumOps Qc := {|
  num_of_Z z := Q2Qc (inject_Z z);
  num_lit q := Q2Qc q;
  num_of_string := decimal_value;
  nadd := Qcplus;
  nmul := Qcmult;
  ndiv := Qcdiv;
  ngt x y := bool_decide (y < x)%Qc;
  num_to_int := Qc_trunc;
  num_to_entry q := q
|}.

(** IEEE 754 arithmetic, as [SpecFloat] specifies it: [double] is binary64,
    every value is kept as a binary64 number, and a [float] is a binary64
    number that binary32 holds. *)
Definition ieee_of_Z (z : Z) : spec_float := binary_normalize 53 1024 z 0 false.

(** The conversion to [float] (round to nearest, ties to even), the result
    read back as a [double]. *)
Definition ieee_to_float (x : spec_float) : spec_float :=
  match x with
  | S754_finite s m e =>
      match binary_round 24 128 s m e with
      | S754_finite s' m' e' => binary_round 53 1024 s' m' e'
      | y => y
      end
  | _ => x
  end.

(** The [double] nearest to the decimal literal [q] (numerator and
    denominator below 2^53). *)
Definition ieee_lit (q : Q) : spec_float :=
  SFdiv 53 1024 (ieee_of_Z (Qnum q)) (ieee_of_Z (Z.pos (Qden q))).

(** The conversion of a [double] to [int]: the fractional part is dropped.
    Infinities and NaN have no defined conversion; they are sent to 0. *)
Definition ieee_to_int (x : spec_float) : Z :=
  match x with
  | S754_finite s m e =>
      let n := if bool_decide (0 ≤ e) then Z.pos m * 2 ^ e
               else Z.pos m / 2 ^ (- e) in
      if s then - n else n
  | _ => 0
  end.

(** The rational number that a finite [double] denotes (0 for the others). *)
Definition ieee_value (x : spec_float) : Q :=
  match x with
  | S754_finite s m e =>
      let n := if s then Z.neg m else Z.pos m in
      if bool_decide (0 ≤ e) then inject_Z (n * 2 ^ e)
      else n # Z.to_pos (2 ^ (- e))
  | _ => 0
  end.

(** The operations as the agents perform them: sums, quotients and
    comparisons in [double]; the one product, [alpha * (int expression)], in
    [float], both operands converted to [float] first; [to_entry] is the
    conversion on a store into a shard. *)
Definition ieee_ops (to_entry : spec_float → spec_float) : NumOps spec_float := {|
  num_of_Z := ieee_of_Z;
  num_lit := ieee_lit;
  num_of_string s := (λ q : Qc, ieee_lit (this q)) <$> decimal_value s;
  nadd := SFadd 53 1024;
  nmul x y := ieee_to_float (SFmul 53 1024 (ieee_to_float x) (ieee_to_float y));
  ndiv := SFdiv 53 1024;
  ngt x y := SFltb y x;
  num_to_int := ieee_to_int;
  num_to_entry := to_entry
|}.

(** Shards of [float] entries, and shards of [double] entries. *)
Definition ieee_num : NumOps spec_float := ieee_ops ieee_to_float.
Definition ieee_num_double_entries : NumOps spec_float := ieee_ops (λ x, x).

(** A board engine for examples: the 16 cells in row-major order.  The two
    transforms move the cells as a 4x4 grid; the slide rule is a table
    [script] from (board, direction) to (afterstate, reward), and a move that
    is not in the table is illegal. *)
Definition grid : Type := list Z.

Definition grid_transform (source : nat → nat) (b : grid) : grid :=
  map (λ p, nth (source p) b 0) (seq 0 16).

Definition grid_rotate_clockwise : grid → grid :=
  grid_transform (λ p, ((3 - p mod 4) * 4 + p / 4)%nat).

Definition grid_reflect_horizontal : grid → grid :=
  grid_transform (λ p, (p / 4 * 4 + (3 - p mod 4))%nat).

Fixpoint grid_slide (script : list (grid * Z * (grid * Z))) (b : grid) (op : Z)
  : grid * Z :=
  match script with
  | [] => (b, -1)
  | e :: script' =>
      if bool_decide (e.1 = (b, op)) then e.2 else grid_slide script' b op
  end.

Definition grid_board (script : list (grid * Z * (grid * Z)))
  : BoardOps grid := {|
  board_new := replicate 16 0;
  cell_at b i := nth (Z.to_nat i) b 0;
  slide := grid_slide script;
  rotate_clockwise := grid_rotate_clockwise;
  reflect_horizontal := grid_reflect_horizontal
|}.

(** A small game for the examples: from [demo_start] the slides 1 and 3 are
    legal with reward 3 and slide 2 with reward 1; from [demo_right] slide 3
    is legal with reward 0; every other slide is illegal. *)
Definition demo_start : grid :=
  [1; 2; 0; 0; 0; 0; 0; 0; 0; 0; 0; 0; 0; 0; 0; 0].
Definition demo_right : grid :=
  [0; 0; 0; 3; 0; 0; 0; 0; 0; 0; 0; 0; 0; 0; 0; 0].
Definition demo_down : grid :=
  [0; 0; 0; 0; 1; 2; 0; 0; 0; 0; 0; 0; 0; 0; 0; 0].
Definition demo_left : grid :=
  [3; 0; 0; 0; 0; 0; 0; 0; 0; 0; 0; 0; 0; 0; 0; 0].
Definition demo_end : grid :=
  [0; 3; 0; 0; 0; 0; 0; 0; 0; 0; 0; 0; 0; 0; 0; 0].

Definition demo_script : list (grid * Z * (grid * Z)) :=
  [ ((demo_start, 1), (demo_right, 3));
    ((demo_start, 2), (demo_down, 1));
    ((demo_start, 3), (demo_left, 3));
    ((demo_right, 3), (demo_end, 0)) ].

#[global] Instance demo_board : BoardOps grid := grid_board demo_script.

(** Fresh tables: 8 shards of 2^16 zeros (four-tuple agent), 32 shards of
    2^24 zeros (six-tuple agent). *)
Definition four_fresh_net : list (weight Qc) :=
  replicate 8 (weight_new (2 ^ 16)).
Definition six_fresh_net : list (weight Qc) :=
  replicate 32 (weight_new (2 ^ 24)).

(** Tables in which [demo_right] is worth 5/2. *)
Definition four_trained_net : list (weight Qc) :=
  default [] (four_tuple_agent.update_net four_fresh_net demo_right
                (Q2Qc (5 # 16))).
Definition six_trained_net : list (weight Qc) :=
  default [] (six_tuple_agent.update_net six_fresh_net demo_right
                (Q2Qc (5 # 64))).

(** Agents at the start of the examples. *)
Definition four_fresh : agent_state grid Qc :=
  AgentState four_fresh_net (Q2Qc (1 # 80)) [] [] [].
Definition six_fresh : agent_state grid Qc :=
  AgentState six_fresh_net (Q2Qc (1 # 320)) [] [] [].
Definition four_trained : agent_state grid Qc :=
  AgentState four_trained_net (Q2Qc (1 # 2)) [] [] [].
Definition six_trained : agent_state grid Qc :=
  AgentState six_trained_net (Q2Qc (1 # 2)) [] [] [].

(** The agent after the moves of an example, [st] if the run is undefined. *)
Definition after_play (st : agent_state grid Qc)
  (r : option (agent_state grid Qc * nat)) : agent_state grid Qc :=
  default st (fst <$> r).

Definition after_action (st : agent_state grid Qc)
  (r : option (agent_state grid Qc * action)) : agent_state grid Qc :=
  default st (fst <$> r).

(** ** The weight file, as the specification describes it *)

(** The input that is left once the first [i] shards have been read in
    order; [olds] are the shards before reading. *)
Fixpoint input_after {num : Type} `{!WeightIO num} (olds : list (weight num))
  (i : nat) (input : list byte) : list byte :=
  match i, olds with
  | S i', w :: olds' => input_after olds' i' (weight_read w input).2
  | _, _ => input
  end.

(** A weight codec for the examples: a shard is written as one byte holding
    its length followed by one byte per entry (entries are small naturals),
    and a [uint32_t] as four bytes, least significant first.  The platform
    of the examples grants a shard up to 2^32 entries. *)
Definition byte_of_Z (z : Z) : byte :=
  default x00 (Byte.of_N (Z.to_N (z mod 256))).

Definition Z_of_byte (b : byte) : Z := Z.of_N (Byte.to_N b).

Definition demo_weight_write (w : weight Qc) : list byte :=
  byte_of_Z (weight_size w)
  :: map (λ i : nat,
            byte_of_Z (Qc_trunc (default (Q2Qc 0) (weight_value w !! Z.of_nat i))))
         (seq 0 (Z.to_nat (weight_size w))).

Definition demo_weight_read (w : weight Qc) (input : list byte)
  : weight Qc * list byte :=
  match input with
  | [] => (w, [])
  | n :: rest =>
      let k := Z.to_nat (Z_of_byte n) in
      (Weight (Z.of_nat k)
         (list_to_map
            (imap (λ i x, (Z.of_nat i, Q2Qc (inject_Z (Z_of_byte x))))
                  (take k rest))),
       drop k rest)
  end.

#[global] Instance demo_weight_io : WeightIO Qc := {|
  weight_read := demo_weight_read;
  weight_write := demo_weight_write;
  u32_decode bs :=
    foldr (λ b acc, Z_of_byte b + 256 * acc) 0 bs;
  u32_encode z :=
    map (λ i : nat, byte_of_Z (z / 256 ^ Z.of_nat i)) (seq 0 4);
  weight_fits len := bool_decide (len ≤ 2 ^ 32)
|}.

(** A file system with one weight file, ["w.bin"], holding two shards of
    lengths 2 and 1; only ["out.bin"] opens for writing. *)
Definition demo_fs : filesystem :=
  FileSystem
    {[ "w.bin" := [x02; x00; x00; x00; x02; x07; x09; x01; x05] ]}
    (λ path, bool_decide (path = "out.bin")).

(** The agent that a constructor call of an example returns. *)
Definition constructed (o : outcome (agent_object grid Qc))
  : agent_object grid Qc :=
  match o with
  | Done a => a
  | _ => AgentObject ∅ six_fresh
  end.

(** ** Further vocabulary for the table store *)

(** The lengths of the shards, in table order. *)
Definition net_shape {num : Type} (net : list (weight num)) : list Z :=
  weight_size <$> net.

(** Entry [e] exists in [net]: its shard exists and its address is within the
    shard. *)
Definition entry_ok {num : Type} (net : list (weight num)) (e : nat * Z)
  : Prop :=
  ∃ size, net_shape net !! e.1 = Some size ∧ 0 ≤ e.2 < size.

(** ** agent: the metadata accessors *)

Module agent.

(** [property(key)] is [meta.at(key)]: it throws [std::out_of_range] when the
    key is missing. *)
Definition property (meta : gmap string string) (key : string)
  : outcome string :=
  match meta !! key with
  | Some value => Done value
  | None => Throws
  end.

(** [notify(msg)]: [meta[msg.substr(0, msg.find('='))] =
    msg.substr(msg.find('=') + 1)], with no tokenising. *)
Definition notify (meta : gmap string string) (msg : string)
  : gmap string string :=
  let r := split_at "="%char msg in
  <[r.1 := default msg r.2]> meta.

Definition name (meta : gmap string string) : outcome string :=
  property meta "name".

Definition role (meta : gmap string string) : outcome string :=
  property meta "role".

End agent.

(** No character of [s] satisfies [p]. *)
Fixpoint string_avoids (p : ascii → bool) (s : string) : bool :=
  match s with
  | EmptyString => true
  | String c s' => negb (p c) && string_avoids p s'
  end.

(** [s] is a token: not empty and free of white space. *)
Definition is_token (s : string) : Prop :=
  s ≠ EmptyString ∧ string_avoids is_space s = true.

(** ** Size lists, as a user writes them *)

(** [ts] written in a row, with the character [sep] between neighbours. *)
Fixpoint join_with (sep : ascii) (ts : list string) : string :=
  match ts with
  | [] => EmptyString
  | [t] => t
  | t :: ts' => t +:+ String sep (join_with sep ts')
  end.

(** [t] is a decimal number: not empty, digits only. *)
Definition is_number (t : string) : Prop :=
  t ≠ EmptyString ∧ string_avoids (λ c, negb (is_digit c)) t = true.

(** The number that the digits of [t] denote. *)
Definition number_value (t : string) : Z := default 0 (digits_value 0 t).

(** The longest prefix of [vs] whose members fit a 64-bit [size_t]. *)
Fixpoint sizes_that_fit (vs : list Z) : list Z :=
  match vs with
  | [] => []
  | v :: vs' => if bool_decide (v < 2 ^ 64) then v :: sizes_that_fit vs' else []
  end.

(** ** heuristic_slider *)

Module heuristic_slider.
Section Defs.
Context {board : Type} `{!BoardOps board}.

(** One iteration of the loop: the locals are [(best_reward, best_action)];
    the slide runs on a copy of [before]. *)
Definition take_action_body (before : board) (cur : Z * Z) (op : Z) : Z * Z :=
  let reward := (slide before op).2 in
  if bool_decide (reward > cur.1) then (reward, op) else cur.

Definition take_action (before : board) : action :=
  let cur := foldl (take_action_body before) (-1, -1) opcode in
  if bool_decide (cur.1 ≠ -1) then action_slide cur.2 else action_none.

End Defs.
End heuristic_slider.

(** ** random_slider *)

(** [std::shuffle] with the agent's engine: it reorders the range and
    advances the engine. *)
Class Shuffle (engine : Type) := {
  shuffle : engine → list Z → list Z * engine
}.

(** What [std::shuffle] guarantees: the result is a rearrangement. *)
Class ShuffleLaw (engine : Type) `{!Shuffle engine} := {
  shuffle_permutation : ∀ (e : engine) (l : list Z), (shuffle e l).1 ≡ₚ l
}.

Module random_slider.
Section Defs.
Context {board engine : Type} `{!BoardOps board, !Shuffle engine}.

(** The data members: [opcode], which every call reshuffles in place, and
    the engine of [random_agent]. *)
Record state := State {
  opcode : list Z;
  engine_state : engine
}.

(** The loop [for (int op : opcode)]: the first direction whose slide on a
    copy of [before] is not -1. *)
Fixpoint first_legal (before : board) (ops : list Z) : action :=
  match ops with
  | [] => action_none
  | op :: ops' =>
      if bool_decide ((slide before op).2 ≠ -1) then action_slide op
      else first_legal before ops'
  end.

Definition take_action (st : state) (before : board) : state * action :=
  let r := shuffle (engine_state st) (opcode st) in
  (State r.1 r.2, first_legal before r.1).

End Defs.
End random_slider.

(** A shuffle for the examples: it reverses the range and counts the calls. *)
#[global] Instance demo_shuffle : Shuffle nat := {|
  shuffle e l := (reverse l, S e)
|}.

(** ** heuristic_slider_kai *)

(** [board.h]: the two-index read [b[r][c]] of row [r], column [c]. *)
Class BoardRows (board : Type) := {
  tile_at : board → Z → Z → Z
}.

(** An [int] result: undefined when it leaves the 32-bit range. *)
Definition int_result (z : Z) : outcome Z :=
  if bool_decide (- 2 ^ 31 ≤ z < 2 ^ 31) then Done z else Undefined.

(** The squares of the 4x4 board, as (row, column). *)
Definition squares : list (Z * Z) :=
  r ← [0; 1; 2; 3]; c ← [0; 1; 2; 3]; [(r, c)].

(** How many squares of the board are not in [visited]. *)
Definition unvisited (visited : gset (Z * Z)) : nat :=
  size (list_to_set squares ∖ visited : gset (Z * Z)).

Module heuristic_slider_kai.
Section Defs.
Context {board num : Type} `{!BoardOps board, !BoardRows board, !NumOps num}.

Definition find_empty_squares (after : board) : Z :=
  foldl (λ empty_square_count i,
           if bool_decide (cell_at after i = 0) then empty_square_count + 1
           else empty_square_count)
        0 (Z.of_nat <$> seq 0 16).

(** The condition of one of the four searches, the bound check apart:
    the neighbour is not visited, and its tile is not greater than the
    current one, or it is a 2 next to a 1. *)
Definition continues (after : board) (visited : gset (Z * Z))
  (r c r' c' : Z) : bool :=
  bool_decide ((r', c') ∉ visited)
  && (bool_decide (tile_at after r' c' ≤ tile_at after r c)
      || bool_decide (tile_at after r c = 1 ∧ tile_at after r' c' = 2)).

(** One of the four searches of [find_monotonic_structure] from square
    [(r, c)] to its neighbour [(r', c')]: [inside] is the bound check, [cur]
    holds [best_len] and the flags, [call] is the recursive call. *)
Definition search (call : gset (Z * Z) → Z → Z → option (Z * gset (Z * Z)))
  (after : board) (r c : Z) (inside : bool) (r' c' : Z)
  (cur : Z * gset (Z * Z)) : option (Z * gset (Z * Z)) :=
  if inside && continues after cur.2 r c r' c'
  then
    res ← call cur.2 r' c';
    Some (if bool_decide (res.1 > cur.1) then res.1 else cur.1, res.2)
  else Some cur.

(** [find_monotonic_structure]; [visited] is the member
    [monotonic_visited], the set of the squares whose flag is set, which the
    recursive calls share.  [fuel] bounds the depth of the recursion. *)
Fixpoint find_monotonic_structure (fuel : nat) (after : board)
  (visited : gset (Z * Z)) (r c : Z) : option (Z * gset (Z * Z)) :=
  match fuel with
  | O => None
  | S fuel' =>
      let visited := {[ (r, c) ]} ∪ visited in
      if bool_decide (tile_at after r c = 0) then Some (0, visited)
      else
        let call := find_monotonic_structure fuel' after in
        cur ← search call after r c (bool_decide (r - 1 >= 0)) (r - 1) c
                (0, visited);
        cur ← search call after r c (bool_decide (c + 1 < 4)) r (c + 1) cur;
        cur ← search call after r c (bool_decide (r + 1 < 4)) (r + 1) c cur;
        cur ← search call after r c (bool_decide (c - 1 >= 0)) r (c - 1) cur;
        Some (cur.1 + 1, cur.2)
  end.

(** The two nested loops over [r] and [c] in [take_action]: every start
    square searches with all flags cleared; [best_len] is the running
    maximum. *)
Definition longest_structure (after : board) (best_len : Z) : option Z :=
  for_each
    (λ best_len rc,
       res ← find_monotonic_structure 16 after ∅ rc.1 rc.2;
       Some (if bool_decide (res.1 > best_len) then res.1 else best_len))
    squares best_len.

(** A coefficient: [meta[key]] converted to [int] through [std::stod] when
    the key is present. *)
Definition coefficient (meta : gmap string string) (key : string)
  (preset : Z) : outcome Z :=
  match meta !! key with
  | Some value =>
      match num_of_string value with
      | Some x => Done (num_to_int x)
      | None => Throws
      end
  | None => Done preset
  end.

(** The locals that live across the iterations of the loop over [opcode]. *)
Record locals := Locals {
  best_reward : Z;
  best_action : Z;
  best_len : Z
}.

Definition take_action_body (empty_square_coef monotonic_structure_coef : Z)
  (before : board) (cur : locals) (op : Z) : outcome locals :=
  let after := (slide before op).1 in
  let reward := (slide before op).2 in
  bonus ← int_result (find_empty_squares after * empty_square_coef);
  reward ← int_result (reward + bonus);
  best_len ← match longest_structure after (best_len cur) with
             | Some len => Done len
             | None => Undefined
             end;
  bonus ← int_result (best_len * monotonic_structure_coef);
  reward ← int_result (reward + bonus);
  Done (if bool_decide (reward > best_reward cur)
        then Locals reward op best_len
        else Locals (best_reward cur) (best_action cur) best_len).

Fixpoint take_action_loop (empty_square_coef monotonic_structure_coef : Z)
  (before : board) (ops : list Z) (cur : locals) : outcome locals :=
  match ops with
  | [] => Done cur
  | op :: ops' =>
      cur ← take_action_body empty_square_coef monotonic_structure_coef
              before cur op;
      take_action_loop empty_square_coef monotonic_structure_coef
        before ops' cur
  end.

Definition take_action (meta : gmap string string) (before : board)
  : outcome action :=
  empty_square_coef ← coefficient meta "empty_square_coef" 5;
  monotonic_structure_coef ← coefficient meta "monotonic_structure_coef" 1;
  cur ← take_action_loop empty_square_coef monotonic_structure_coef
          before opcode (Locals (-1) (-1) 0);
  Done (if bool_decide (best_reward cur ≠ -1)
        then action_slide (best_action cur) else action_none).

End Defs.
End heuristic_slider_kai.

(** The rows of the example board. *)
#[global] Instance grid_rows : BoardRows grid := {|
  tile_at b r c := nth (Z.to_nat (r * 4 + c)) b 0
|}.

(** ** random_placer *)

(** [board.h], as the placer uses it: [last()] is the direction of the last
    slide, [bag(t)] the number of tiles [t] left in the bag as the loop
    over [size_t] sees it, [hint()] the tile that was announced. *)
Class BoardPlace (board : Type) := {
  board_last : board → Z;
  board_bag : board → Z → nat;
  board_hint : board → Z
}.

(** [action::place(pos, tile, hint)], or the default [action()]. *)
Inductive placement :=
  | placement_none
  | placement_place (pos tile hint : Z).

Module random_placer.
Section Defs.
Context {board engine : Type}
  `{!BoardOps board, !BoardPlace board, !Shuffle engine}.

(** The member [spaces], as the constructor fills it; an index outside
    the array has no entry. *)
Definition spaces (last : Z) : option (list Z) :=
  if bool_decide (0 ≤ last)
  then [ [12; 13; 14; 15];
         [0; 4; 8; 12];
         [0; 1; 2; 3];
         [3; 7; 11; 15];
         [0; 1; 2; 3; 4; 5; 6; 7; 8; 9; 10; 11; 12; 13; 14; 15] ]
       !! Z.to_nat last
  else None.

(** The loop [for (int pos : space)] up to its first empty cell. *)
Fixpoint first_empty (after : board) (space : list Z) : option Z :=
  match space with
  | [] => None
  | pos :: space' =>
      if bool_decide (cell_at after pos ≠ 0) then first_empty after space'
      else Some pos
  end.

(** What the loops over [t] and [i] write to [bag], in order. *)
Definition bag_tiles (after : board) : list Z :=
  t ← [1; 2; 3]; replicate (board_bag after t) t.

(** [bag[--num]]: the decremented [num] and the tile read; reading below
    the array is undefined. *)
Definition draw (bag : list Z) (num : nat) : outcome (Z * nat) :=
  match num with
  | O => Undefined
  | S num' =>
      match bag !! num' with
      | Some tile => Done (tile, num')
      | None => Undefined
      end
  end.

(** [take_action]; [e] is the engine of [random_agent], which both
    shuffles advance. *)
Definition take_action (e : engine) (after : board)
  : outcome (engine * placement) :=
  match spaces (board_last after) with
  | None => Undefined
  | Some space =>
      let r := shuffle e space in
      match first_empty after r.1 with
      | None => Done (r.2, placement_none)
      | Some pos =>
          let tiles := bag_tiles after in
          if bool_decide (3 < length tiles)%nat then Undefined
          else
            let num := length tiles in
            let r' := shuffle r.2 tiles in
            first ← (if bool_decide (board_hint after ≠ 0)
                     then Done (board_hint after, num)
                     else draw r'.1 num);
            second ← draw r'.1 first.2;
            Done (r'.2, placement_place pos first.1 second.1)
      end
  end.

End Defs.
End random_placer.

(** The placer's view of the example board: the last slide is unknown
    (index 4), the bag holds one tile of each kind, and the hint is the
    value of the last cell. *)
#[global] Instance grid_place : BoardPlace grid := {|
  board_last b := 4;
  board_bag b t := 1%nat;
  board_hint b := nth 15 b 0
|}.

Section Address.
Context {board : Type} `{!BoardOps board}.

Lemma lor_shiftl_disjoint (a c n : Z) :
  0 ≤ n → 0 ≤ a < 2 ^ n → Z.lor a (Z.shiftl c n) = a + Z.shiftl c n.
Proof.
  intros Hn Ha.
  assert (Hland : Z.land a (Z.shiftl c n) = 0).
  { apply Z.bits_inj'. intros i Hi.
    rewrite Z.land_spec, Z.bits_0.
    destruct (Z.lt_ge_cases i n) as [Hlt | Hge].
    - rewrite Z.shiftl_spec_low by lia. apply andb_false_r.
    - destruct (Z.eq_dec a 0) as [-> | Hnz].
      + rewrite Z.bits_0. reflexivity.
      + rewrite (Z.bits_above_log2 a i); [reflexivity | lia |].
        apply Z.log2_lt_pow2; [lia |].
        eapply Z.lt_le_trans; [apply Ha |].
        apply Z.pow_le_mono_r; lia. }
  rewrite <- Z.lxor_lor by exact Hland.
  symmetry. apply Z.add_nocarry_lxor. exact Hland.
Qed.

Lemma shiftl_nibble_bound (c j : Z) :
  0 ≤ j → 0 ≤ c < 16 →
  0 ≤ Z.shiftl c (4 * j) ∧ Z.shiftl c (4 * j) + 2 ^ (4 * j) ≤ 2 ^ (4 * (j + 1)).
Proof.
  intros Hj Hc. rewrite Z.shiftl_mul_pow2 by lia.
  replace (4 * (j + 1)) with (4 * j + 4) by lia.
  rewrite Z.pow_add_r by lia.
  assert (0 < 2 ^ (4 * j)) by (apply Z.pow_pos_nonneg; lia).
  change (2 ^ 4) with 16. nia.
Qed.

(** The loop run up to [k] extends the loop run up to [k-1] by one nibble. *)
Lemma tuple_address_S (fb : board) (tup : list Z) (k : nat) :
  tuple_address fb tup (S k) =
  Z.lor (tuple_address fb tup k)
        (Z.shiftl (cell_at fb (nth k tup 0)) (4 * Z.of_nat k)).
Proof.
  unfold tuple_address. rewrite seq_S, foldl_app. reflexivity.
Qed.

Lemma nibble_sum_app (fb : board) (j0 : Z) (l1 l2 : list Z) :
  nibble_sum fb j0 (l1 ++ l2) =
  nibble_sum fb j0 l1 + nibble_sum fb (j0 + Z.of_nat (length l1)) l2.
Proof.
  revert j0. induction l1 as [| p l1 IH]; intros j0; simpl nibble_sum.
  - simpl length. rewrite Z.add_0_r. reflexivity.
  - rewrite IH. cbn [length].
    replace (j0 + 1 + Z.of_nat (length l1)) with (j0 + Z.of_nat (S (length l1)))
      by lia.
    lia.
Qed.

Lemma tuple_address_prefix (fb : board) (tup : list Z) (k : nat) :
  Forall (λ p, 0 ≤ cell_at fb p < 16) tup →
  (k ≤ length tup)%nat →
  tuple_address fb tup k = nibble_sum fb 0 (take k tup) ∧
  0 ≤ tuple_address fb tup k < 2 ^ (4 * Z.of_nat k).
Proof.
  intros Hcells. induction k as [| k IH]; intros Hk.
  - rewrite take_0. cbn. lia.
  - destruct IH as [IHeq IHbound]; [lia |].
    rewrite tuple_address_S.
    assert (Hnth : tup !! k = Some (nth k tup 0)).
    { destruct (lookup_lt_is_Some_2 tup k ltac:(lia)) as [x Hx].
      rewrite Hx. f_equal. symmetry. eapply nth_lookup_Some. exact Hx. }
    pose proof (shiftl_nibble_bound (cell_at fb (nth k tup 0)) (Z.of_nat k)
                  ltac:(lia) (proj1 (Forall_lookup _ _) Hcells _ _ Hnth))
      as [Hlo Hhi].
    rewrite lor_shiftl_disjoint by lia.
    rewrite (take_S_r _ _ _ Hnth), nibble_sum_app.
    rewrite length_take, Nat.min_l by lia.
    simpl nibble_sum. rewrite <- IHeq.
    replace (Z.of_nat (S k)) with (Z.of_nat k + 1) by lia.
    rewrite Z.add_0_l, Z.add_0_r. split; lia.
Qed.

End Address.

(** ** Loops *)

Lemma for_each_app {A S : Type} (body : S → A → option S) (l1 l2 : list A)
  (s : S) :
  for_each body (l1 ++ l2) s = (for_each body l1 s ≫= for_each body l2).
Proof.
  revert s. induction l1 as [| x l1 IH]; intros s; simpl; [reflexivity |].
  destruct (body s x) as [s' |]; simpl; [apply IH | reflexivity].
Qed.

Lemma for_each_ext {A S : Type} (f g : S → A → option S) (l : list A) (s : S) :
  (∀ s x, f s x = g s x) → for_each f l s = for_each g l s.
Proof.
  intros Hfg. revert s. induction l as [| x l IH]; intros s; simpl;
    [reflexivity |].
  rewrite Hfg. destruct (g s x); simpl; [apply IH | reflexivity].
Qed.

(** A loop whose body is itself a loop over [k x] is one loop over the
    concatenation. *)
Lemma for_each_join {A B S : Type} (h : S → B → option S) (k : A → list B)
  (l : list A) (s : S) :
  for_each (λ s x, for_each h (k x) s) l s = for_each h (mjoin (map k l)) s.
Proof.
  revert s. induction l as [| x l IH]; intros s; [reflexivity |].
  cbn [map mjoin list_join for_each]. rewrite for_each_app.
  destruct (for_each h (k x) s); simpl; [apply IH | reflexivity].
Qed.

(** ** Value estimator and updater walk the same entries *)

Section Entries.
Context {board num : Type} `{!BoardOps board, !NumOps num}.

Lemma entries_add_app (net : list (weight num)) (es1 es2 : list (nat * Z))
  (d : num) :
  entries_add net (es1 ++ es2) d =
  (entries_add net es1 d ≫= λ net', entries_add net' es2 d).
Proof. apply for_each_app. Qed.

Lemma entries_sum_app (net : list (weight num)) (es1 es2 : list (nat * Z))
  (acc : num) :
  entries_sum net (es1 ++ es2) acc =
  (entries_sum net es1 acc ≫= entries_sum net es2).
Proof. apply for_each_app. Qed.

Lemma six_update_tuples_entries (fb : board) (base : nat) (d : num)
  (net : list (weight num)) :
  six_tuple_agent.update_tuples fb base d net =
  entries_add net (variant_entries fb base) d.
Proof. reflexivity. Qed.

Lemma six_update_rotations_entries (fb : board) (base : nat) (d : num)
  (net : list (weight num)) :
  six_tuple_agent.update_rotations base d (fb, net) =
  (entries_add net (rotation_entries fb base) d
   ≫= λ net',
      Some (rotate_clockwise (rotate_clockwise (rotate_clockwise fb)), net')).
Proof.
  unfold six_tuple_agent.update_rotations, rotation_entries.
  cbn [seq for_each fst snd Nat.mul Nat.add].
  rewrite six_update_tuples_entries, entries_add_app.
  destruct (entries_add net _ d) as [n1 |]; [| reflexivity].
  cbn [mbind option_bind fst snd].
  rewrite six_update_tuples_entries, entries_add_app.
  destruct (entries_add n1 _ d) as [n2 |]; [| reflexivity].
  cbn [mbind option_bind fst snd].
  rewrite six_update_tuples_entries.
  destruct (entries_add n2 _ d) as [n3 |]; reflexivity.
Qed.

Lemma six_active_entries_blocks (b : board) :
  six_active_entries b =
  variant_entries b 0 ++ rotation_entries b 0
  ++ variant_entries (reflect_horizontal b) 16
  ++ rotation_entries (reflect_horizontal b) 16.
Proof. reflexivity. Qed.

Lemma six_update_net_entries (net : list (weight num)) (b : board) (d : num) :
  six_tuple_agent.update_net net b d = entries_add net (six_active_entries b) d.
Proof.
  unfold six_tuple_agent.update_net.
  rewrite six_active_entries_blocks, entries_add_app.
  rewrite six_update_tuples_entries.
  destruct (entries_add net (variant_entries b 0) d) as [n1 |];
    [| reflexivity].
  cbn [mbind option_bind].
  rewrite six_update_rotations_entries, entries_add_app.
  destruct (entries_add n1 _ d) as [n2 |]; [| reflexivity].
  cbn [mbind option_bind fst snd].
  rewrite six_update_tuples_entries, entries_add_app.
  destruct (entries_add n2 _ d) as [n3 |]; [| reflexivity].
  cbn [mbind option_bind].
  rewrite six_update_rotations_entries.
  destruct (entries_add n3 _ d) as [n4 |]; reflexivity.
Qed.

Lemma six_value_tuples_entries (net : list (weight num)) (fb : board)
  (base : nat) (acc : num) :
  six_tuple_agent.value_tuples net fb base acc =
  entries_sum net (variant_entries fb base) acc.
Proof. reflexivity. Qed.

Lemma six_value_rotations_entries (net : list (weight num)) (fb : board)
  (base : nat) (acc : num) :
  six_tuple_agent.value_rotations net base (fb, acc) =
  (entries_sum net (rotation_entries fb base) acc
   ≫= λ v,
      Some (rotate_clockwise (rotate_clockwise (rotate_clockwise fb)), v)).
Proof.
  unfold six_tuple_agent.value_rotations, rotation_entries.
  cbn [seq for_each fst snd Nat.mul Nat.add].
  rewrite six_value_tuples_entries, entries_sum_app.
  destruct (entries_sum net _ acc) as [v1 |]; [| reflexivity].
  cbn [mbind option_bind fst snd].
  rewrite six_value_tuples_entries, entries_sum_app.
  destruct (entries_sum net _ v1) as [v2 |]; [| reflexivity].
  cbn [mbind option_bind fst snd].
  rewrite six_value_tuples_entries.
  destruct (entries_sum net _ v2) as [v3 |]; reflexivity.
Qed.

Lemma six_value_entries (net : list (weight num)) (b : board) :
  six_tuple_agent.calculate_state_value net b =
  entries_sum net (six_active_entries b) (num_of_Z 0).
Proof.
  unfold six_tuple_agent.calculate_state_value.
  rewrite six_active_entries_blocks, entries_sum_app.
  rewrite six_value_tuples_entries.
  destruct (entries_sum net (variant_entries b 0) _) as [v1 |];
    [| reflexivity].
  cbn [mbind option_bind].
  rewrite six_value_rotations_entries, entries_sum_app.
  destruct (entries_sum net _ v1) as [v2 |]; [| reflexivity].
  cbn [mbind option_bind fst snd].
  rewrite six_value_tuples_entries, entries_sum_app.
  destruct (entries_sum net _ v2) as [v3 |]; [| reflexivity].
  cbn [mbind option_bind].
  rewrite six_value_rotations_entries.
  destruct (entries_sum net _ v3) as [v4 |]; reflexivity.
Qed.

Lemma four_update_net_body_entries (b : board) (d : num)
  (net : list (weight num)) (i : nat) :
  four_tuple_agent.update_net_body b d net i =
  entries_add net (four_tuple_entries b i) d.
Proof.
  unfold four_tuple_agent.update_net_body, entries_add, four_tuple_entries.
  cbn [for_each fst snd]. rewrite Z.add_0_r.
  destruct (net_add net i _ d) as [n1 |]; [| reflexivity].
  cbn [mbind option_bind].
  destruct (net_add n1 _ _ d); reflexivity.
Qed.

Lemma four_update_net_entries (net : list (weight num)) (b : board) (d : num) :
  four_tuple_agent.update_net net b d =
  entries_add net (four_active_entries b) d.
Proof.
  unfold four_tuple_agent.update_net, four_active_entries.
  rewrite (for_each_ext _ _ _ _ (four_update_net_body_entries b d)).
  apply (for_each_join (λ net e, net_add net e.1 e.2 d)).
Qed.

Lemma four_value_body_entries (net : list (weight num)) (b : board)
  (acc : num) (i : nat) :
  four_tuple_agent.calculate_state_value_body net b acc i =
  entries_sum net (four_tuple_entries b i) acc.
Proof.
  unfold four_tuple_agent.calculate_state_value_body, entries_sum,
    four_tuple_entries.
  cbn [for_each fst snd]. rewrite Z.add_0_r, (Nat.add_comm 4 i).
  destruct (net_get net i _) as [w1 |]; [| reflexivity].
  cbn [mbind option_bind].
  destruct (net_get net _ _); reflexivity.
Qed.

Lemma four_value_entries (net : list (weight num)) (b : board) :
  four_tuple_agent.calculate_state_value net b =
  entries_sum net (four_active_entries b) (num_of_Z 0).
Proof.
  unfold four_tuple_agent.calculate_state_value, four_active_entries.
  rewrite (for_each_ext _ _ _ _ (four_value_body_entries net b)).
  apply (for_each_join (λ acc e, net_get net e.1 e.2 ≫= λ w, Some (nadd acc w))).
Qed.

End Entries.

(** ** Reading the table store after an update *)

Section Store.
Context {num : Type} `{!NumOps num}.

Lemma net_add_Some (net : list (weight num)) (s : nat) (idx : Z) (d v : num) :
  net_get net s idx = Some v → is_Some (net_add net s idx d).
Proof.
  unfold net_get, net_add, weight_add. intros Hget.
  destruct (net !! s) as [w |]; [| discriminate].
  cbn [mbind option_bind] in *. rewrite Hget. cbn. eauto.
Qed.

Lemma net_get_add_eq (net net' : list (weight num)) (s : nat) (idx : Z)
  (d v : num) :
  net_get net s idx = Some v → net_add net s idx d = Some net' →
  net_get net' s idx = Some (num_to_entry (nadd v d)).
Proof.
  unfold net_get, net_add, weight_add. intros Hget Hadd.
  destruct (net !! s) as [w |] eqn:Hw; [| discriminate].
  cbn [mbind option_bind] in *. rewrite Hget in Hadd.
  cbn [mbind option_bind] in Hadd. injection Hadd as <-.
  rewrite list_lookup_insert_eq by (eapply lookup_lt_Some; eassumption).
  cbn [mbind option_bind]. unfold weight_get in *. cbn [weight_size weight_value].
  case_bool_decide; [| discriminate].
  rewrite lookup_insert_eq. reflexivity.
Qed.

Lemma net_get_add_ne (net net' : list (weight num)) (s s' : nat) (idx idx' : Z)
  (d : num) :
  s ≠ s' → net_add net s idx d = Some net' →
  net_get net' s' idx' = net_get net s' idx'.
Proof.
  unfold net_get, net_add. intros Hne Hadd.
  destruct (net !! s) as [w |]; [| discriminate].
  cbn [mbind option_bind] in Hadd.
  destruct (weight_add w idx d) as [w' |]; [| discriminate].
  injection Hadd as <-.
  rewrite list_lookup_insert_ne by exact Hne. reflexivity.
Qed.

Lemma entries_sum_cons (net : list (weight num)) (e : nat * Z)
  (es : list (nat * Z)) (acc : num) :
  entries_sum net (e :: es) acc =
  (net_get net e.1 e.2 ≫= λ w, entries_sum net es (nadd acc w)).
Proof.
  unfold entries_sum. cbn [for_each].
  destruct (net_get net e.1 e.2); reflexivity.
Qed.

Lemma entries_sum_add_ne (net net' : list (weight num)) (s : nat) (idx : Z)
  (d : num) (es : list (nat * Z)) (acc : num) :
  s ∉ es.*1 → net_add net s idx d = Some net' →
  entries_sum net' es acc = entries_sum net es acc.
Proof.
  intros Hs Hadd. revert acc.
  induction es as [| e es IH]; intros acc; [reflexivity |].
  rewrite fmap_cons, not_elem_of_cons in Hs. destruct Hs as [Hne Hs].
  rewrite !entries_sum_cons.
  rewrite (net_get_add_ne _ _ _ _ _ _ _ Hne Hadd).
  destruct (net_get net e.1 e.2); cbn [mbind option_bind];
    [apply IH; exact Hs | reflexivity].
Qed.

Lemma net_get_entries_add_ne (net net' : list (weight num)) (s : nat) (idx : Z)
  (d : num) (es : list (nat * Z)) :
  s ∉ es.*1 → entries_add net es d = Some net' →
  net_get net' s idx = net_get net s idx.
Proof.
  revert net. induction es as [| e es IH]; intros net Hs Hadd.
  - injection Hadd as <-. reflexivity.
  - rewrite fmap_cons, not_elem_of_cons in Hs. destruct Hs as [Hne Hs].
    unfold entries_add in Hadd. cbn [for_each] in Hadd.
    destruct (net_add net e.1 e.2 d) as [n1 |] eqn:Hn1; [| discriminate].
    cbn [mbind option_bind] in Hadd.
    rewrite (IH n1 Hs Hadd).
    eapply net_get_add_ne; [| exact Hn1]. congruence.
Qed.

(** After adding [d] to entries in pairwise distinct shards, each of them
    holds its former value plus [d] as the entry type holds it, whatever the
    arithmetic. *)
Lemma entries_add_get (net net' : list (weight num)) (es : list (nat * Z))
  (d w : num) (e : nat * Z) :
  NoDup es.*1 → e ∈ es →
  entries_add net es d = Some net' →
  net_get net e.1 e.2 = Some w →
  net_get net' e.1 e.2 = Some (num_to_entry (nadd w d)).
Proof.
  revert net. induction es as [| e0 es IH]; intros net Hnd Hin Hadd Hw.
  - apply elem_of_nil in Hin. contradiction.
  - rewrite fmap_cons in Hnd. apply NoDup_cons in Hnd as [Hnotin Hnd].
    unfold entries_add in Hadd. cbn [for_each] in Hadd.
    destruct (net_add net e0.1 e0.2 d) as [n1 |] eqn:Hn1; [| discriminate].
    cbn [mbind option_bind] in Hadd.
    apply elem_of_cons in Hin as [-> | Hin].
    + rewrite (net_get_entries_add_ne _ _ _ _ _ _ Hnotin Hadd).
      eapply net_get_add_eq; eassumption.
    + apply (IH n1 Hnd Hin Hadd).
      rewrite <- Hw. eapply net_get_add_ne; [| exact Hn1].
      intros Heq. apply Hnotin. rewrite Heq.
      apply list_elem_of_fmap. exists e. split; [reflexivity | exact Hin].
Qed.

Lemma entries_sum_values (net : list (weight num)) (es : list (nat * Z))
  (acc : num) :
  entries_sum net es acc = foldl nadd acc <$> entries_values net es.
Proof.
  revert acc. induction es as [| e es IH]; intros acc; [reflexivity |].
  rewrite entries_sum_cons. cbn [entries_values].
  destruct (net_get net e.1 e.2) as [w |]; cbn [mbind option_bind];
    [| reflexivity].
  rewrite IH. destruct (entries_values net es); reflexivity.
Qed.

(** After adding [d] to entries in pairwise distinct shards, the entries hold
    their former values plus [d], each as the entry type holds it. *)
Lemma entries_add_values (net : list (weight num)) (es : list (nat * Z))
  (d : num) (ws : list num) :
  NoDup es.*1 →
  entries_values net es = Some ws →
  ∃ net', entries_add net es d = Some net'
    ∧ entries_values net' es = Some ((λ w, num_to_entry (nadd w d)) <$> ws).
Proof.
  revert net ws. induction es as [| e es IH]; intros net ws Hnd Hws.
  - injection Hws as <-. exists net. split; reflexivity.
  - rewrite fmap_cons in Hnd. apply NoDup_cons in Hnd as [Hnotin Hnd].
    cbn [entries_values] in Hws.
    destruct (net_get net e.1 e.2) as [w |] eqn:Hw; [| discriminate].
    cbn [mbind option_bind] in Hws.
    destruct (entries_values net es) as [ws' |] eqn:Hws'; [| discriminate].
    injection Hws as <-.
    destruct (net_add_Some net e.1 e.2 d w Hw) as [n1 Hn1].
    assert (Hsame : entries_values n1 es = Some ws').
    { rewrite <- Hws'. clear -Hnotin Hn1.
      induction es as [| e' es IH]; [reflexivity |].
      rewrite fmap_cons, not_elem_of_cons in Hnotin.
      destruct Hnotin as [Hne Hnotin]. cbn [entries_values].
      rewrite (net_get_add_ne _ _ _ _ _ _ _ Hne Hn1), (IH Hnotin).
      reflexivity. }
    destruct (IH n1 ws' Hnd Hsame) as (net' & Hadd & Hvals).
    exists net'. split.
    + unfold entries_add. cbn [for_each]. rewrite Hn1. exact Hadd.
    + cbn [entries_values].
      rewrite (net_get_entries_add_ne _ _ _ _ _ _ Hnotin Hadd).
      rewrite (net_get_add_eq _ _ _ _ _ _ Hw Hn1).
      cbn [mbind option_bind]. rewrite Hvals. reflexivity.
Qed.

Context `{!NumExact num}.

Lemma nadd_0_r (x : num) : nadd x (num_of_Z 0) = x.
Proof. rewrite nadd_comm. apply nadd_0_l. Qed.

Lemma entries_sum_shift (net : list (weight num)) (es : list (nat * Z))
  (acc u : num) :
  entries_sum net es (nadd acc u) = (λ v, nadd v u) <$> entries_sum net es acc.
Proof.
  revert acc. induction es as [| e es IH]; intros acc; [reflexivity |].
  rewrite !entries_sum_cons.
  destruct (net_get net e.1 e.2) as [w |]; cbn [mbind option_bind];
    [| reflexivity].
  rewrite <- IH. f_equal.
  rewrite <- !nadd_assoc. f_equal. apply nadd_comm.
Qed.

(** Adding [d] to entries that lie in pairwise distinct shards raises their
    sum by [length es * d]. *)
Lemma entries_add_sum (net : list (weight num)) (es : list (nat * Z))
  (d acc v : num) :
  NoDup es.*1 →
  entries_sum net es acc = Some v →
  ∃ net', entries_add net es d = Some net' ∧
    entries_sum net' es acc =
    Some (nadd v (nmul (num_of_Z (Z.of_nat (length es))) d)).
Proof.
  revert net acc v. induction es as [| e es IH]; intros net acc v Hnd Hsum.
  - exists net. split; [reflexivity |].
    injection Hsum as <-. cbn [length Z.of_nat entries_sum for_each].
    rewrite nmul_0_l, nadd_0_r. reflexivity.
  - rewrite fmap_cons in Hnd. apply NoDup_cons in Hnd as [Hnotin Hnd].
    rewrite entries_sum_cons in Hsum.
    destruct (net_get net e.1 e.2) as [w |] eqn:Hw; [| discriminate].
    cbn [mbind option_bind] in Hsum.
    destruct (net_add_Some net e.1 e.2 d w Hw) as [n1 Hn1].
    rewrite <- (entries_sum_add_ne _ _ _ _ _ _ _ Hnotin Hn1) in Hsum.
    destruct (IH n1 (nadd acc w) v Hnd Hsum) as (net' & Hadd & Hsum').
    exists net'. split.
    + unfold entries_add. cbn [for_each]. rewrite Hn1. exact Hadd.
    + rewrite entries_sum_cons.
      rewrite (net_get_entries_add_ne _ _ _ _ _ _ Hnotin Hadd).
      rewrite (net_get_add_eq _ _ _ _ _ _ Hw Hn1).
      cbn [mbind option_bind].
      rewrite num_to_entry_exact, nadd_assoc, entries_sum_shift, Hsum'. cbn [fmap option_fmap option_map].
      f_equal. rewrite <- nadd_assoc. f_equal.
      cbn [length]. rewrite Nat2Z.inj_succ, <- Z.add_1_r.
      symmetry. apply nmul_succ_l. lia.
Qed.

End Store.

Example grid_rotate_example :
  grid_rotate_clockwise [1;2;3;4; 5;6;7;8; 9;10;11;12; 13;14;15;16]
  = [13;9;5;1; 14;10;6;2; 15;11;7;3; 16;12;8;4]
  ∧ grid_reflect_horizontal [1;2;3;4; 5;6;7;8; 9;10;11;12; 13;14;15;16]
  = [4;3;2;1; 8;7;6;5; 12;11;10;9; 16;15;14;13].
Proof. split; reflexivity. Qed.

Example decimal_value_example :
  (this <$> decimal_value "0.5") = Some (1 # 2)%Q
  ∧ (this <$> decimal_value "-12.25") = Some (-49 # 4)%Q
  ∧ decimal_value "x" = None.
Proof. vm_compute. auto. Qed.

(** ** The loop of [take_action] *)

Section Selector.
Context {board num : Type} `{!BoardOps board, !NumOps num}.

Lemma four_take_action_body_common (net : list (weight num)) (b : board)
  (cur : best board num) (op : Z) :
  four_tuple_agent.take_action_body net b cur op =
  take_action_body_common (four_tuple_agent.calculate_state_value net) false
    b cur op.
Proof.
  unfold four_tuple_agent.take_action_body, take_action_body_common.
  destruct (slide b op) as [after reward]. reflexivity.
Qed.

Lemma six_take_action_body_common (net : list (weight num)) (b : board)
  (cur : best board num) (op : Z) :
  six_tuple_agent.take_action_body net b cur op =
  take_action_body_common (six_tuple_agent.calculate_state_value net) true
    b cur op.
Proof.
  unfold six_tuple_agent.take_action_body, take_action_body_common.
  destruct (slide b op) as [after reward]. reflexivity.
Qed.

Variable calc : board → option num.
Variable keeps_raw : bool.
Variable b : board.

Lemma take_action_body_step (cur cur' : best board num) (op : Z) :
  take_action_body_common calc keeps_raw b cur op = Some cur' →
  cur' = cur
  ∨ (best_action cur' = op ∧ adopted calc keeps_raw b cur cur').
Proof.
  unfold take_action_body_common, adopted. intros Hstep.
  case_bool_decide as Hr; [injection Hstep as <-; left; reflexivity |].
  destruct (calc (slide b op).1) as [v |] eqn:Hv; [| discriminate].
  cbn [mbind option_bind] in Hstep.
  destruct (_ || _); injection Hstep as <-; [right | left; reflexivity].
  cbn [best_action best_after best_reward best_after_state_value
       best_episode_after_state_value].
  split; [reflexivity |]. split; [apply surjective_pairing |].
  split; [exact Hr |]. exists v. auto.
Qed.

Lemma take_action_loop_adopted (ops : list Z) (cur0 cur : best board num) :
  for_each (take_action_body_common calc keeps_raw b) ops cur0 = Some cur →
  cur = cur0 ∨ (best_action cur ∈ ops ∧ adopted calc keeps_raw b cur0 cur).
Proof.
  revert cur0. induction ops as [| op ops IH]; intros cur0 Hloop.
  - injection Hloop as <-. left. reflexivity.
  - cbn [for_each] in Hloop.
    destruct (take_action_body_common calc keeps_raw b cur0 op) as [cur1 |]
      eqn:Hstep; [| discriminate].
    cbn [mbind option_bind] in Hloop.
    destruct (IH cur1 Hloop) as [-> | [Hin Had]];
      destruct (take_action_body_step _ _ _ Hstep) as [-> | [Hop Had1]].
    + left. reflexivity.
    + right. split; [rewrite Hop; apply list_elem_of_here | exact Had1].
    + right. split; [apply list_elem_of_further, Hin | exact Had].
    + right. split; [apply list_elem_of_further, Hin |].
      destruct Had as (Hs & Hr & v & Hv & Hasv & Hraw).
      split; [exact Hs |]. split; [exact Hr |]. exists v.
      split; [exact Hv |]. split; [exact Hasv |].
      rewrite Hraw. destruct keeps_raw; [reflexivity |].
      destruct Had1 as (_ & _ & v1 & _ & _ & Hraw1). exact Hraw1.
Qed.

(** Illegal directions leave the locals alone. *)
Lemma take_action_body_illegal (cur : best board num) (op : Z) :
  ¬ legal b op → take_action_body_common calc keeps_raw b cur op = Some cur.
Proof.
  intros Hill. unfold take_action_body_common.
  rewrite bool_decide_eq_true_2; [reflexivity |].
  destruct (decide ((slide b op).2 = -1)) as [Heq | Hne]; [exact Heq |].
  exfalso. exact (Hill Hne).
Qed.

Lemma take_action_loop_illegal (ops : list Z) (cur0 : best board num) :
  (∀ op, op ∈ ops → ¬ legal b op) →
  for_each (take_action_body_common calc keeps_raw b) ops cur0 = Some cur0.
Proof.
  induction ops as [| op ops IH]; intros Hill; [reflexivity |].
  cbn [for_each].
  rewrite take_action_body_illegal by apply Hill, list_elem_of_here.
  cbn [mbind option_bind]. apply IH. intros op' Hin.
  apply Hill, list_elem_of_further, Hin.
Qed.




Context `{!NumOrder num}.




End Selector.

(** ** [take_action] as a whole *)

Section TakeAction.
Context {board num : Type} `{!BoardOps board, !NumOps num}.

Lemma four_take_action_loop (st : agent_state board num) (b : board) :
  for_each (four_tuple_agent.take_action_body (net st) b) opcode best_init
  = for_each
      (take_action_body_common (four_tuple_agent.calculate_state_value (net st))
         false b) opcode best_init.
Proof. apply for_each_ext, four_take_action_body_common. Qed.

Lemma six_take_action_loop (st : agent_state board num) (b : board) :
  for_each (six_tuple_agent.take_action_body (net st) b) opcode best_init
  = for_each
      (take_action_body_common (six_tuple_agent.calculate_state_value (net st))
         true b) opcode best_init.
Proof. apply for_each_ext, six_take_action_body_common. Qed.

(** An accepted move of the four-tuple agent: the trace grows by the
    afterstate, its reward, and the conversion to [int] of value plus
    reward. *)
Lemma four_take_action_accepted (st st' : agent_state board num) (b : board)
  (op : Z) :
  four_tuple_agent.take_action st b = Some (st', action_slide op) →
  op ∈ opcode ∧ legal b op
  ∧ ∃ v, four_tuple_agent.calculate_state_value (net st) (slide b op).1 = Some v
      ∧ st' = AgentState (net st) (alpha st)
                (episode_boards st ++ [(slide b op).1])
                (episode_values st
                   ++ [num_to_int (nadd v (num_of_Z (slide b op).2))])
                (episode_rewards st ++ [(slide b op).2]).
Proof.
  unfold four_tuple_agent.take_action. fold (@best_init board num _ _).
  rewrite four_take_action_loop. intros Hta.
  destruct (for_each _ opcode best_init) as [cur |] eqn:Hloop; [| discriminate].
  cbn [mbind option_bind] in Hta.
  case_bool_decide as Hr; [| discriminate]. injection Hta as <- <-.
  destruct (take_action_loop_adopted _ _ _ _ _ _ Hloop)
    as [-> | [Hin (Hs & _ & v & Hv & Hasv & _)]]; [contradiction |].
  rewrite Hs. cbn [fst snd]. split; [exact Hin |].
  split; [unfold legal; rewrite Hs; exact Hr |].
  exists v. split; [exact Hv |]. rewrite Hasv. reflexivity.
Qed.

(** An accepted move of the six-tuple agent: the trace grows by the
    afterstate, its reward, and the conversion to [int] of the value alone. *)
Lemma six_take_action_accepted (st st' : agent_state board num) (b : board)
  (op : Z) :
  six_tuple_agent.take_action st b = Some (st', action_slide op) →
  op ∈ opcode ∧ legal b op
  ∧ ∃ v, six_tuple_agent.calculate_state_value (net st) (slide b op).1 = Some v
      ∧ st' = AgentState (net st) (alpha st)
                (episode_boards st ++ [(slide b op).1])
                (episode_values st ++ [num_to_int v])
                (episode_rewards st ++ [(slide b op).2]).
Proof.
  unfold six_tuple_agent.take_action. fold (@best_init board num _ _).
  rewrite six_take_action_loop. intros Hta.
  destruct (for_each _ opcode best_init) as [cur |] eqn:Hloop; [| discriminate].
  cbn [mbind option_bind] in Hta.
  case_bool_decide as Hr; [| discriminate]. injection Hta as <- <-.
  destruct (take_action_loop_adopted _ _ _ _ _ _ Hloop)
    as [-> | [Hin (Hs & _ & v & Hv & _ & Hraw)]]; [contradiction |].
  rewrite Hs. cbn [fst snd]. split; [exact Hin |].
  split; [unfold legal; rewrite Hs; exact Hr |].
  exists v. split; [exact Hv |]. rewrite Hraw. reflexivity.
Qed.

(** A rejection leaves the agent as it was. *)
Lemma four_take_action_rejected (st st' : agent_state board num) (b : board) :
  four_tuple_agent.take_action st b = Some (st', action_none) → st' = st.
Proof.
  unfold four_tuple_agent.take_action. intros Hta.
  destruct (for_each _ opcode _) as [cur |]; [| discriminate].
  cbn [mbind option_bind] in Hta.
  case_bool_decide; [discriminate |]. injection Hta as <-. reflexivity.
Qed.

Lemma six_take_action_rejected (st st' : agent_state board num) (b : board) :
  six_tuple_agent.take_action st b = Some (st', action_none) → st' = st.
Proof.
  unfold six_tuple_agent.take_action. intros Hta.
  destruct (for_each _ opcode _) as [cur |]; [| discriminate].
  cbn [mbind option_bind] in Hta.
  case_bool_decide; [discriminate |]. injection Hta as <-. reflexivity.
Qed.

(** With a [take_action] that grows the three sequences by one on acceptance
    and leaves them alone on rejection, [k] accepted calls grow them by [k]. *)
Lemma play_lengths
  (take_action : agent_state board num → board
                 → option (agent_state board num * action))
  (bs : list board) (st st' : agent_state board num) (k : nat) :
  (∀ st b st' op, take_action st b = Some (st', action_slide op) →
     length (episode_boards st') = S (length (episode_boards st))
     ∧ length (episode_values st') = S (length (episode_values st))
     ∧ length (episode_rewards st') = S (length (episode_rewards st))) →
  (∀ st b st', take_action st b = Some (st', action_none) → st' = st) →
  play take_action st bs = Some (st', k) →
  length (episode_boards st') = (length (episode_boards st) + k)%nat
  ∧ length (episode_values st') = (length (episode_values st) + k)%nat
  ∧ length (episode_rewards st') = (length (episode_rewards st) + k)%nat.
Proof.
  intros Hacc Hrej. revert st k.
  induction bs as [| b bs IH]; intros st k Hplay.
  - injection Hplay as <- <-. lia.
  - cbn [play] in Hplay.
    destruct (take_action st b) as [[st1 a] |] eqn:Hta; [| discriminate].
    cbn [mbind option_bind fst snd] in Hplay. destruct a as [| op].
    + apply Hrej in Hta as ->. exact (IH st k Hplay).
    + destruct (play take_action st1 bs) as [[st2 k2] |] eqn:Hrest;
        [| discriminate].
      cbn [mbind option_bind fst snd] in Hplay. injection Hplay as <- <-.
      apply Hacc in Hta as (Hb & Hv & Hr).
      destruct (IH st1 k2 Hrest) as (Hb2 & Hv2 & Hr2). lia.
Qed.

End TakeAction.

(** ** The backward pass *)

Section Backward.
Context {board num : Type} `{!NumOps num}.

Lemma for_each_ext_in {A S : Type} (f g : S → A → option S) (l : list A)
  (s : S) :
  (∀ s x, x ∈ l → f s x = g s x) → for_each f l s = for_each g l s.
Proof.
  revert s. induction l as [| x l IH]; intros s Hfg; [reflexivity |].
  cbn [for_each]. rewrite (Hfg s x) by apply list_elem_of_here.
  destruct (g s x) as [s' |]; [| reflexivity]. cbn [mbind option_bind].
  apply IH. intros s0 y Hy. apply Hfg, list_elem_of_further, Hy.
Qed.

(** A countdown [i = n-1 .. 0] that reads [l[i]] walks [l] backwards. *)
Lemma for_each_countdown {A S : Type} (f : S → A → option S) (l : list A)
  (s : S) :
  for_each (λ s i, x ← l !! i; f s x) (rev (seq 0 (length l))) s
  = for_each f (rev l) s.
Proof.
  revert s. induction l as [| x l IH] using rev_ind; intros s; [reflexivity |].
  rewrite length_app. cbn [length]. rewrite Nat.add_1_r, seq_S, !rev_app_distr.
  cbn [rev app for_each Nat.add].
  rewrite lookup_app_r, Nat.sub_diag by lia. cbn [lookup list_lookup mbind option_bind].
  destruct (f s x) as [s' |]; [| reflexivity]. cbn [mbind option_bind].
  rewrite <- IH. apply for_each_ext_in. intros s0 i Hi.
  apply list_elem_of_In, in_rev, in_seq in Hi.
  rewrite lookup_app_l by lia. reflexivity.
Qed.

Lemma td_updates_length (a : num) (boards : list board) (values rewards : list Z) :
  length values = length boards → length rewards = length boards →
  length (td_updates a boards (values ++ [0]) (rewards ++ [0])) = length boards.
Proof.
  intros Hv Hr. unfold td_updates.
  assert (Htail : ∀ l : list Z, length (tail (l ++ [0])) = length l).
  { intros [| x l]; cbn [app tail length]; [reflexivity |].
    rewrite length_app. cbn [length]. lia. }
  rewrite !length_zip_with, !Htail, !length_app.
  cbn [length]. lia.
Qed.

Lemma td_updates_lookup (a : num) (boards : list board) (values rewards : list Z)
  (i : nat) :
  td_updates a boards values rewards !! i
  = (b ← boards !! i; v0 ← values !! i; v1 ← values !! (i + 1)%nat;
     r1 ← rewards !! (i + 1)%nat;
     Some (b, nmul a (num_of_Z (v1 + r1 - v0)))).
Proof.
  unfold td_updates. rewrite lookup_zip_with.
  destruct (boards !! i) as [b |]; [| reflexivity]. cbn [mbind option_bind].
  rewrite !lookup_zip_with, !lookup_tail.
  replace (S i) with (i + 1)%nat by lia.
  destruct (values !! i) as [v0 |]; [| reflexivity]. cbn [mbind option_bind].
  destruct (values !! (i + 1)%nat) as [v1 |]; [| reflexivity].
  cbn [mbind option_bind].
  destruct (rewards !! (i + 1)%nat) as [r1 |]; reflexivity.
Qed.

Lemma close_episode_body_td
  (update_net : list (weight num) → board → num → option (list (weight num)))
  (a : num) (boards : list board) (values rewards : list Z)
  (nt : list (weight num)) (i : nat) :
  close_episode_body update_net a boards values rewards nt i
  = (u ← td_updates a boards values rewards !! i; update_net nt u.1 u.2).
Proof.
  unfold close_episode_body. rewrite td_updates_lookup.
  destruct (values !! (i + 1)%nat) as [v1 |];
    destruct (rewards !! (i + 1)%nat) as [r1 |];
    destruct (values !! i) as [v0 |];
    destruct (boards !! i) as [b |]; reflexivity.
Qed.

Lemma close_episode_loop_spec
  (update_net : list (weight num) → board → num → option (list (weight num)))
  (a : num) (boards : list board) (values rewards : list Z)
  (nt : list (weight num)) :
  length values = length boards → length rewards = length boards →
  for_each (close_episode_body update_net a boards (values ++ [0])
              (rewards ++ [0]))
    (rev (seq 0 (length boards))) nt
  = for_each (λ nt u, update_net nt u.1 u.2)
      (rev (td_updates a boards (values ++ [0]) (rewards ++ [0]))) nt.
Proof.
  intros Hv Hr.
  rewrite (for_each_ext _ _ _ _
             (close_episode_body_td update_net a boards (values ++ [0])
                (rewards ++ [0]))).
  rewrite <- (td_updates_length a boards values rewards Hv Hr) at 1.
  apply (for_each_countdown (λ nt u, update_net nt u.1 u.2)).
Qed.

End Backward.

(** ** Construction and weight files *)

Section Files.
Context {board num : Type} `{!NumOps num, !WeightIO num}.

Lemma read_each_length (olds : list (weight num)) (input : list byte) :
  length (read_each olds input).1 = length olds.
Proof.
  revert input. induction olds as [| w olds IH]; intros input; [reflexivity |].
  cbn [read_each fst length]. rewrite IH. reflexivity.
Qed.

(** Shard [i] is read from the input that the shards before it have left. *)
Lemma read_each_lookup (olds : list (weight num)) (input : list byte) (i : nat) :
  (read_each olds input).1 !! i
  = (λ w, (weight_read w (input_after olds i input)).1) <$> olds !! i.
Proof.
  revert input i. induction olds as [| w olds IH]; intros input i.
  - destruct i; reflexivity.
  - destruct i as [| i]; [reflexivity |].
    cbn [read_each fst lookup list_lookup input_after]. apply IH.
Qed.

Lemma foldl_write_shards (out : list byte) (nt : list (weight num)) :
  foldl (λ out w, out ++ weight_write w) out nt
  = out ++ mjoin (weight_write <$> nt).
Proof.
  revert out. induction nt as [| w nt IH]; intros out.
  - cbn. rewrite app_nil_r. reflexivity.
  - cbn [foldl fmap list_fmap mjoin list_join]. rewrite IH, app_assoc.
    reflexivity.
Qed.

(** What [weight_agent]'s constructor leaves in [meta] and [alpha]. *)
Lemma weight_agent_new_alpha (fs : filesystem) (args : string)
  (a : agent_object board num) :
  weight_agent_new fs args = Done a →
  meta a = agent_new args
  ∧ match agent_new args !! "alpha" with
    | Some value => num_of_string value = Some (alpha (state a))
    | None => alpha (state a) = num_lit (1 # 80)
    end.
Proof.
  unfold weight_agent_new. intros Hnew.
  destruct (match agent_new args !! "init" with
            | Some info => _
            | None => _
            end) as [nt0 | | |]; try discriminate.
  cbn [mbind outcome_bind] in Hnew.
  destruct (match agent_new args !! "load" with
            | Some path => _
            | None => _
            end) as [nt | | |]; try discriminate.
  cbn [mbind outcome_bind] in Hnew.
  destruct (agent_new args !! "alpha") as [value |].
  - destruct (num_of_string value) as [x |]; [| discriminate].
    cbn [mbind outcome_bind] in Hnew. injection Hnew as <-. auto.
  - cbn [mbind outcome_bind] in Hnew. injection Hnew as <-. auto.
Qed.

End Files.

(** ** Exact rationals satisfy the laws *)

Lemma Q2Qc_inject_Z_succ (n : Z) :
  Q2Qc (inject_Z (n + 1)) = (Q2Qc (inject_Z n) + 1)%Qc.
Proof.
  apply Qc_is_canon. unfold Qcplus, Q2Qc. cbn [this].
  rewrite !Qred_correct, inject_Z_plus. reflexivity.
Qed.

#[global] Instance Qc_exact : NumExact Qc.
Proof.
  split; cbn [nadd nmul num_of_Z num_to_entry Qc_num].
  - intros x. reflexivity.
  - intros x y. apply Qcplus_comm.
  - intros x y z. apply Qcplus_assoc.
  - intros x. apply Qcplus_0_l.
  - intros x. apply Qcmult_0_l.
  - intros n x _. rewrite Q2Qc_inject_Z_succ. ring.
Qed.


(** The example board engine reads cells in 0..15 when the grid holds such
    values. *)
Lemma grid_cells_in_range (script : list (grid * Z * (grid * Z))) (b : grid) :
  Forall (λ c, 0 ≤ c < 16) b →
  ∀ p, 0 ≤ @cell_at grid (grid_board script) b p < 16.
Proof.
  intros Hb p. cbn [cell_at grid_board].
  destruct (nth_in_or_default (Z.to_nat p) b 0) as [Hin | ->]; [| lia].
  rewrite Forall_forall in Hb. apply Hb, list_elem_of_In, Hin.
Qed.

(** ** Claims *)

Section Claims.
Context {board num : Type} `{!BoardOps board, !NumOps num}.

(** C8. On a board whose 16 cells all hold values in 0..15, the address that
    the packing loop computes for a tuple of [k] positions is the sum of the
    cell values shifted left by 4*j, and lies below 2^(4*k); the same holds
    for [net_index] (k = 4) and for the four tuples of the six-tuple agent
    (k = 6, address below 2^24). *)
Theorem tuple_address_packs_nibbles (fb : board) (tup : list Z) :
  (∀ p, 0 ≤ p < 16 → 0 ≤ cell_at fb p < 16) →
  Forall (λ p, 0 ≤ p < 16) tup →
  (tuple_address fb tup (length tup) = nibble_sum fb 0 tup
   ∧ 0 ≤ tuple_address fb tup (length tup) < 2 ^ (4 * Z.of_nat (length tup)))
  ∧ (∀ p0 p1 p2 p3,
       0 ≤ p0 < 16 → 0 ≤ p1 < 16 → 0 ≤ p2 < 16 → 0 ≤ p3 < 16 →
       net_index (cell_at fb p0) (cell_at fb p1) (cell_at fb p2) (cell_at fb p3)
       = cell_at fb p0 + Z.shiftl (cell_at fb p1) 4 + Z.shiftl (cell_at fb p2) 8
         + Z.shiftl (cell_at fb p3) 12
       ∧ 0 ≤ net_index (cell_at fb p0) (cell_at fb p1) (cell_at fb p2)
               (cell_at fb p3) < 2 ^ 16)
  ∧ (∀ i, (i < 4)%nat →
       tuple_address fb (nth i six_tuple_agent.tuple_index []) 6
       = nibble_sum fb 0 (nth i six_tuple_agent.tuple_index [])
       ∧ 0 ≤ tuple_address fb (nth i six_tuple_agent.tuple_index []) 6 < 2 ^ 24).
Proof.
  intros Hcells Htup.
  assert (Hgen : ∀ t : list Z, Forall (λ p, 0 ≤ p < 16) t →
            tuple_address fb t (length t) = nibble_sum fb 0 t
            ∧ 0 ≤ tuple_address fb t (length t) < 2 ^ (4 * Z.of_nat (length t))).
  { intros t Ht.
    destruct (tuple_address_prefix fb t (length t)) as [Heq Hb].
    - eapply Forall_impl; [exact Ht |]. intros p Hp. apply Hcells, Hp.
    - reflexivity.
    - rewrite firstn_all in Heq. split; assumption. }
  split; [exact (Hgen tup Htup) |]. split.
  - intros p0 p1 p2 p3 H0 H1 H2 H3.
    pose proof (Hgen [p0; p1; p2; p3]) as [Heq Hb].
    { repeat constructor; lia. }
    assert (Hcode : tuple_address fb [p0; p1; p2; p3] 4
                    = net_index (cell_at fb p0) (cell_at fb p1) (cell_at fb p2)
                        (cell_at fb p3)).
    { unfold tuple_address, net_index. cbn [seq foldl nth].
      rewrite Z.lor_0_l. change (4 * Z.of_nat 0) with 0.
      rewrite Z.shiftl_0_r. reflexivity. }
    cbn [length] in Heq, Hb. rewrite Hcode in Heq, Hb.
    split; [| exact Hb].
    rewrite Heq. cbn [nibble_sum]. change (4 * 0) with 0.
    rewrite Z.shiftl_0_r. change (4 * (0 + 1)) with 4.
    change (4 * (0 + 1 + 1)) with 8. change (4 * (0 + 1 + 1 + 1)) with 12. lia.
  - intros i Hi.
    assert (Hcases : i = 0%nat ∨ i = 1%nat ∨ i = 2%nat ∨ i = 3%nat) by lia.
    destruct Hcases as [-> | [-> | [-> | ->]]];
      cbn [nth six_tuple_agent.tuple_index];
      (apply (Hgen [_; _; _; _; _; _]); repeat constructor; lia).
Qed.

(** C4 (amended). [calculate_state_value] reads, and [update_net] writes,
    the same sequence of (shard, address) pairs: for the six-tuple agent the
    8 variants in canonical order crossed with the 4 base tuples, in the
    shards 0..31; for the four-tuple agent a row and a column tuple per
    index, in 8 distinct shards.  Hence, when the value of [b] is defined,
    [update_net b d] is defined, every active entry becomes its former value
    plus [d] as the entry type holds it, and the value of [b] afterwards is
    the sum of the 32 (resp. 8) updated entries, whatever the arithmetic;
    the value rises by exactly 32*d (resp. 8*d) where the arithmetic is
    exact. *)
Theorem update_net_matches_calculate_state_value
  (net6 net4 : list (weight num)) (b : board) (d v6 v4 : num) :
  six_tuple_agent.calculate_state_value net6 b = Some v6 →
  four_tuple_agent.calculate_state_value net4 b = Some v4 →
  (∀ net : list (weight num),
     six_tuple_agent.calculate_state_value net b
     = entries_sum net (six_active_entries b) (num_of_Z 0)
     ∧ six_tuple_agent.update_net net b d
       = entries_add net (six_active_entries b) d
     ∧ four_tuple_agent.calculate_state_value net b
       = entries_sum net (four_active_entries b) (num_of_Z 0)
     ∧ four_tuple_agent.update_net net b d
       = entries_add net (four_active_entries b) d)
  ∧ (six_active_entries b).*1 = seq 0 32
  ∧ (∃ net6' ws,
       six_tuple_agent.update_net net6 b d = Some net6'
       ∧ entries_values net6 (six_active_entries b) = Some ws
       ∧ v6 = foldl nadd (num_of_Z 0) ws
       ∧ (∀ e w, e ∈ six_active_entries b →
            net_get net6 e.1 e.2 = Some w →
            net_get net6' e.1 e.2 = Some (num_to_entry (nadd w d)))
       ∧ six_tuple_agent.calculate_state_value net6' b
         = Some (foldl nadd (num_of_Z 0)
                   ((λ w, num_to_entry (nadd w d)) <$> ws))
       ∧ (NumExact num →
          six_tuple_agent.calculate_state_value net6' b
          = Some (nadd v6 (nmul (num_of_Z 32) d))))
  ∧ (four_active_entries b).*1 = [0; 4; 1; 5; 2; 6; 3; 7]%nat
  ∧ (∃ net4' ws,
       four_tuple_agent.update_net net4 b d = Some net4'
       ∧ entries_values net4 (four_active_entries b) = Some ws
       ∧ v4 = foldl nadd (num_of_Z 0) ws
       ∧ (∀ e w, e ∈ four_active_entries b →
            net_get net4 e.1 e.2 = Some w →
            net_get net4' e.1 e.2 = Some (num_to_entry (nadd w d)))
       ∧ four_tuple_agent.calculate_state_value net4' b
         = Some (foldl nadd (num_of_Z 0)
                   ((λ w, num_to_entry (nadd w d)) <$> ws))
       ∧ (NumExact num →
          four_tuple_agent.calculate_state_value net4' b
          = Some (nadd v4 (nmul (num_of_Z 8) d)))).
Proof.
  intros H6 H4.
  assert (Hgen : ∀ (nt : list (weight num)) (es : list (nat * Z)) (v : num),
            NoDup es.*1 →
            entries_sum nt es (num_of_Z 0) = Some v →
            ∃ nt' ws,
              entries_add nt es d = Some nt'
              ∧ entries_values nt es = Some ws
              ∧ v = foldl nadd (num_of_Z 0) ws
              ∧ (∀ e w, e ∈ es → net_get nt e.1 e.2 = Some w →
                   net_get nt' e.1 e.2 = Some (num_to_entry (nadd w d)))
              ∧ entries_sum nt' es (num_of_Z 0)
                = Some (foldl nadd (num_of_Z 0)
                          ((λ w, num_to_entry (nadd w d)) <$> ws))
              ∧ (NumExact num →
                 entries_sum nt' es (num_of_Z 0)
                 = Some (nadd v (nmul (num_of_Z (Z.of_nat (length es))) d)))).
  { intros nt es v Hnd Hsum.
    pose proof Hsum as Hsum0. rewrite entries_sum_values in Hsum.
    destruct (entries_values nt es) as [ws |] eqn:Hws; [| discriminate].
    injection Hsum as <-.
    destruct (entries_add_values nt es d ws Hnd Hws) as (nt' & Hadd & Hvals).
    exists nt', ws. split; [exact Hadd |]. split; [reflexivity |].
    split; [reflexivity |]. split; [| split].
    - intros e w He Hw.
      exact (entries_add_get nt nt' es d w e Hnd He Hadd Hw).
    - rewrite entries_sum_values, Hvals. reflexivity.
    - intros Hexact.
      destruct (entries_add_sum nt es d _ _ Hnd Hsum0) as (nt'' & Hadd' & Hrise).
      rewrite Hadd in Hadd'. injection Hadd' as <-. exact Hrise. }
  split; [| split; [| split; [| split]]].
  - intros net. repeat split.
    + apply six_value_entries.
    + apply six_update_net_entries.
    + apply four_value_entries.
    + apply four_update_net_entries.
  - reflexivity.
  - rewrite six_value_entries in H6.
    destruct (Hgen net6 (six_active_entries b) v6
                ltac:(apply (NoDup_seq 0 32)) H6)
      as (net' & ws & Hadd & Hws & Hv & Hget & Hsum & Hrise).
    exists net', ws. rewrite six_update_net_entries, six_value_entries.
    repeat (split; [assumption |]). exact Hrise.
  - reflexivity.
  - rewrite four_value_entries in H4.
    assert (Hnd : NoDup (four_active_entries b).*1).
    { change (NoDup [0; 4; 1; 5; 2; 6; 3; 7]%nat).
      apply (bool_decide_unpack _). vm_compute. exact I. }
    destruct (Hgen net4 (four_active_entries b) v4 Hnd H4)
      as (net' & ws & Hadd & Hws & Hv & Hget & Hsum & Hrise).
    exists net', ws. rewrite four_update_net_entries, four_value_entries.
    repeat (split; [assumption |]). exact Hrise.
Qed.

(** C7. On a board where all four slides return the sentinel -1, both
    agents return the rejection [action()] and leave the agent untouched: no
    board, reward or value is appended and the weight tables stay as they
    are. *)
Theorem take_action_rejects_without_legal_slide (st : agent_state board num)
  (b : board) :
  (∀ op, op ∈ opcode → (slide b op).2 = -1) →
  four_tuple_agent.take_action st b = Some (st, action_none)
  ∧ six_tuple_agent.take_action st b = Some (st, action_none).
Proof.
  intros Hill.
  assert (Hnone : ∀ op, op ∈ opcode → ¬ legal b op).
  { intros op Hin Hl. exact (Hl (Hill op Hin)). }
  split.
  - unfold four_tuple_agent.take_action. fold (@best_init board num _ _).
    rewrite four_take_action_loop, take_action_loop_illegal by exact Hnone.
    reflexivity.
  - unfold six_tuple_agent.take_action. fold (@best_init board num _ _).
    rewrite six_take_action_loop, take_action_loop_illegal by exact Hnone.
    reflexivity.
Qed.

(** C5. After [open_episode] and a run of [take_action] calls of which
    exactly [k] were accepted, the three trace sequences have length [k];
    once [close_episode] has run, rewards and values have length [k+1] and
    the boards still have length [k].  Both agents. *)
Theorem trace_lengths_follow_accepted_moves (st0 : agent_state board num)
  (bs : list board) :
  (∀ st k,
     play four_tuple_agent.take_action (four_tuple_agent.open_episode st0) bs
     = Some (st, k) →
     (length (episode_boards st) = k ∧ length (episode_values st) = k
      ∧ length (episode_rewards st) = k)
     ∧ ∀ st', four_tuple_agent.close_episode st = Some st' →
         length (episode_boards st') = k
         ∧ length (episode_values st') = S k
         ∧ length (episode_rewards st') = S k)
  ∧ (∀ st k,
       play six_tuple_agent.take_action (six_tuple_agent.open_episode st0) bs
       = Some (st, k) →
       (length (episode_boards st) = k ∧ length (episode_values st) = k
        ∧ length (episode_rewards st) = k)
       ∧ ∀ st', six_tuple_agent.close_episode st = Some st' →
           length (episode_boards st') = k
           ∧ length (episode_values st') = S k
           ∧ length (episode_rewards st') = S k).
Proof.
  split; intros st k Hplay.
  - apply play_lengths in Hplay as (Hb & Hv & Hr).
    + cbn [four_tuple_agent.open_episode episode_boards episode_values
           episode_rewards length Nat.add] in Hb, Hv, Hr.
      split; [auto |]. intros st' Hclose.
      unfold four_tuple_agent.close_episode in Hclose.
      destruct (for_each _ _ (net st)); [| discriminate].
      injection Hclose as <-.
      cbn [episode_boards episode_values episode_rewards].
      rewrite !length_app. cbn [length]. lia.
    + intros s b s' op Hta.
      apply four_take_action_accepted in Hta as (_ & _ & v & _ & ->).
      cbn [episode_boards episode_values episode_rewards].
      rewrite !length_app. cbn [length]. lia.
    + intros s b s'. apply four_take_action_rejected.
  - apply play_lengths in Hplay as (Hb & Hv & Hr).
    + cbn [six_tuple_agent.open_episode episode_boards episode_values
           episode_rewards length Nat.add] in Hb, Hv, Hr.
      split; [auto |]. intros st' Hclose.
      unfold six_tuple_agent.close_episode in Hclose.
      destruct (for_each _ _ (net st)); [| discriminate].
      injection Hclose as <-.
      cbn [episode_boards episode_values episode_rewards].
      rewrite !length_app. cbn [length]. lia.
    + intros s b s' op Hta.
      apply six_take_action_accepted in Hta as (_ & _ & v & _ & ->).
      cbn [episode_boards episode_values episode_rewards].
      rewrite !length_app. cbn [length]. lia.
    + intros s b s'. apply six_take_action_rejected.
Qed.

(** On the exact rationals the conversion to [int] truncates toward zero. *)
Lemma Qc_trunc_truncates (q : Qc) :
  ((0 ≤ q)%Qc →
   (inject_Z (num_to_int q) <= q)%Q ∧ (q < inject_Z (num_to_int q + 1))%Q)
  ∧ ((q ≤ 0)%Qc →
     (inject_Z (num_to_int q - 1) < q)%Q ∧ (q <= inject_Z (num_to_int q))%Q).
Proof.
  revert q.
  intros [[n d] Hcanon]. cbn [num_to_int Qc_num Qc_trunc this Qnum Qden].
  unfold Qcle, Qle, Qlt, inject_Z. cbn [this Q2Qc Qnum Qden].
  change (Qnum (Qred 0)) with 0. change (Qden (Qred 0)) with 1%positive.
  unfold Qc_trunc. cbn [this Qnum Qden].
  pose proof (Z.quot_rem' n (Z.pos d)) as Hqr.
  split; intros Hsign.
  + assert (Hn : 0 ≤ n) by lia.
    pose proof (Z.rem_bound_pos n (Z.pos d) Hn ltac:(lia)). nia.
  + assert (Hn : n ≤ 0) by lia.
    pose proof (Zquot.Zrem_lt_neg_pos n (Z.pos d) Hn ltac:(lia)). nia.
Qed.

(** The conversion of a finite [double] to [int] drops the fractional part:
    it truncates toward zero. *)
Lemma ieee_to_int_truncates (s : bool) (m : positive) (e : Z) :
  let x := S754_finite s m e in
  (s = false →
   (inject_Z (ieee_to_int x) <= ieee_value x)%Q
   ∧ (ieee_value x < inject_Z (ieee_to_int x + 1))%Q)
  ∧ (s = true →
     (inject_Z (ieee_to_int x - 1) < ieee_value x)%Q
     ∧ (ieee_value x <= inject_Z (ieee_to_int x))%Q).
Proof.
  cbn zeta. unfold ieee_to_int, ieee_value.
  case_bool_decide as He.
  - split; intros ->; unfold Qle, Qlt, inject_Z; cbn [Qnum Qden]; nia.
  - assert (Hp : 0 < 2 ^ (- e)) by (apply Z.pow_pos_nonneg; lia).
    pose proof (Z.div_mod (Z.pos m) (2 ^ (- e)) ltac:(lia)) as Hdm.
    pose proof (Z.mod_pos_bound (Z.pos m) (2 ^ (- e)) Hp) as Hmod.
    split; intros ->; unfold Qle, Qlt, inject_Z; cbn [Qnum Qden];
      rewrite Z2Pos.id by exact Hp;
      change (Z.neg m) with (- Z.pos m); nia.
Qed.

(** C10. The trace stores machine integers.  At any point of an episode, an
    accepted [take_action] appends the conversion to [int] of the
    floating-point value it computed (the afterstate value for the six-tuple
    agent, value plus reward for the four-tuple agent); and the updates of
    [close_episode] are computed from the stored integers: after two accepted
    moves the update for the first bootstraps on the integer stored for the
    second, not on the value that was computed, and the update for the last
    on the sentinel 0.  The conversion drops the fractional part, truncating
    toward zero, on the exact rationals and on IEEE doubles alike. *)
Theorem episode_values_hold_truncated_ints (st : agent_state board num)
  (b1 b2 : board) :
  length (episode_values st) = length (episode_boards st) →
  length (episode_rewards st) = length (episode_boards st) →
  let n := length (episode_boards st) in
  let updates (s : agent_state board num) :=
    td_updates (alpha s) (episode_boards s) (episode_values s ++ [0])
      (episode_rewards s ++ [0]) in
  (∀ st1 op1,
     six_tuple_agent.take_action st b1 = Some (st1, action_slide op1) →
     ∃ v1,
       six_tuple_agent.calculate_state_value (net st) (slide b1 op1).1
       = Some v1
       ∧ episode_values st1 = episode_values st ++ [num_to_int v1]
       ∧ episode_rewards st1 = episode_rewards st ++ [(slide b1 op1).2]
       ∧ six_tuple_agent.close_episode st1
         = close_episode_spec six_tuple_agent.update_net st1
       ∧ updates st1 !! n
         = Some ((slide b1 op1).1,
                 nmul (alpha st) (num_of_Z (0 + 0 - num_to_int v1)))
       ∧ ∀ st2 op2,
           six_tuple_agent.take_action st1 b2 = Some (st2, action_slide op2) →
           ∃ v2,
             six_tuple_agent.calculate_state_value (net st) (slide b2 op2).1
             = Some v2
             ∧ episode_values st2
               = episode_values st ++ [num_to_int v1; num_to_int v2]
             ∧ six_tuple_agent.close_episode st2
               = close_episode_spec six_tuple_agent.update_net st2
             ∧ updates st2 !! n
               = Some ((slide b1 op1).1,
                       nmul (alpha st)
                         (num_of_Z (num_to_int v2 + (slide b2 op2).2
                                    - num_to_int v1)))
             ∧ updates st2 !! S n
               = Some ((slide b2 op2).1,
                       nmul (alpha st) (num_of_Z (0 + 0 - num_to_int v2))))
  ∧ (∀ st1 op1,
       four_tuple_agent.take_action st b1 = Some (st1, action_slide op1) →
       ∃ v1,
         four_tuple_agent.calculate_state_value (net st) (slide b1 op1).1
         = Some v1
         ∧ let w1 := nadd v1 (num_of_Z (slide b1 op1).2) in
           episode_values st1 = episode_values st ++ [num_to_int w1]
           ∧ episode_rewards st1 = episode_rewards st ++ [(slide b1 op1).2]
           ∧ four_tuple_agent.close_episode st1
             = close_episode_spec four_tuple_agent.update_net st1
           ∧ updates st1 !! n
             = Some ((slide b1 op1).1,
                     nmul (alpha st) (num_of_Z (0 + 0 - num_to_int w1)))
           ∧ ∀ st2 op2,
               four_tuple_agent.take_action st1 b2
               = Some (st2, action_slide op2) →
               ∃ v2,
                 four_tuple_agent.calculate_state_value (net st)
                   (slide b2 op2).1
                 = Some v2
                 ∧ let w2 := nadd v2 (num_of_Z (slide b2 op2).2) in
                   episode_values st2
                   = episode_values st ++ [num_to_int w1; num_to_int w2]
                   ∧ four_tuple_agent.close_episode st2
                     = close_episode_spec four_tuple_agent.update_net st2
                   ∧ updates st2 !! n
                     = Some ((slide b1 op1).1,
                             nmul (alpha st)
                               (num_of_Z (num_to_int w2 + (slide b2 op2).2
                                          - num_to_int w1)))
                   ∧ updates st2 !! S n
                     = Some ((slide b2 op2).1,
                             nmul (alpha st)
                               (num_of_Z (0 + 0 - num_to_int w2))))
  ∧ (∀ q : Qc,
       ((0 ≤ q)%Qc →
        (inject_Z (num_to_int q) <= q)%Q ∧ (q < inject_Z (num_to_int q + 1))%Q)
       ∧ ((q ≤ 0)%Qc →
          (inject_Z (num_to_int q - 1) < q)%Q ∧ (q <= inject_Z (num_to_int q))%Q))
  ∧ (∀ (s : bool) (m : positive) (e : Z),
       let x := S754_finite s m e in
       (s = false →
        (inject_Z (@num_to_int _ ieee_num x) <= ieee_value x)%Q
        ∧ (ieee_value x < inject_Z (@num_to_int _ ieee_num x + 1))%Q)
       ∧ (s = true →
          (inject_Z (@num_to_int _ ieee_num x - 1) < ieee_value x)%Q
          ∧ (ieee_value x <= inject_Z (@num_to_int _ ieee_num x))%Q)).
Proof.
  intros Hvalues Hrewards n updates.
  assert (Hone : ∀ (a : num) (boards : list board) (values rewards : list Z)
                   (after : board) (i r : Z),
            length values = length boards → length rewards = length boards →
            td_updates a (boards ++ [after]) ((values ++ [i]) ++ [0])
              ((rewards ++ [r]) ++ [0]) !! length boards
            = Some (after, nmul a (num_of_Z (0 + 0 - i)))).
  { intros a boards values rewards after i r Hv Hr.
    rewrite td_updates_lookup.
    rewrite (list_lookup_middle boards [] after (length boards)) by reflexivity.
    rewrite <- !app_assoc. cbn [app].
    rewrite (list_lookup_middle values [0] i (length boards))
      by (symmetry; exact Hv).
    rewrite (lookup_app_r values) by lia.
    rewrite (lookup_app_r rewards) by lia.
    replace (length boards + 1 - length values)%nat with 1%nat by lia.
    replace (length boards + 1 - length rewards)%nat with 1%nat by lia.
    reflexivity. }
  assert (Htwo : ∀ (a : num) (boards : list board) (values rewards : list Z)
                   (after1 after2 : board) (i1 i2 r1 r2 : Z),
            length values = length boards → length rewards = length boards →
            td_updates a ((boards ++ [after1]) ++ [after2])
              (((values ++ [i1]) ++ [i2]) ++ [0])
              (((rewards ++ [r1]) ++ [r2]) ++ [0]) !! length boards
            = Some (after1, nmul a (num_of_Z (i2 + r2 - i1)))).
  { intros a boards values rewards after1 after2 i1 i2 r1 r2 Hv Hr.
    rewrite td_updates_lookup.
    rewrite <- !app_assoc. cbn [app].
    rewrite (list_lookup_middle boards [after2] after1 (length boards))
      by reflexivity.
    rewrite (list_lookup_middle values [i2; 0] i1 (length boards))
      by (symmetry; exact Hv).
    rewrite (lookup_app_r values) by lia.
    rewrite (lookup_app_r rewards) by lia.
    replace (length boards + 1 - length values)%nat with 1%nat by lia.
    replace (length boards + 1 - length rewards)%nat with 1%nat by lia.
    reflexivity. }
  assert (Hlen : ∀ (l : list Z) (x : Z) (k : nat),
            length l = k → length (l ++ [x]) = S k).
  { intros l x k <-. rewrite length_app. cbn [length]. lia. }
  split; [| split; [| split]].
  - intros st1 op1 Hta1.
    apply six_take_action_accepted in Hta1 as (_ & _ & v1 & Hv1 & ->).
    exists v1. split; [exact Hv1 |].
    split; [reflexivity |]. split; [reflexivity |].
    split; [| split].
    + unfold six_tuple_agent.close_episode, close_episode_spec.
      cbn [net alpha episode_boards episode_values episode_rewards].
      rewrite length_app. cbn [length].
      rewrite <- (length_app (episode_boards st) [(slide b1 op1).1]).
      rewrite close_episode_loop_spec; [reflexivity | |];
        rewrite !length_app; cbn [length]; lia.
    + unfold updates.
      cbn [net alpha episode_boards episode_values episode_rewards].
      apply Hone; assumption.
    + intros st2 op2 Hta2.
      apply six_take_action_accepted in Hta2 as (_ & _ & v2 & Hv2 & ->).
      cbn [net alpha episode_boards episode_values episode_rewards] in *.
      exists v2. split; [exact Hv2 |].
      split; [rewrite <- app_assoc; reflexivity |].
      split; [| split].
      * unfold six_tuple_agent.close_episode, close_episode_spec.
        cbn [net alpha episode_boards episode_values episode_rewards].
        rewrite close_episode_loop_spec; [reflexivity | |];
          rewrite !length_app; cbn [length]; lia.
      * unfold updates.
        cbn [net alpha episode_boards episode_values episode_rewards].
        apply Htwo; assumption.
      * unfold updates.
        cbn [net alpha episode_boards episode_values episode_rewards].
        replace (S n) with (length (episode_boards st ++ [(slide b1 op1).1]))
          by (rewrite length_app; cbn [length]; unfold n; lia).
        apply Hone; rewrite !length_app; cbn [length]; lia.
  - intros st1 op1 Hta1.
    apply four_take_action_accepted in Hta1 as (_ & _ & v1 & Hv1 & ->).
    exists v1. split; [exact Hv1 |]. cbn zeta.
    split; [reflexivity |]. split; [reflexivity |].
    split; [| split].
    + unfold four_tuple_agent.close_episode, close_episode_spec.
      cbn [net alpha episode_boards episode_values episode_rewards].
      rewrite close_episode_loop_spec; [reflexivity | |];
        rewrite !length_app; cbn [length]; lia.
    + unfold updates.
      cbn [net alpha episode_boards episode_values episode_rewards].
      apply Hone; assumption.
    + intros st2 op2 Hta2.
      apply four_take_action_accepted in Hta2 as (_ & _ & v2 & Hv2 & ->).
      cbn [net alpha episode_boards episode_values episode_rewards] in *.
      exists v2. split; [exact Hv2 |].
      split; [rewrite <- app_assoc; reflexivity |].
      split; [| split].
      * unfold four_tuple_agent.close_episode, close_episode_spec.
        cbn [net alpha episode_boards episode_values episode_rewards].
        rewrite close_episode_loop_spec; [reflexivity | |];
          rewrite !length_app; cbn [length]; lia.
      * unfold updates.
        cbn [net alpha episode_boards episode_values episode_rewards].
        apply Htwo; assumption.
      * unfold updates.
        cbn [net alpha episode_boards episode_values episode_rewards].
        replace (S n) with (length (episode_boards st ++ [(slide b1 op1).1]))
          by (rewrite length_app; cbn [length]; unfold n; lia).
        apply Hone; rewrite !length_app; cbn [length]; lia.
  - exact Qc_trunc_truncates.
  - intros s m e. exact (ieee_to_int_truncates s m e).
Qed.






(** C2. [close_episode] appends a terminal reward 0 and a terminal value 0;
    then, for each recorded position i from the last down to the first, it
    runs [update_net] on [board_seq[i]] with
    [alpha * (value_seq[i+1] + reward_seq[i+1] - value_seq[i])], all of them
    computed from the sequences as they were recorded; [update_net] adds that
    amount to every active entry of the board; there is one update per
    recorded position and none for the sentinel.  Both agents, for a trace
    whose three sequences have the same length. *)
Theorem close_episode_applies_td_updates_backwards (st : agent_state board num) :
  length (episode_values st) = length (episode_boards st) →
  length (episode_rewards st) = length (episode_boards st) →
  let values := episode_values st ++ [0] in
  let rewards := episode_rewards st ++ [0] in
  let updates := td_updates (alpha st) (episode_boards st) values rewards in
  four_tuple_agent.close_episode st
  = close_episode_spec four_tuple_agent.update_net st
  ∧ six_tuple_agent.close_episode st
    = close_episode_spec six_tuple_agent.update_net st
  ∧ length updates = length (episode_boards st)
  ∧ length values = S (length (episode_boards st))
  ∧ length rewards = S (length (episode_boards st))
  ∧ (∀ i b, episode_boards st !! i = Some b →
       ∃ v0 v1 r1, values !! i = Some v0 ∧ values !! (i + 1)%nat = Some v1
         ∧ rewards !! (i + 1)%nat = Some r1
         ∧ updates !! i = Some (b, nmul (alpha st) (num_of_Z (v1 + r1 - v0))))
  ∧ (∀ (nt : list (weight num)) b d,
       four_tuple_agent.update_net nt b d
       = entries_add nt (four_active_entries b) d
       ∧ six_tuple_agent.update_net nt b d
         = entries_add nt (six_active_entries b) d).
Proof.
  intros Hv Hr values rewards updates.
  split; [| split; [| split; [| split; [| split; [| split]]]]].
  - unfold four_tuple_agent.close_episode, close_episode_spec.
    rewrite close_episode_loop_spec by assumption. reflexivity.
  - unfold six_tuple_agent.close_episode, close_episode_spec.
    rewrite close_episode_loop_spec by assumption. reflexivity.
  - apply td_updates_length; assumption.
  - unfold values. rewrite length_app. cbn [length]. lia.
  - unfold rewards. rewrite length_app. cbn [length]. lia.
  - intros i b Hb. pose proof (lookup_lt_Some _ _ _ Hb) as Hi.
    destruct (lookup_lt_is_Some_2 values i) as [v0 Hv0].
    { unfold values. rewrite length_app. cbn [length]. lia. }
    destruct (lookup_lt_is_Some_2 values (i + 1)) as [v1 Hv1].
    { unfold values. rewrite length_app. cbn [length]. lia. }
    destruct (lookup_lt_is_Some_2 rewards (i + 1)) as [r1 Hr1].
    { unfold rewards. rewrite length_app. cbn [length]. lia. }
    exists v0, v1, r1. repeat (split; [assumption |]).
    unfold updates. rewrite td_updates_lookup, Hb, Hv0, Hv1, Hr1. reflexivity.
  - intros nt b d. split.
    + apply four_update_net_entries.
    + apply six_update_net_entries.
Qed.

(** C9. When the weight file does not open, [load_weights] and
    [save_weights] leave the process through [std::exit(-1)], a nonzero
    status, and nothing is loaded or saved.  When it opens (and holds its
    4-byte header), [load_weights] decodes the shard count from the first
    four bytes and reads exactly that many shards, each from where the one
    before it stopped; [save_weights] writes the shard count as a 32-bit
    unsigned integer followed by every shard in table order. *)
Theorem weight_files_exit_or_frame_shards `{!WeightIO num} (fs : filesystem)
  (path : string) (nt : list (weight num)) :
  (fs_files fs !! path = None →
   load_weights fs path nt = Exit (-1) ∧ -1 ≠ 0)
  ∧ (fs_writable fs path = false →
     save_weights fs path nt = Exit (-1) ∧ -1 ≠ 0)
  ∧ (∀ data, fs_files fs !! path = Some data → (4 ≤ length data)%nat →
       let count := Z.to_nat (u32_decode (take 4 data)) in
       let olds := resize count (weight_new 0) nt in
       ∃ nt', load_weights fs path nt = Done nt'
         ∧ length nt' = count
         ∧ ∀ i w, olds !! i = Some w →
             nt' !! i
             = Some (weight_read w (input_after olds i (drop 4 data))).1)
  ∧ (fs_writable fs path = true →
     ∃ fs', save_weights fs path nt = Done fs'
       ∧ fs_files fs' !! path
         = Some (u32_encode (Z.of_nat (length nt) mod 2 ^ 32)
                 ++ mjoin (weight_write <$> nt))
       ∧ (∀ other, other ≠ path →
            fs_files fs' !! other = fs_files fs !! other)
       ∧ fs_writable fs' = fs_writable fs).
Proof.
  split; [| split; [| split]].
  - intros Hnone. unfold load_weights. rewrite Hnone. split; [reflexivity | lia].
  - intros Hro. unfold save_weights. rewrite Hro. split; [reflexivity | lia].
  - intros data Hdata Hlen count olds. unfold load_weights. rewrite Hdata.
    rewrite bool_decide_eq_false_2 by lia.
    eexists. split; [reflexivity |]. split.
    + rewrite read_each_length. apply length_resize.
    + intros i w Hw. fold count. fold olds.
      rewrite read_each_lookup, Hw. reflexivity.
  - intros Hrw. unfold save_weights. rewrite Hrw.
    eexists. split; [reflexivity |]. cbn [fs_files fs_writable].
    split; [| split; [| reflexivity]].
    + rewrite lookup_insert_eq, foldl_write_shards. reflexivity.
    + intros other Hother. rewrite lookup_insert_ne by congruence. reflexivity.
Qed.

(** C3 (the code departs from it for the six-tuple agent).  A four-tuple
    agent constructed with an [alpha] key has the configured learning rate
    (and 0.0125 without the key); a six-tuple agent has [0.1/32] whatever
    the configuration says, because its constructor body assigns [alpha]
    after [weight_agent] has applied the key.  No episode operation changes
    [alpha] afterwards. *)
Theorem six_tuple_agent_overwrites_configured_alpha `{!WeightIO num}
  (fs : filesystem) (args : string) :
  (∀ a : agent_object board num, six_tuple_agent.new fs args = Done a →
     alpha (state a) = ndiv (num_lit (1 # 10)) (num_of_Z 32))
  ∧ (∀ (a : agent_object board num) value,
       four_tuple_agent.new fs args = Done a →
       agent_new args !! "alpha" = Some value →
       num_of_string value = Some (alpha (state a)))
  ∧ (∀ a : agent_object board num, four_tuple_agent.new fs args = Done a →
       agent_new args !! "alpha" = None →
       alpha (state a) = num_lit (1 # 80))
  ∧ (∀ (st st' : agent_state board num) b r,
       alpha (four_tuple_agent.open_episode st) = alpha st
       ∧ alpha (six_tuple_agent.open_episode st) = alpha st
       ∧ (four_tuple_agent.take_action st b = Some (st', r) →
          alpha st' = alpha st)
       ∧ (six_tuple_agent.take_action st b = Some (st', r) →
          alpha st' = alpha st)
       ∧ (four_tuple_agent.close_episode st = Some st' → alpha st' = alpha st)
       ∧ (six_tuple_agent.close_episode st = Some st' → alpha st' = alpha st)).
Proof.
  split; [| split; [| split]].
  - intros a Hnew. unfold six_tuple_agent.new in Hnew.
    destruct (weight_agent_new fs args) as [a0 | | |]; try discriminate.
    cbn [mbind outcome_bind] in Hnew. injection Hnew as <-. reflexivity.
  - intros a value Hnew Hkey.
    apply weight_agent_new_alpha in Hnew as [_ Halpha].
    rewrite Hkey in Halpha. exact Halpha.
  - intros a Hnew Hkey.
    apply weight_agent_new_alpha in Hnew as [_ Halpha].
    rewrite Hkey in Halpha. exact Halpha.
  - intros st st' b r. split; [reflexivity |]. split; [reflexivity |].
    split; [| split; [| split]].
    + destruct r as [| op]; intros Hta.
      * apply four_take_action_rejected in Hta as ->. reflexivity.
      * apply four_take_action_accepted in Hta as (_ & _ & v & _ & ->).
        reflexivity.
    + destruct r as [| op]; intros Hta.
      * apply six_take_action_rejected in Hta as ->. reflexivity.
      * apply six_take_action_accepted in Hta as (_ & _ & v & _ & ->).
        reflexivity.
    + unfold four_tuple_agent.close_episode. intros Hclose.
      destruct (for_each _ _ (net st)); [| discriminate].
      injection Hclose as <-. reflexivity.
    + unfold six_tuple_agent.close_episode. intros Hclose.
      destruct (for_each _ _ (net st)); [| discriminate].
      injection Hclose as <-. reflexivity.
Qed.

End Claims.

(** ** Worked examples *)

Lemma grid_slide_absent (script : list (grid * Z * (grid * Z))) (b : grid)
  (op : Z) :
  Forall (λ e, e.1.1 ≠ b) script → grid_slide script b op = (b, -1).
Proof.
  induction 1 as [| e script He _ IH]; [reflexivity |].
  cbn [grid_slide]. rewrite bool_decide_eq_false_2; [exact IH |].
  intros Heq. apply He. rewrite Heq. reflexivity.
Qed.

Lemma demo_end_is_terminal (op : Z) : (slide demo_end op).2 = -1.
Proof.
  change (slide demo_end op) with (grid_slide demo_script demo_end op).
  rewrite grid_slide_absent; [reflexivity |].
  repeat constructor; discriminate.
Qed.

(** C1 (the code departs from it).  On fresh tables every afterstate is worth
    0; from [demo_start] both agents slide in direction 1 with reward 3.  The
    six-tuple agent appends the raw value 0 to [episode_values]; the
    four-tuple agent appends 3, the value with the reward added. *)
Theorem four_take_action_stores_reward_inclusive_value :
  (this <$> four_tuple_agent.calculate_state_value four_fresh_net demo_right)
  = Some (0 # 1)%Q
  ∧ (∃ st', four_tuple_agent.take_action four_fresh demo_start
            = Some (st', action_slide 1)
       ∧ episode_boards st' = [demo_right]
       ∧ episode_rewards st' = [3]
       ∧ episode_values st' = [3])
  ∧ (∃ st', six_tuple_agent.take_action six_fresh demo_start
            = Some (st', action_slide 1)
       ∧ episode_boards st' = [demo_right]
       ∧ episode_rewards st' = [3]
       ∧ episode_values st' = [0]).
Proof.
  split; [vm_compute; reflexivity |]. split.
  - exists (after_action four_fresh
              (four_tuple_agent.take_action four_fresh demo_start)).
    repeat split; vm_compute; reflexivity.
  - exists (after_action six_fresh
              (six_tuple_agent.take_action six_fresh demo_start)).
    repeat split; vm_compute; reflexivity.
Qed.

(** One accepted move worth 5/2, stored as 2, with reward 3 and learning rate
    1/2: the backward pass is the single update
    [1/2 * (0 + 0 - 2) = -1] on the recorded afterstate. *)
Lemma close_episode_applies_td_updates_backwards_witness :
  let st :=
    after_action six_trained
      (six_tuple_agent.take_action (six_tuple_agent.open_episode six_trained)
         demo_start) in
  six_tuple_agent.close_episode st
  = close_episode_spec six_tuple_agent.update_net st
  ∧ (λ u, (u.1, this u.2))
      <$> td_updates (alpha st) (episode_boards st) (episode_values st ++ [0])
            (episode_rewards st ++ [0])
    = [(demo_right, (-1 # 1)%Q)]
  ∧ (this <$> (six_tuple_agent.close_episode st
               ≫= λ st', six_tuple_agent.calculate_state_value (net st')
                           demo_right))
    = Some (-59 # 2)%Q.
Proof.
  intros st.
  assert (Hv : length (episode_values st) = length (episode_boards st))
    by (vm_compute; reflexivity).
  assert (Hr : length (episode_rewards st) = length (episode_boards st))
    by (vm_compute; reflexivity).
  pose proof (close_episode_applies_td_updates_backwards st Hv Hr)
    as (_ & Hsix & _).
  split; [exact Hsix |]. split; vm_compute; reflexivity.
Defined.

(** Both agents are constructed with ["init=16,16 alpha=0.5"]: the
    four-tuple agent learns at 1/2, the six-tuple agent at 1/320. *)
Lemma six_tuple_agent_overwrites_configured_alpha_witness :
  let args := "init=16,16 alpha=0.5" in
  let a6 := constructed (six_tuple_agent.new demo_fs args) in
  let a4 := constructed (four_tuple_agent.new demo_fs args) in
  meta a6 !! "alpha" = Some "0.5"
  ∧ alpha (state a6) = ndiv (num_lit (1 # 10)) (num_of_Z 32)
  ∧ this (alpha (state a6)) = (1 # 320)%Q
  ∧ num_of_string "0.5" = Some (alpha (state a4))
  ∧ this (alpha (state a4)) = (1 # 2)%Q.
Proof.
  intros args a6 a4.
  assert (H6 : six_tuple_agent.new demo_fs args = Done a6)
    by (vm_compute; reflexivity).
  assert (H4 : four_tuple_agent.new demo_fs args = Done a4)
    by (vm_compute; reflexivity).
  assert (Hkey : agent_new args !! "alpha" = Some "0.5")
    by (vm_compute; reflexivity).
  pose proof (@six_tuple_agent_overwrites_configured_alpha grid Qc demo_board
                Qc_num demo_weight_io demo_fs args) as (Hsix & Hfour & _).
  split; [vm_compute; reflexivity |].
  split; [exact (Hsix a6 H6) |].
  split; [vm_compute; reflexivity |].
  split; [exact (Hfour a4 "0.5" H4 Hkey) | vm_compute; reflexivity].
Defined.

(** On fresh tables, one [update_net] with [d = 1/2] raises the value of a
    board from 0 to 32 * 1/2 (six-tuple) and 8 * 1/2 (four-tuple). *)
Lemma update_net_matches_calculate_state_value_witness :
  let net6 : list (weight Qc) := replicate 32 (weight_new (2 ^ 24)) in
  let net4 : list (weight Qc) := replicate 8 (weight_new (2 ^ 16)) in
  let b : grid := [1; 2; 3; 0; 6; 0; 0; 15; 0; 0; 0; 0; 0; 0; 0; 12] in
  let d : Qc := Q2Qc (1 # 2) in
  (∃ net6', @six_tuple_agent.update_net grid Qc (grid_board []) _ net6 b d
            = Some net6'
      ∧ @six_tuple_agent.calculate_state_value grid Qc (grid_board []) _ net6' b
        = Some (nadd (num_of_Z 0) (nmul (num_of_Z 32) d)))
  ∧ (∃ net4', @four_tuple_agent.update_net grid Qc (grid_board []) _ net4 b d
            = Some net4'
      ∧ @four_tuple_agent.calculate_state_value grid Qc (grid_board []) _ net4' b
        = Some (nadd (num_of_Z 0) (nmul (num_of_Z 8) d))).
Proof.
  intros net6 net4 b d.
  assert (Hv6 : @six_tuple_agent.calculate_state_value grid Qc (grid_board [])
                  Qc_num net6 b = Some (num_of_Z 0))
    by (vm_compute; reflexivity).
  assert (Hv4 : @four_tuple_agent.calculate_state_value grid Qc (grid_board [])
                  Qc_num net4 b = Some (num_of_Z 0))
    by (vm_compute; reflexivity).
  pose proof (@update_net_matches_calculate_state_value grid Qc (grid_board [])
                Qc_num net6 net4 b d _ _ Hv6 Hv4)
    as (_ & _ & (n6 & ws6 & Hu6 & _ & _ & _ & _ & Hc6) & _
        & (n4 & ws4 & Hu4 & _ & _ & _ & _ & Hc4)).
  split; [exists n6 | exists n4];
    (split; [assumption |]); [exact (Hc6 Qc_exact) | exact (Hc4 Qc_exact)].
Defined.

(** C4, as the claim words it, fails on IEEE arithmetic: on fresh tables,
    [update_net] with [d = 0.1] raises the value of a board from 0 to
    3.2000000476837158 (six-tuple) and 0.800000011920929 (four-tuple) when
    the entries are [float], and to 3.2000000000000015 and
    0.7999999999999999 when they are [double]; 32*d is 3.2 and 8*d is 0.8,
    and none of the four values is the double that [0 + 32*d] (resp.
    [0 + 8*d]) evaluates to in [double] arithmetic either. *)
Lemma update_net_rise_is_rounded :
  let d : spec_float := ieee_lit (1 # 10) in
  let net6 : list (weight spec_float) := replicate 32 (weight_new (2 ^ 24)) in
  let net4 : list (weight spec_float) := replicate 8 (weight_new (2 ^ 16)) in
  let value6 (ops : NumOps spec_float) :=
    net' ← @six_tuple_agent.update_net grid spec_float demo_board ops net6
             demo_right d;
    @six_tuple_agent.calculate_state_value grid spec_float demo_board ops net'
      demo_right in
  let value4 (ops : NumOps spec_float) :=
    net' ← @four_tuple_agent.update_net grid spec_float demo_board ops net4
             demo_right d;
    @four_tuple_agent.calculate_state_value grid spec_float demo_board ops net'
      demo_right in
  @six_tuple_agent.calculate_state_value grid spec_float demo_board ieee_num
    net6 demo_right = Some (S754_zero false)
  ∧ @four_tuple_agent.calculate_state_value grid spec_float demo_board ieee_num
      net4 demo_right = Some (S754_zero false)
  ∧ Qred (ieee_value d) = 3602879701896397 # 36028797018963968
  ∧ (Qred ∘ ieee_value) <$> value6 ieee_num = Some (13421773 # 4194304)
  ∧ (Qred ∘ ieee_value) <$> value4 ieee_num = Some (13421773 # 16777216)
  ∧ (Qred ∘ ieee_value) <$> value6 ieee_num_double_entries
    = Some (7205759403792797 # 2251799813685248)
  ∧ (Qred ∘ ieee_value) <$> value4 ieee_num_double_entries
    = Some (7205759403792793 # 9007199254740992)
  ∧ ¬ (13421773 # 4194304 == 0 + 32 * ieee_value d)%Q
  ∧ ¬ (13421773 # 16777216 == 0 + 8 * ieee_value d)%Q
  ∧ ¬ (7205759403792797 # 2251799813685248 == 0 + 32 * ieee_value d)%Q
  ∧ ¬ (7205759403792793 # 9007199254740992 == 0 + 8 * ieee_value d)%Q
  ∧ (∀ ops, ops = ieee_num ∨ ops = ieee_num_double_entries →
       value6 ops
       ≠ Some (SFadd 53 1024 (S754_zero false)
                 (SFmul 53 1024 (ieee_of_Z 32) d))
       ∧ value4 ops
         ≠ Some (SFadd 53 1024 (S754_zero false)
                   (SFmul 53 1024 (ieee_of_Z 8) d))).
Proof.
  cbv zeta.
  repeat split; try (vm_compute; reflexivity);
    try (intros Heq; vm_compute in Heq; discriminate Heq).
  all: destruct H as [-> | ->]; intros Heq; vm_compute in Heq;
    discriminate Heq.
Qed.


(** Three calls, two of them accepted, starting from an agent whose trace
    still holds an old entry: lengths 2, 2, 2 before and 2, 3, 3 after
    [close_episode]. *)
Lemma trace_lengths_follow_accepted_moves_witness :
  let st0 : agent_state grid Qc :=
    AgentState six_fresh_net (Q2Qc (1 # 320)) [demo_end] [7] [7] in
  let bs := [demo_start; demo_right; demo_end] in
  let st :=
    after_play st0
      (play six_tuple_agent.take_action (six_tuple_agent.open_episode st0) bs) in
  let st' := default st (six_tuple_agent.close_episode st) in
  (length (episode_boards st) = 2%nat ∧ length (episode_values st) = 2%nat
   ∧ length (episode_rewards st) = 2%nat)
  ∧ (length (episode_boards st') = 2%nat ∧ length (episode_values st') = 3%nat
     ∧ length (episode_rewards st') = 3%nat).
Proof.
  intros st0 bs st st'.
  assert (Hplay : play six_tuple_agent.take_action
                    (six_tuple_agent.open_episode st0) bs = Some (st, 2%nat))
    by (vm_compute; reflexivity).
  assert (Hclose : six_tuple_agent.close_episode st = Some st')
    by (vm_compute; reflexivity).
  destruct (proj2 (trace_lengths_follow_accepted_moves st0 bs) st 2%nat Hplay)
    as [Hlen Hafter].
  split; [exact Hlen | exact (Hafter st' Hclose)].
Defined.


(** No slide is legal on [demo_end]: both agents reject and stay as they
    were. *)
Lemma take_action_rejects_without_legal_slide_witness :
  four_tuple_agent.take_action four_trained demo_end
  = Some (four_trained, action_none)
  ∧ six_tuple_agent.take_action six_trained demo_end
    = Some (six_trained, action_none).
Proof.
  split.
  - exact (proj1 (take_action_rejects_without_legal_slide four_trained demo_end
                    (λ op _, demo_end_is_terminal op))).
  - exact (proj2 (take_action_rejects_without_legal_slide six_trained demo_end
                    (λ op _, demo_end_is_terminal op))).
Defined.

(** The tuple (9, 10, 11, 13, 14, 15) on a board whose last cell holds 12:
    the address is [12 << 20]. *)
Lemma tuple_address_packs_nibbles_witness :
  let fb : grid := [1; 2; 3; 0; 6; 0; 0; 15; 0; 0; 0; 0; 0; 0; 0; 12] in
  let tup := [9; 10; 11; 13; 14; 15] in
  @tuple_address grid (grid_board []) fb tup 6 = 12582912
  ∧ @nibble_sum grid (grid_board []) fb 0 tup = 12582912
  ∧ @net_index 1 2 3 0 = 801.
Proof.
  intros fb tup.
  pose proof (@tuple_address_packs_nibbles grid (grid_board []) fb tup
                (λ p _, grid_cells_in_range [] fb
                          ltac:(repeat constructor; lia) p)
                ltac:(repeat constructor; lia)) as [[Heq _] _].
  rewrite <- Heq. repeat split; reflexivity.
Defined.

(** ["nope.bin"] does not exist and ["w.bin"] does not open for writing: both
    calls exit with -1.  ["w.bin"] announces two shards and two are read;
    saving them to ["out.bin"] writes the count and the two shards. *)
Lemma weight_files_exit_or_frame_shards_witness :
  let loaded : list (weight Qc) :=
    match load_weights demo_fs "w.bin" [] with Done nt => nt | _ => [] end in
  load_weights demo_fs "nope.bin" ([] : list (weight Qc)) = Exit (-1)
  ∧ save_weights demo_fs "w.bin" loaded = Exit (-1)
  ∧ (∃ nt', load_weights demo_fs "w.bin" ([] : list (weight Qc)) = Done nt'
       ∧ length nt' = 2%nat)
  ∧ (∃ fs', save_weights demo_fs "out.bin" loaded = Done fs'
       ∧ fs_files fs' !! "out.bin"
         = Some [x02; x00; x00; x00; x02; x07; x09; x01; x05]).
Proof.
  intros loaded.
  pose proof (@weight_files_exit_or_frame_shards Qc demo_weight_io demo_fs
                "nope.bin" []) as (Hload & _).
  pose proof (@weight_files_exit_or_frame_shards Qc demo_weight_io demo_fs
                "w.bin" loaded) as (_ & Hsave & _).
  pose proof (@weight_files_exit_or_frame_shards Qc demo_weight_io demo_fs
                "w.bin" []) as (_ & _ & Hread & _).
  pose proof (@weight_files_exit_or_frame_shards Qc demo_weight_io demo_fs
                "out.bin" loaded) as (_ & _ & _ & Hwrite).
  split; [exact (proj1 (Hload ltac:(vm_compute; reflexivity))) |].
  split; [exact (proj1 (Hsave ltac:(vm_compute; reflexivity))) |].
  split.
  - destruct (Hread [x02; x00; x00; x00; x02; x07; x09; x01; x05]
                ltac:(vm_compute; reflexivity) ltac:(vm_compute; lia))
      as (nt' & Hnt' & Hlen & _).
    exists nt'. split; [exact Hnt' | exact Hlen].
  - destruct (Hwrite ltac:(vm_compute; reflexivity))
      as (fs' & Hfs' & Hfile & _).
    exists fs'. split; [exact Hfs' |]. rewrite Hfile.
    vm_compute. reflexivity.
Defined.

(** On tables where [demo_right] is worth 5/2, the six-tuple agent stores 2
    and the four-tuple agent stores 5 (5/2 + 3 truncated). *)
Lemma episode_values_hold_truncated_ints_witness :
  let st6_0 := six_tuple_agent.open_episode six_trained in
  let st6_1 :=
    after_action six_trained (six_tuple_agent.take_action st6_0 demo_start) in
  let st6_2 :=
    after_action st6_1 (six_tuple_agent.take_action st6_1 demo_right) in
  let st4_0 := four_tuple_agent.open_episode four_trained in
  let st4_1 :=
    after_action four_trained (four_tuple_agent.take_action st4_0 demo_start) in
  let st4_2 :=
    after_action st4_1 (four_tuple_agent.take_action st4_1 demo_right) in
  let updates (s : agent_state grid Qc) :=
    td_updates (alpha s) (episode_boards s) (episode_values s ++ [0])
      (episode_rewards s ++ [0]) in
  (this <$> six_tuple_agent.calculate_state_value six_trained_net demo_right)
  = Some (5 # 2)%Q
  ∧ (this <$> six_tuple_agent.calculate_state_value six_trained_net demo_end)
    = Some (45 # 32)%Q
  ∧ episode_values st6_2 = [2; 1]
  ∧ (∃ v1 v2,
       episode_values st6_2 = [] ++ [num_to_int v1; num_to_int v2]
       ∧ updates st6_2 !! 0%nat
         = Some ((slide demo_start 1).1,
                 nmul (alpha st6_0)
                   (num_of_Z (num_to_int v2 + (slide demo_right 3).2
                              - num_to_int v1))))
  ∧ ((λ u, (u.1, this u.2)) <$> updates st6_2)
    = [(demo_right, (-1 # 2)%Q); (demo_end, (-1 # 2)%Q)]
  ∧ (this <$> four_tuple_agent.calculate_state_value four_trained_net
                demo_right)
    = Some (5 # 2)%Q
  ∧ (this <$> four_tuple_agent.calculate_state_value four_trained_net
                demo_end)
    = Some (25 # 16)%Q
  ∧ episode_values st4_2 = [5; 1]
  ∧ (∃ v1 v2,
       let w1 := nadd v1 (num_of_Z (slide demo_start 1).2) in
       let w2 := nadd v2 (num_of_Z (slide demo_right 3).2) in
       episode_values st4_2 = [] ++ [num_to_int w1; num_to_int w2]
       ∧ updates st4_2 !! 0%nat
         = Some ((slide demo_start 1).1,
                 nmul (alpha st4_0)
                   (num_of_Z (num_to_int w2 + (slide demo_right 3).2
                              - num_to_int w1))))
  ∧ ((λ u, (u.1, this u.2)) <$> updates st4_2)
    = [(demo_right, (-2 # 1)%Q); (demo_end, (-1 # 2)%Q)].
Proof.
  intros st6_0 st6_1 st6_2 st4_0 st4_1 st4_2 updates.
  assert (H6a : six_tuple_agent.take_action st6_0 demo_start
                = Some (st6_1, action_slide 1))
    by (vm_compute; reflexivity).
  assert (H6b : six_tuple_agent.take_action st6_1 demo_right
                = Some (st6_2, action_slide 3))
    by (vm_compute; reflexivity).
  assert (H4a : four_tuple_agent.take_action st4_0 demo_start
                = Some (st4_1, action_slide 1))
    by (vm_compute; reflexivity).
  assert (H4b : four_tuple_agent.take_action st4_1 demo_right
                = Some (st4_2, action_slide 3))
    by (vm_compute; reflexivity).
  assert (Hlen6 : length (episode_values st6_0) = length (episode_boards st6_0))
    by reflexivity.
  assert (Hlen6' : length (episode_rewards st6_0)
                   = length (episode_boards st6_0))
    by reflexivity.
  assert (Hlen4 : length (episode_values st4_0) = length (episode_boards st4_0))
    by reflexivity.
  assert (Hlen4' : length (episode_rewards st4_0)
                   = length (episode_boards st4_0))
    by reflexivity.
  pose proof (@episode_values_hold_truncated_ints grid Qc demo_board Qc_num
                st6_0 demo_start demo_right Hlen6 Hlen6') as (Hsix & _).
  pose proof (@episode_values_hold_truncated_ints grid Qc demo_board Qc_num
                st4_0 demo_start demo_right Hlen4 Hlen4') as (_ & Hfour & _).
  destruct (Hsix st6_1 1 H6a) as (v6 & _ & _ & _ & _ & _ & Hnext6).
  destruct (Hnext6 st6_2 3 H6b) as (v6' & _ & Hvals6 & _ & Hupd6 & _).
  destruct (Hfour st4_1 1 H4a) as (v4 & _ & _ & _ & _ & _ & Hnext4).
  destruct (Hnext4 st4_2 3 H4b) as (v4' & _ & Hvals4 & _ & Hupd4 & _).
  split; [vm_compute; reflexivity |].
  split; [vm_compute; reflexivity |].
  split; [vm_compute; reflexivity |].
  split; [exists v6, v6'; split; [exact Hvals6 | exact Hupd6] |].
  split; [vm_compute; reflexivity |].
  split; [vm_compute; reflexivity |].
  split; [vm_compute; reflexivity |].
  split; [vm_compute; reflexivity |].
  split; [exists v4, v4'; split; [exact Hvals4 | exact Hupd4] |].
  vm_compute. reflexivity.
Defined.

(** ** More on the table store *)

Section Shape.
Context {board num : Type} `{!BoardOps board, !NumOps num}.

Lemma net_get_is_Some (net : list (weight num)) (e : nat * Z) :
  is_Some (net_get net e.1 e.2) ↔ entry_ok net e.
Proof.
  unfold net_get, entry_ok, net_shape, weight_get.
  rewrite list_lookup_fmap.
  destruct (net !! e.1) as [w |]; cbn [mbind option_bind fmap option_fmap option_map].
  - case_bool_decide as Hin; split.
    + intros _. exists (weight_size w). auto.
    + eauto.
    + intros [x Hx]. discriminate.
    + intros (size & [= <-] & Hr). contradiction.
  - split; [intros [x Hx]; discriminate | intros (size & Hs & _); discriminate].
Qed.

Lemma net_add_shape (net net' : list (weight num)) (s : nat) (idx : Z) (d : num) :
  net_add net s idx d = Some net' → net_shape net' = net_shape net.
Proof.
  unfold net_add, weight_add, net_shape. intros Hadd.
  destruct (net !! s) as [w |] eqn:Hw; [| discriminate].
  cbn [mbind option_bind] in Hadd.
  destruct (weight_get w idx) as [v |]; [| discriminate].
  cbn [mbind option_bind] in Hadd. injection Hadd as <-.
  rewrite list_fmap_insert. cbn [weight_size].
  apply list_insert_id. rewrite list_lookup_fmap, Hw. reflexivity.
Qed.

Lemma entries_add_shape (net net' : list (weight num)) (es : list (nat * Z))
  (d : num) :
  entries_add net es d = Some net' → net_shape net' = net_shape net.
Proof.
  revert net. induction es as [| e es IH]; intros net Hadd.
  - injection Hadd as <-. reflexivity.
  - unfold entries_add in Hadd. cbn [for_each] in Hadd.
    destruct (net_add net e.1 e.2 d) as [n1 |] eqn:Hn1; [| discriminate].
    cbn [mbind option_bind] in Hadd.
    rewrite (IH n1 Hadd). exact (net_add_shape _ _ _ _ _ Hn1).
Qed.

Lemma entry_ok_shape (net net' : list (weight num)) (e : nat * Z) :
  net_shape net' = net_shape net → entry_ok net' e ↔ entry_ok net e.
Proof. unfold entry_ok. intros ->. reflexivity. Qed.

Lemma entries_sum_is_Some (net : list (weight num)) (es : list (nat * Z))
  (acc : num) :
  is_Some (entries_sum net es acc) ↔ Forall (entry_ok net) es.
Proof.
  revert acc. induction es as [| e es IH]; intros acc.
  - split; [constructor | intros _; eexists; reflexivity].
  - rewrite entries_sum_cons, Forall_cons, <- net_get_is_Some.
    destruct (net_get net e.1 e.2) as [w |]; cbn [mbind option_bind].
    + rewrite IH. split; [intros H; split; [eauto | exact H] | intros [_ H]; exact H].
    + split; [intros [x Hx]; discriminate | intros [[x Hx] _]; discriminate].
Qed.

Lemma entries_add_is_Some (net : list (weight num)) (es : list (nat * Z))
  (d : num) :
  is_Some (entries_add net es d) ↔ Forall (entry_ok net) es.
Proof.
  revert net. induction es as [| e es IH]; intros net.
  - split; [constructor | intros _; eexists; reflexivity].
  - rewrite Forall_cons, <- net_get_is_Some.
    unfold entries_add. cbn [for_each]. fold (entries_add).
    destruct (net_get net e.1 e.2) as [w |] eqn:Hw.
    + destruct (net_add_Some net e.1 e.2 d w Hw) as [n1 Hn1]. rewrite Hn1.
      cbn [mbind option_bind].
      change (for_each _ es n1) with (entries_add n1 es d). rewrite IH.
      assert (Hsame : Forall (entry_ok n1) es ↔ Forall (entry_ok net) es).
      { apply Forall_proper; [| reflexivity]. intros e'.
        apply entry_ok_shape, (net_add_shape _ _ _ _ _ Hn1). }
      rewrite Hsame.
      split; [intros H; split; [eauto | exact H] | intros [_ H]; exact H].
    + assert (Hnone : net_add net e.1 e.2 d = None).
      { unfold net_add, weight_add. unfold net_get in Hw.
        destruct (net !! e.1) as [w |]; [| reflexivity].
        cbn [mbind option_bind] in *. rewrite Hw. reflexivity. }
      rewrite Hnone. cbn [mbind option_bind].
      split; [intros [x Hx]; discriminate | intros [[x Hx] _]; discriminate].
Qed.

(** An entry other than the one written keeps its value. *)
Lemma net_get_add_other (net net' : list (weight num)) (s s' : nat)
  (idx idx' : Z) (d : num) :
  (s, idx) ≠ (s', idx') → net_add net s idx d = Some net' →
  net_get net' s' idx' = net_get net s' idx'.
Proof.
  intros Hne Hadd. destruct (decide (s = s')) as [<- | Hs];
    [| exact (net_get_add_ne _ _ _ _ _ _ _ Hs Hadd)].
  assert (Hidx : idx ≠ idx') by congruence.
  unfold net_get, net_add, weight_add in *.
  destruct (net !! s) as [w |] eqn:Hw; [| discriminate].
  cbn [mbind option_bind] in *.
  destruct (weight_get w idx) as [v |]; [| discriminate].
  cbn [mbind option_bind] in Hadd. injection Hadd as <-.
  rewrite list_lookup_insert_eq by (eapply lookup_lt_Some; eassumption).
  cbn [mbind option_bind]. unfold weight_get. cbn [weight_size weight_value].
  rewrite lookup_insert_ne by exact Hidx. reflexivity.
Qed.

Lemma entries_add_other (net net' : list (weight num)) (es : list (nat * Z))
  (d : num) (e : nat * Z) :
  e ∉ es → entries_add net es d = Some net' →
  net_get net' e.1 e.2 = net_get net e.1 e.2.
Proof.
  revert net. induction es as [| e0 es IH]; intros net Hnotin Hadd.
  - injection Hadd as <-. reflexivity.
  - apply not_elem_of_cons in Hnotin as [Hne Hnotin].
    unfold entries_add in Hadd. cbn [for_each] in Hadd.
    destruct (net_add net e0.1 e0.2 d) as [n1 |] eqn:Hn1; [| discriminate].
    cbn [mbind option_bind] in Hadd.
    rewrite (IH n1 Hnotin Hadd).
    eapply net_get_add_other; [| exact Hn1].
    destruct e0, e. cbn [fst snd]. congruence.
Qed.

End Shape.

Lemma for_each_preserves {A S T : Type} (f : S → T) (body : S → A → option S)
  (l : list A) (s s' : S) :
  (∀ s x s', body s x = Some s' → f s' = f s) →
  for_each body l s = Some s' → f s' = f s.
Proof.
  intros Hbody. revert s. induction l as [| x l IH]; intros s Hloop.
  - injection Hloop as <-. reflexivity.
  - cbn [for_each] in Hloop.
    destruct (body s x) as [s1 |] eqn:Hs1; [| discriminate].
    cbn [mbind option_bind] in Hloop.
    rewrite (IH s1 Hloop). exact (Hbody _ _ _ Hs1).
Qed.

Lemma net_index_bound (c0 c1 c2 c3 : Z) :
  0 ≤ c0 < 16 → 0 ≤ c1 < 16 → 0 ≤ c2 < 16 → 0 ≤ c3 < 16 →
  0 ≤ net_index c0 c1 c2 c3 < 2 ^ 16.
Proof.
  intros H0 H1 H2 H3. unfold net_index.
  rewrite (lor_shiftl_disjoint c0 c1 4) by lia.
  rewrite (Z.shiftl_mul_pow2 c1 4) by lia.
  rewrite (lor_shiftl_disjoint _ c2 8) by lia.
  rewrite (Z.shiftl_mul_pow2 c2 8) by lia.
  rewrite (lor_shiftl_disjoint _ c3 12) by lia.
  rewrite (Z.shiftl_mul_pow2 c3 12) by lia. lia.
Qed.

Section MoreClaims.
Context {board num : Type} `{!BoardOps board, !NumOps num}.

Lemma close_episode_loop_shape
  (update_net : list (weight num) → board → num → option (list (weight num)))
  (a : num) (boards : list board) (values rewards : list Z) (l : list nat)
  (nt nt' : list (weight num)) :
  (∀ nt b d nt', update_net nt b d = Some nt' → net_shape nt' = net_shape nt) →
  for_each (close_episode_body update_net a boards values rewards) l nt
  = Some nt' →
  net_shape nt' = net_shape nt.
Proof.
  intros Hupd. apply for_each_preserves. intros s i s'.
  unfold close_episode_body.
  destruct (values !! (i + 1)%nat); [| discriminate].
  destruct (rewards !! (i + 1)%nat); [| discriminate].
  destruct (values !! i); [| discriminate].
  destruct (boards !! i); [| discriminate].
  cbn [mbind option_bind]. apply Hupd.
Qed.

(** X1. The table store keeps its shape: [update_net] and [close_episode]
    of either agent return tables with the same number of shards and the same
    shard lengths, and [take_action] returns the tables themselves. *)
Theorem table_shape_is_invariant (st st' : agent_state board num)
  (nt nt' : list (weight num)) (b : board) (d : num) (r : action) :
  (four_tuple_agent.update_net nt b d = Some nt' →
   net_shape nt' = net_shape nt)
  ∧ (six_tuple_agent.update_net nt b d = Some nt' →
     net_shape nt' = net_shape nt)
  ∧ (four_tuple_agent.close_episode st = Some st' →
     net_shape (net st') = net_shape (net st))
  ∧ (six_tuple_agent.close_episode st = Some st' →
     net_shape (net st') = net_shape (net st))
  ∧ (four_tuple_agent.take_action st b = Some (st', r) → net st' = net st)
  ∧ (six_tuple_agent.take_action st b = Some (st', r) → net st' = net st).
Proof.
  assert (H4 : ∀ (n : list (weight num)) b0 d0 n',
            four_tuple_agent.update_net n b0 d0 = Some n' →
            net_shape n' = net_shape n).
  { intros n b0 d0 n'. rewrite four_update_net_entries. apply entries_add_shape. }
  assert (H6 : ∀ (n : list (weight num)) b0 d0 n',
            six_tuple_agent.update_net n b0 d0 = Some n' →
            net_shape n' = net_shape n).
  { intros n b0 d0 n'. rewrite six_update_net_entries. apply entries_add_shape. }
  split; [apply H4 |]. split; [apply H6 |].
  split; [| split; [| split]].
  - unfold four_tuple_agent.close_episode. intros Hclose.
    destruct (for_each _ _ (net st)) as [n1 |] eqn:Hloop; [| discriminate].
    injection Hclose as <-. cbn [net].
    exact (close_episode_loop_shape _ _ _ _ _ _ _ _ H4 Hloop).
  - unfold six_tuple_agent.close_episode. intros Hclose.
    destruct (for_each _ _ (net st)) as [n1 |] eqn:Hloop; [| discriminate].
    injection Hclose as <-. cbn [net].
    exact (close_episode_loop_shape _ _ _ _ _ _ _ _ H6 Hloop).
  - destruct r as [| op]; intros Hta.
    + apply four_take_action_rejected in Hta as ->. reflexivity.
    + apply four_take_action_accepted in Hta as (_ & _ & v & _ & ->).
      reflexivity.
  - destruct r as [| op]; intros Hta.
    + apply six_take_action_rejected in Hta as ->. reflexivity.
    + apply six_take_action_accepted in Hta as (_ & _ & v & _ & ->).
      reflexivity.
Qed.

(** X2. [update_net] changes nothing but the active entries of its board:
    every other entry of the table store reads as before (and reads are
    defined or undefined as before). *)
Theorem update_net_leaves_other_entries (nt nt' : list (weight num))
  (b : board) (d : num) (e : nat * Z) :
  (four_tuple_agent.update_net nt b d = Some nt' →
   e ∉ four_active_entries b →
   net_get nt' e.1 e.2 = net_get nt e.1 e.2)
  ∧ (six_tuple_agent.update_net nt b d = Some nt' →
     e ∉ six_active_entries b →
     net_get nt' e.1 e.2 = net_get nt e.1 e.2).
Proof.
  split; intros Hupd Hnotin.
  - rewrite four_update_net_entries in Hupd.
    exact (entries_add_other _ _ _ _ _ Hnotin Hupd).
  - rewrite six_update_net_entries in Hupd.
    exact (entries_add_other _ _ _ _ _ Hnotin Hupd).
Qed.

(** X3. [update_net(b, d)] runs without an out-of-range access exactly when
    [calculate_state_value(b)] does, whatever [d] is. *)
Theorem update_net_defined_iff_value_defined (nt : list (weight num))
  (b : board) (d : num) :
  (is_Some (four_tuple_agent.update_net nt b d)
   ↔ is_Some (four_tuple_agent.calculate_state_value nt b))
  ∧ (is_Some (six_tuple_agent.update_net nt b d)
     ↔ is_Some (six_tuple_agent.calculate_state_value nt b)).
Proof.
  rewrite four_update_net_entries, four_value_entries,
    six_update_net_entries, six_value_entries.
  rewrite !entries_add_is_Some, !entries_sum_is_Some. split; reflexivity.
Qed.

Lemma six_entry_ok (nt : list (weight num)) (fb : board) (tup : list Z)
  (s : nat) :
  (∀ p, 0 ≤ p < 16 → 0 ≤ cell_at fb p < 16) →
  Forall (λ p, 0 ≤ p < 16) tup → length tup = 6%nat →
  (∃ size, net_shape nt !! s = Some size ∧ 2 ^ 24 ≤ size) →
  entry_ok nt (s, tuple_address fb tup 6).
Proof.
  intros Hcells Htup Hlen (size & Hs & Hsize).
  exists size. split; [exact Hs |]. cbn [snd].
  destruct (tuple_address_prefix fb tup 6) as [_ Hb].
  - eapply Forall_impl; [exact Htup |]. intros p Hp. apply Hcells, Hp.
  - lia.
  - change (2 ^ (4 * Z.of_nat 6)) with (2 ^ 24) in Hb. lia.
Qed.

(** X4. Six-tuple agent: when the table store has 32 shards of at least
    2^24 entries and the 8 variants of the board hold cell values in 0..15,
    neither [calculate_state_value] nor [update_net] leaves the tables. *)
Theorem six_tuple_tables_are_large_enough (nt : list (weight num)) (b : board)
  (d : num) :
  (∀ s, (s < 32)%nat → ∃ size, net_shape nt !! s = Some size ∧ 2 ^ 24 ≤ size) →
  (∀ fb, fb ∈ variants b → ∀ p, 0 ≤ p < 16 → 0 ≤ cell_at fb p < 16) →
  is_Some (six_tuple_agent.calculate_state_value nt b)
  ∧ is_Some (six_tuple_agent.update_net nt b d).
Proof.
  intros Hshards Hcells.
  rewrite six_update_net_entries, six_value_entries.
  rewrite entries_add_is_Some, entries_sum_is_Some.
  assert (Hall : Forall (entry_ok nt) (six_active_entries b)).
  { unfold six_active_entries, variants, six_tuple_agent.tuple_index.
    cbn [imap mjoin list_join app Nat.add Nat.mul compose].
    repeat (apply Forall_cons; split;
            [apply six_entry_ok;
             [apply Hcells; unfold variants;
              repeat (first [apply list_elem_of_here
                            | apply list_elem_of_further])
             | repeat constructor; lia
             | reflexivity
             | apply Hshards; lia] |]).
    apply Forall_nil_2. }
  split; exact Hall.
Qed.

Lemma four_entry_ok (nt : list (weight num)) (s : nat) (c0 c1 c2 c3 : Z) :
  (∃ size, net_shape nt !! s = Some size ∧ 2 ^ 16 ≤ size) →
  0 ≤ c0 < 16 → 0 ≤ c1 < 16 → 0 ≤ c2 < 16 → 0 ≤ c3 < 16 →
  entry_ok nt (s, net_index c0 c1 c2 c3).
Proof.
  intros (size & Hs & Hsize) H0 H1 H2 H3.
  exists size. split; [exact Hs |]. cbn [snd].
  pose proof (net_index_bound c0 c1 c2 c3 H0 H1 H2 H3). lia.
Qed.

(** X5. Four-tuple agent: when the table store has 8 shards of at least
    2^16 entries and the board holds cell values in 0..15, neither
    [calculate_state_value] nor [update_net] leaves the tables. *)
Theorem four_tuple_tables_are_large_enough (nt : list (weight num)) (b : board)
  (d : num) :
  (∀ s, (s < 8)%nat → ∃ size, net_shape nt !! s = Some size ∧ 2 ^ 16 ≤ size) →
  (∀ p, 0 ≤ p < 16 → 0 ≤ cell_at b p < 16) →
  is_Some (four_tuple_agent.calculate_state_value nt b)
  ∧ is_Some (four_tuple_agent.update_net nt b d).
Proof.
  intros Hshards Hcells.
  rewrite four_update_net_entries, four_value_entries.
  rewrite entries_add_is_Some, entries_sum_is_Some.
  assert (Hall : Forall (entry_ok nt) (four_active_entries b)).
  { unfold four_active_entries, four_tuple_entries.
    cbn [seq map mjoin list_join app].
    repeat (apply Forall_cons; split;
            [apply four_entry_ok;
             [apply Hshards; cbn [Nat.add]; lia | apply Hcells; lia ..] |]).
    apply Forall_nil_2. }
  split; exact Hall.
Qed.

End MoreClaims.

(** ** When [take_action] rejects *)

Section Rejection.
Context {board num : Type} `{!BoardOps board, !NumOps num}.

Lemma take_action_loop_keeps_candidate (calc : board → option num)
  (keeps_raw : bool) (b : board) (ops : list Z) (cur0 cur : best board num) :
  best_reward cur0 ≠ -1 →
  for_each (take_action_body_common calc keeps_raw b) ops cur0 = Some cur →
  best_reward cur ≠ -1.
Proof.
  intros Hcand Hloop.
  destruct (take_action_loop_adopted _ _ _ _ _ _ Hloop)
    as [-> | [_ (_ & Hr & _)]]; assumption.
Qed.

(** If the loop ends without a candidate, every direction it tried was
    illegal. *)
Lemma take_action_loop_rejects (calc : board → option num) (keeps_raw : bool)
  (b : board) (ops : list Z) (cur0 cur : best board num) :
  best_reward cur0 = -1 →
  for_each (take_action_body_common calc keeps_raw b) ops cur0 = Some cur →
  best_reward cur = -1 →
  ∀ op, op ∈ ops → ¬ legal b op.
Proof.
  revert cur0. induction ops as [| op0 ops IH]; intros cur0 Hinit Hloop Hend op Hin.
  - apply elem_of_nil in Hin. contradiction.
  - cbn [for_each] in Hloop.
    destruct (take_action_body_common calc keeps_raw b cur0 op0) as [cur1 |]
      eqn:Hstep; [| discriminate].
    cbn [mbind option_bind] in Hloop.
    assert (Hill0 : ¬ legal b op0).
    { intros Hlegal. unfold take_action_body_common in Hstep.
      rewrite bool_decide_eq_false_2 in Hstep by exact Hlegal.
      destruct (calc (slide b op0).1) as [v |]; [| discriminate].
      cbn [mbind option_bind] in Hstep.
      rewrite (bool_decide_eq_true_2 _ Hinit), orb_true_r in Hstep.
      injection Hstep as <-.
      apply take_action_loop_keeps_candidate in Hloop;
        [contradiction | exact Hlegal]. }
    apply elem_of_cons in Hin as [-> | Hin]; [exact Hill0 |].
    rewrite take_action_body_illegal in Hstep by exact Hill0.
    injection Hstep as <-. exact (IH cur0 Hinit Hloop Hend op Hin).
Qed.

(** X6. Whenever [take_action] returns, it rejects exactly when no
    direction is legal; an accepted action slides in a legal direction of
    [opcode].  Both agents. *)
Theorem take_action_rejects_only_without_legal_slide
  (st st' : agent_state board num) (b : board) (r : action) :
  (four_tuple_agent.take_action st b = Some (st', r) →
   (r = action_none ↔ ∀ op, op ∈ opcode → ¬ legal b op)
   ∧ ∀ op, r = action_slide op → op ∈ opcode ∧ legal b op)
  ∧ (six_tuple_agent.take_action st b = Some (st', r) →
     (r = action_none ↔ ∀ op, op ∈ opcode → ¬ legal b op)
     ∧ ∀ op, r = action_slide op → op ∈ opcode ∧ legal b op).
Proof.
  split; intros Hta.
  - split.
    + split.
      * intros ->. unfold four_tuple_agent.take_action in Hta.
        fold (@best_init board num _ _) in Hta.
        rewrite four_take_action_loop in Hta.
        destruct (for_each _ opcode best_init) as [cur |] eqn:Hloop;
          [| discriminate].
        cbn [mbind option_bind] in Hta.
        case_bool_decide as Hr; [discriminate |].
        apply (take_action_loop_rejects _ _ b opcode best_init cur eq_refl
                 Hloop).
        destruct (decide (best_reward cur = -1)); [assumption | contradiction].
      * intros Hnone. unfold four_tuple_agent.take_action in Hta.
        fold (@best_init board num _ _) in Hta.
        rewrite four_take_action_loop, take_action_loop_illegal in Hta
          by exact Hnone.
        cbn in Hta. injection Hta as _ <-. reflexivity.
    + intros op ->.
      apply four_take_action_accepted in Hta as (Hin & Hl & _). auto.
  - split.
    + split.
      * intros ->. unfold six_tuple_agent.take_action in Hta.
        fold (@best_init board num _ _) in Hta.
        rewrite six_take_action_loop in Hta.
        destruct (for_each _ opcode best_init) as [cur |] eqn:Hloop;
          [| discriminate].
        cbn [mbind option_bind] in Hta.
        case_bool_decide as Hr; [discriminate |].
        apply (take_action_loop_rejects _ _ b opcode best_init cur eq_refl
                 Hloop).
        destruct (decide (best_reward cur = -1)); [assumption | contradiction].
      * intros Hnone. unfold six_tuple_agent.take_action in Hta.
        fold (@best_init board num _ _) in Hta.
        rewrite six_take_action_loop, take_action_loop_illegal in Hta
          by exact Hnone.
        cbn in Hta. injection Hta as _ <-. reflexivity.
    + intros op ->.
      apply six_take_action_accepted in Hta as (Hin & Hl & _). auto.
Qed.

End Rejection.

(** ** Metadata *)

Lemma string_app_cons (c : ascii) (s t : string) :
  String c s +:+ t = String c (s +:+ t).
Proof. reflexivity. Qed.

Lemma string_app_nil_l (s : string) : EmptyString +:+ s = s.
Proof. reflexivity. Qed.

Lemma string_app_assoc (s1 s2 s3 : string) :
  (s1 +:+ s2) +:+ s3 = s1 +:+ (s2 +:+ s3).
Proof.
  induction s1 as [| c s1 IH]; [reflexivity |].
  rewrite !string_app_cons, IH. reflexivity.
Qed.

Lemma string_app_nil_r (s : string) : s +:+ EmptyString = s.
Proof.
  induction s as [| c s IH]; [reflexivity |].
  rewrite !string_app_cons, IH. reflexivity.
Qed.

(** A run without white space is read as one token, after what was being
    read. *)
Lemma words_from_token (tok cur : string) :
  string_avoids is_space tok = true →
  cur +:+ tok ≠ EmptyString →
  words_from tok cur = [cur +:+ tok].
Proof.
  revert cur. induction tok as [| c tok IH]; intros cur Hfree Hne.
  - rewrite string_app_nil_r in *. cbn [words_from].
    destruct cur; [contradiction | reflexivity].
  - cbn [string_avoids] in Hfree. apply andb_true_iff in Hfree as [Hc Hfree].
    apply negb_true_iff in Hc. cbn [words_from]. rewrite Hc.
    rewrite IH.
    + rewrite string_app_assoc. reflexivity.
    + exact Hfree.
    + rewrite string_app_assoc. exact Hne.
Qed.

(** A token appended after a space is the last token read. *)
Lemma words_from_snoc (s tok cur : string) :
  is_token tok →
  words_from (s +:+ " " +:+ tok) cur = words_from s cur ++ [tok].
Proof.
  intros [Hne Hfree]. revert cur. induction s as [| c s IH]; intros cur.
  - rewrite string_app_nil_l, string_app_cons, string_app_nil_l.
    cbn [words_from]. change (is_space " ") with true. cbn match.
    rewrite (words_from_token tok EmptyString Hfree Hne).
    destruct cur; reflexivity.
  - rewrite string_app_cons. cbn [words_from].
    destruct (is_space c); [| apply IH].
    destruct cur; rewrite IH; reflexivity.
Qed.

Lemma split_at_key_value (key value : string) :
  string_avoids (λ c, bool_decide (c = "="%char)) key = true →
  split_at "="%char (key +:+ "=" +:+ value) = (key, Some value).
Proof.
  induction key as [| c key IH]; intros Hfree.
  - reflexivity.
  - cbn [string_avoids] in Hfree. apply andb_true_iff in Hfree as [Hc Hfree].
    apply negb_true_iff in Hc. rewrite string_app_cons. cbn [split_at].
    rewrite Hc, (IH Hfree). reflexivity.
Qed.

Lemma agent_new_defaults (args : string) :
  agent_new args
  = foldl (λ meta pair,
             let r := split_at "="%char pair in
             <[r.1 := default pair r.2]> meta)
          (<["role" := "unknown"]> (<["name" := "unknown"]> ∅))
          (words_from args EmptyString).
Proof. reflexivity. Qed.

Lemma foldl_insert_keeps (l : list string) (m : gmap string string)
  (key : string) :
  is_Some (m !! key) →
  is_Some (foldl (λ meta pair,
                    let r := split_at "="%char pair in
                    <[r.1 := default pair r.2]> meta) m l !! key).
Proof.
  revert m. induction l as [| p l IH]; intros m Hm; [exact Hm |].
  cbn [foldl]. apply IH. rewrite lookup_insert_is_Some.
  destruct (decide ((split_at "=" p).1 = key)); [left; assumption |].
  right. split; assumption.
Qed.

(** X7. Every agent has a name and a role: after construction [name()] and
    [role()] return (they never throw), whatever the arguments; with no
    arguments both are ["unknown"]. *)
Theorem agent_name_and_role_are_always_set (args : string) :
  (∃ n r, agent.name (agent_new args) = Done n
          ∧ agent.role (agent_new args) = Done r)
  ∧ agent.name (agent_new "") = Done "unknown"
  ∧ agent.role (agent_new "") = Done "unknown".
Proof.
  split; [| split; reflexivity].
  unfold agent.name, agent.role, agent.property. rewrite agent_new_defaults.
  destruct (foldl_insert_keeps (words_from args EmptyString)
              (<["role" := "unknown"]> (<["name" := "unknown"]> ∅)) "name")
    as [n Hn]; [eexists; reflexivity |].
  destruct (foldl_insert_keeps (words_from args EmptyString)
              (<["role" := "unknown"]> (<["name" := "unknown"]> ∅)) "role")
    as [r Hr]; [eexists; reflexivity |].
  exists n, r. rewrite Hn, Hr. split; reflexivity.
Qed.

(** X8. A later setting wins: when [key=value] is the last token of the
    arguments ([key] free of ['='], the token free of white space), the
    constructed agent has [property(key) = value], whatever came before,
    the defaults of [name] and [role] included. *)
Theorem agent_last_setting_wins (args key value : string) :
  string_avoids (λ c, bool_decide (c = "="%char)) key = true →
  string_avoids is_space (key +:+ "=" +:+ value) = true →
  agent.property (agent_new (args +:+ " " +:+ key +:+ "=" +:+ value)) key
  = Done value.
Proof.
  intros Hkey Htok. unfold agent.property, agent_new.
  rewrite <- string_app_assoc, words_from_snoc.
  - rewrite foldl_app. cbn [foldl].
    rewrite (split_at_key_value key value Hkey). cbn [fst snd default].
    rewrite lookup_insert_eq. reflexivity.
  - split; [| exact Htok]. destruct key; discriminate.
Qed.

(** X9. [notify("key=value")] sets [key] to [value] and leaves every other
    key as it was; a message without ['='] is stored under itself. *)
Theorem notify_sets_one_key (meta : gmap string string) (key value msg : string) :
  (string_avoids (λ c, bool_decide (c = "="%char)) key = true →
   agent.property (agent.notify meta (key +:+ "=" +:+ value)) key = Done value
   ∧ ∀ other, other ≠ key →
       agent.property (agent.notify meta (key +:+ "=" +:+ value)) other
       = agent.property meta other)
  ∧ (string_avoids (λ c, bool_decide (c = "="%char)) msg = true →
     agent.property (agent.notify meta msg) msg = Done msg).
Proof.
  split.
  - intros Hkey. unfold agent.property, agent.notify.
    rewrite (split_at_key_value key value Hkey). cbn [fst snd default].
    split; [rewrite lookup_insert_eq; reflexivity |].
    intros other Hother. rewrite lookup_insert_ne by congruence. reflexivity.
  - intros Hmsg. unfold agent.property, agent.notify.
    assert (Hsplit : split_at "="%char msg = (msg, None)).
    { induction msg as [| c msg IH]; [reflexivity |].
      cbn [string_avoids] in Hmsg. apply andb_true_iff in Hmsg as [Hc Hmsg].
      apply negb_true_iff in Hc. cbn [split_at]. rewrite Hc, (IH Hmsg).
      reflexivity. }
    rewrite Hsplit. cbn [fst snd default]. rewrite lookup_insert_eq.
    reflexivity.
Qed.

(** ** Initialising the tables *)

Lemma is_digit_not_space (c : ascii) : is_digit c = true → is_space c = false.
Proof.
  unfold is_digit, is_space. intros Hd. apply bool_decide_eq_true in Hd.
  rewrite !bool_decide_eq_false_2 by lia. reflexivity.
Qed.

Lemma number_avoids_space (t : string) :
  string_avoids (λ c, negb (is_digit c)) t = true →
  string_avoids is_space t = true.
Proof.
  induction t as [| c t IH]; [reflexivity |]. cbn [string_avoids].
  intros Hd. apply andb_true_iff in Hd as [Hc Hd].
  rewrite negb_involutive in Hc.
  rewrite (is_digit_not_space c Hc), (IH Hd). reflexivity.
Qed.

Lemma blank_non_digits_number (t : string) :
  string_avoids (λ c, negb (is_digit c)) t = true → blank_non_digits t = t.
Proof.
  induction t as [| c t IH]; [reflexivity |]. cbn [string_avoids].
  intros Hd. apply andb_true_iff in Hd as [Hc Hd].
  rewrite negb_involutive in Hc.
  cbn [blank_non_digits]. rewrite Hc, (IH Hd). reflexivity.
Qed.

Lemma blank_non_digits_app (s t : string) :
  blank_non_digits (s +:+ t) = blank_non_digits s +:+ blank_non_digits t.
Proof.
  induction s as [| c s IH]; [reflexivity |].
  rewrite string_app_cons. cbn [blank_non_digits].
  rewrite IH, string_app_cons. reflexivity.
Qed.

(** A run without white space in front of [s] joins what was being read. *)
Lemma words_from_run (tok s cur : string) :
  string_avoids is_space tok = true →
  words_from (tok +:+ s) cur = words_from s (cur +:+ tok).
Proof.
  revert cur. induction tok as [| c tok IH]; intros cur Hfree.
  - rewrite string_app_nil_l, string_app_nil_r. reflexivity.
  - cbn [string_avoids] in Hfree. apply andb_true_iff in Hfree as [Hc Hfree].
    apply negb_true_iff in Hc. rewrite string_app_cons. cbn [words_from].
    rewrite Hc, (IH _ Hfree), string_app_assoc. reflexivity.
Qed.

Lemma words_from_numbers (sep : ascii) (ts : list string) :
  is_digit sep = false → Forall is_number ts →
  words_from (blank_non_digits (join_with sep ts)) EmptyString = ts.
Proof.
  intros Hsep Hts. induction Hts as [| t ts [Hne Hd] Hts IH]; [reflexivity |].
  destruct ts as [| t' ts].
  - cbn [join_with]. rewrite (blank_non_digits_number t Hd).
    apply (words_from_token t EmptyString (number_avoids_space t Hd) Hne).
  - change (join_with sep (t :: t' :: ts))
      with (t +:+ String sep (join_with sep (t' :: ts))).
    rewrite blank_non_digits_app, (blank_non_digits_number t Hd).
    cbn [blank_non_digits]. rewrite Hsep.
    rewrite (words_from_run t _ _ (number_avoids_space t Hd)).
    rewrite string_app_nil_l. cbn [words_from].
    change (is_space " ") with true. cbn match.
    destruct t as [| c t]; [contradiction |]. rewrite IH. reflexivity.
Qed.

Lemma digits_value_number (t : string) (acc : Z) :
  string_avoids (λ c, negb (is_digit c)) t = true →
  is_Some (digits_value acc t).
Proof.
  revert acc. induction t as [| c t IH]; intros acc Hd; [eexists; reflexivity |].
  cbn [string_avoids] in Hd. apply andb_true_iff in Hd as [Hc Hd].
  rewrite negb_involutive in Hc. unfold is_digit in Hc.
  cbn [digits_value]. rewrite Hc. apply IH, Hd.
Qed.

Lemma emplace_sizes_numbers {num : Type} `{!WeightIO num} (ts : list string)
  (nt : list (weight num)) :
  Forall is_number ts →
  emplace_sizes ts nt
  = if forallb weight_fits (sizes_that_fit (number_value <$> ts))
    then Done (nt ++ (weight_new <$> sizes_that_fit (number_value <$> ts)))
    else Throws.
Proof.
  intros Hts. revert nt.
  induction Hts as [| t ts [Hne Hd] Hts IH]; intros nt.
  - cbn. rewrite app_nil_r. reflexivity.
  - destruct (digits_value_number t 0 Hd) as [v Hv].
    assert (Hnv : number_value t = v)
      by (unfold number_value; rewrite Hv; reflexivity).
    cbn [emplace_sizes fmap list_fmap sizes_that_fit]. rewrite Hv, Hnv.
    case_bool_decide.
    + cbn [forallb fmap list_fmap]. destruct (weight_fits v); cbn [andb].
      * rewrite IH, <- app_assoc. reflexivity.
      * reflexivity.
    + cbn. rewrite app_nil_r. reflexivity.
Qed.

(** X10. [init_weights] on a list of decimal numbers separated by any
    character that is not a digit considers the numbers up to the first one
    that does not fit 64 bits.  If the platform grants a shard of each of
    these lengths, it appends one shard per number, of that length and
    filled with zeros, after the shards already there (an empty list adds
    nothing); if it refuses one, the exception of the constructor escapes. *)
Theorem init_weights_appends_zero_shards {num : Type}
  `{!NumOps num, !WeightIO num}
  (sep : ascii) (ts : list string) (nt : list (weight num)) :
  is_digit sep = false → Forall is_number ts →
  let sizes := sizes_that_fit (number_value <$> ts) in
  (Forall (λ len, weight_fits len = true) sizes →
   init_weights (join_with sep ts) nt = Done (nt ++ (weight_new <$> sizes)))
  ∧ (Exists (λ len, weight_fits len = false) sizes →
     init_weights (join_with sep ts) nt = Throws)
  ∧ (∀ size idx, 0 ≤ idx < size →
       weight_get (weight_new size : weight num) idx = Some (num_of_Z 0)).
Proof.
  intros Hsep Hts sizes.
  assert (Hinit : init_weights (join_with sep ts) nt
                  = if forallb weight_fits sizes
                    then Done (nt ++ (weight_new <$> sizes)) else Throws).
  { unfold init_weights. rewrite (words_from_numbers sep ts Hsep Hts).
    apply emplace_sizes_numbers, Hts. }
  split; [| split].
  - intros Hall. rewrite Hinit.
    rewrite (proj2 (forallb_forall weight_fits sizes)); [reflexivity |].
    intros len Hin. apply (proj1 (Forall_forall _ _) Hall).
    apply list_elem_of_In, Hin.
  - intros Hex. rewrite Hinit.
    destruct (forallb weight_fits sizes) eqn:Hall; [| reflexivity].
    exfalso. apply Exists_exists in Hex as (len & Hin & Hno).
    rewrite (proj1 (forallb_forall weight_fits sizes) Hall len) in Hno
      by (apply list_elem_of_In, Hin).
    discriminate.
  - intros size idx Hidx. unfold weight_get, weight_new.
    cbn [weight_size weight_value].
    rewrite bool_decide_eq_true_2 by exact Hidx. rewrite lookup_empty.
    reflexivity.
Qed.

(** ["16,16"] gives two shards of 16 zeros; a first number of 2^64 gives no
    shard at all; a length of 2^64 - 1, which no array has, throws. *)
Lemma init_weights_appends_zero_shards_witness :
  init_weights "16,16" ([] : list (weight Qc))
  = Done ([] ++ (weight_new <$> sizes_that_fit (number_value <$> ["16"; "16"])))
  ∧ init_weights "18446744073709551616x16" ([] : list (weight Qc))
    = Done ([] ++ (weight_new
                   <$> sizes_that_fit
                         (number_value <$> ["18446744073709551616"; "16"])))
  ∧ init_weights "4,18446744073709551615,7" ([] : list (weight Qc)) = Throws.
Proof.
  split; [| split].
  - refine (proj1 (@init_weights_appends_zero_shards Qc Qc_num demo_weight_io
                     ","%char ["16"; "16"] [] eq_refl _) _).
    + repeat constructor; discriminate.
    + repeat constructor.
  - refine (proj1 (@init_weights_appends_zero_shards Qc Qc_num demo_weight_io
                     "x"%char ["18446744073709551616"; "16"] [] eq_refl _) _).
    + repeat constructor; discriminate.
    + constructor.
  - assert (Hnum : Forall is_number ["4"; "18446744073709551615"; "7"])
      by (repeat constructor; discriminate).
    assert (Hex : Exists (λ len, @weight_fits Qc demo_weight_io len = false)
                    (sizes_that_fit
                       (number_value
                        <$> ["4"; "18446744073709551615"; "7"])))
      by (apply (bool_decide_unpack _); vm_compute; exact I).
    exact (proj1 (proj2 (@init_weights_appends_zero_shards Qc Qc_num
                           demo_weight_io ","%char
                           ["4"; "18446744073709551615"; "7"] [] eq_refl
                           Hnum)) Hex).
Defined.

(** ** Saving and loading *)

Section RoundTrip.
Context {num : Type} `{!WeightIO num}.

Lemma read_each_written (nt olds : list (weight num)) (rest : list byte) :
  length olds = length nt →
  (∀ w w0 input, w ∈ nt → weight_read w0 (weight_write w ++ input) = (w, input)) →
  read_each olds (mjoin (weight_write <$> nt) ++ rest) = (nt, rest).
Proof.
  revert olds. induction nt as [| w nt IH]; intros olds Hlen Hcodec.
  - destruct olds; [reflexivity | discriminate].
  - destruct olds as [| w0 olds]; [discriminate |].
    cbn [fmap list_fmap mjoin list_join read_each].
    rewrite <- app_assoc, (Hcodec w w0 _ (list_elem_of_here _ _)).
    cbn [fst snd]. rewrite IH.
    + reflexivity.
    + cbn [length] in Hlen. lia.
    + intros w' w0' input Hin. apply Hcodec, list_elem_of_further, Hin.
Qed.

(** X11. Saving and then loading gives the table store back: when the path
    opens for writing, the shard count survives its 4-byte encoding, and
    [in >> w] reads back what [out << w] wrote for every shard of the store,
    [load_weights] on the saved file returns the saved shards, whatever
    the agent held before. *)
Theorem save_then_load_restores_tables (fs : filesystem) (path : string)
  (nt old : list (weight num)) :
  let count := Z.of_nat (length nt) mod 2 ^ 32 in
  fs_writable fs path = true →
  length (u32_encode count) = 4%nat →
  Z.to_nat (u32_decode (u32_encode count)) = length nt →
  (∀ w w0 input, w ∈ nt → weight_read w0 (weight_write w ++ input) = (w, input)) →
  ∃ fs', save_weights fs path nt = Done fs'
    ∧ load_weights fs' path old = Done nt.
Proof.
  intros count Hrw Hlen Hcount Hcodec.
  unfold save_weights. rewrite Hrw. eexists. split; [reflexivity |].
  unfold load_weights. cbn [fs_files]. rewrite lookup_insert_eq.
  rewrite foldl_write_shards. fold count.
  rewrite bool_decide_eq_false_2 by (rewrite length_app; lia).
  rewrite take_app_length' by (symmetry; exact Hlen).
  rewrite drop_app_length' by (symmetry; exact Hlen).
  rewrite Hcount.
  rewrite <- (app_nil_r (mjoin (weight_write <$> nt))).
  rewrite read_each_written.
  - reflexivity.
  - apply length_resize.
  - exact Hcodec.
Qed.

End RoundTrip.

(** ** The sliders without learned state *)

Section Sliders.
Context {board : Type} `{!BoardOps board}.

(** X12. [heuristic_slider] rejects exactly when no slide returns more than
    -1; otherwise it slides in a legal direction whose reward no other
    direction exceeds, and every direction enumerated before it has a
    strictly smaller reward. *)
Theorem heuristic_slider_takes_first_best_reward (before : board) :
  (heuristic_slider.take_action before = action_none
   ↔ ∀ op, op ∈ opcode → (slide before op).2 ≤ -1)
  ∧ ∀ j, heuristic_slider.take_action before = action_slide j →
      j ∈ opcode ∧ legal before j
      ∧ ∀ i, i ∈ opcode →
          (slide before i).2 ≤ (slide before j).2
          ∧ (i < j → (slide before i).2 < (slide before j).2).
Proof.
  unfold heuristic_slider.take_action, heuristic_slider.take_action_body,
    legal, opcode.
  cbn [foldl fst snd].
  set (r0 := (slide before 0).2). set (r1 := (slide before 1).2).
  set (r2 := (slide before 2).2). set (r3 := (slide before 3).2).
  assert (Hops : ∀ (P : Z → Prop),
            (∀ op, op ∈ [0; 1; 2; 3] → P op) ↔ P 0 ∧ P 1 ∧ P 2 ∧ P 3).
  { intros P. split.
    - intros H. repeat split; apply H;
        repeat (first [apply list_elem_of_here | apply list_elem_of_further]).
    - intros (H0 & H1 & H2 & H3) op Hin.
      repeat (apply elem_of_cons in Hin as [-> | Hin]; [assumption |]).
      apply elem_of_nil in Hin. contradiction. }
  split.
  - rewrite (Hops (λ op, (slide before op).2 ≤ -1)).
    fold r0 r1 r2 r3.
    repeat (case_bool_decide; cbn [fst snd] in * );
      split; intros H'; try discriminate; try reflexivity; try lia.
  - intros j.
    rewrite (Hops (λ i, (slide before i).2 ≤ (slide before j).2
                        ∧ (i < j → (slide before i).2 < (slide before j).2))).
    repeat (case_bool_decide; cbn [fst snd] in * );
      intros [= <-]; fold r0 r1 r2 r3; try (exfalso; lia);
      (split;
       [repeat (first [apply list_elem_of_here | apply list_elem_of_further])
       | lia]).
Qed.

End Sliders.

Section RandomSlider.
Context {board engine : Type} `{!BoardOps board, !Shuffle engine}
  `{!ShuffleLaw engine}.

Lemma first_legal_none (before : board) (ops : list Z) :
  random_slider.first_legal before ops = action_none
  ↔ ∀ op, op ∈ ops → ¬ legal before op.
Proof.
  unfold legal. induction ops as [| op ops IH]; cbn [random_slider.first_legal].
  - split; [| reflexivity]. intros _ op Hin.
    apply elem_of_nil in Hin. contradiction.
  - case_bool_decide as Hop.
    + split; [discriminate |]. intros H'. exfalso.
      exact (H' op (list_elem_of_here _ _) Hop).
    + rewrite IH. split.
      * intros H' op' Hin. apply elem_of_cons in Hin as [-> | Hin].
        -- intros Hne. exact (Hne Hop).
        -- exact (H' op' Hin).
      * intros H' op' Hin. exact (H' op' (list_elem_of_further _ _ _ Hin)).
Qed.

Lemma first_legal_slide (before : board) (ops : list Z) (j : Z) :
  random_slider.first_legal before ops = action_slide j →
  j ∈ ops ∧ legal before j.
Proof.
  unfold legal. induction ops as [| op ops IH]; cbn [random_slider.first_legal].
  - discriminate.
  - case_bool_decide as Hop.
    + intros [= <-]. split; [apply list_elem_of_here | exact Hop].
    + intros H'. destruct (IH H') as [Hin Hj].
      split; [apply list_elem_of_further; exact Hin | exact Hj].
Qed.

(** X13. [random_slider]: every call leaves [opcode] a rearrangement of the
    four directions; the call rejects exactly when no direction is legal,
    and a direction it returns is legal. *)
Theorem random_slider_returns_legal_direction
  (st st' : random_slider.state) (before : board) (a : action) :
  random_slider.opcode st ≡ₚ opcode →
  random_slider.take_action st before = (st', a) →
  random_slider.opcode st' ≡ₚ opcode
  ∧ (a = action_none ↔ ∀ op, op ∈ opcode → ¬ legal before op)
  ∧ ∀ j, a = action_slide j → j ∈ opcode ∧ legal before j.
Proof.
  intros Hperm. unfold random_slider.take_action. intros [= <- <-].
  cbn [random_slider.opcode].
  pose proof (shuffle_permutation (random_slider.engine_state st)
                (random_slider.opcode st)) as Hsh.
  assert (Hall : (shuffle (random_slider.engine_state st)
                    (random_slider.opcode st)).1 ≡ₚ opcode)
    by (etransitivity; [exact Hsh | exact Hperm]).
  split; [exact Hall |]. split.
  - rewrite first_legal_none. split; intros H' op Hin; apply H'.
    + rewrite Hall. exact Hin.
    + rewrite <- Hall. exact Hin.
  - intros j Hj. apply first_legal_slide in Hj as [Hin Hlegal].
    split; [rewrite <- Hall; exact Hin | exact Hlegal].
Qed.

End RandomSlider.

#[global] Instance demo_shuffle_law : ShuffleLaw nat.
Proof.
  constructor. intros e l. cbn [shuffle demo_shuffle fst].
  apply reverse_Permutation.
Qed.

(** ** heuristic_slider_kai *)

Lemma squares_spec (r c : Z) :
  (r, c) ∈ squares ↔ 0 ≤ r < 4 ∧ 0 ≤ c < 4.
Proof.
  split.
  - intros Hin. vm_compute in Hin.
    repeat (apply elem_of_cons in Hin as [Heq | Hin];
            [pose proof (f_equal fst Heq) as Hr;
             pose proof (f_equal snd Heq) as Hc; cbn [fst snd] in Hr, Hc; lia
            |]).
    apply elem_of_nil in Hin. contradiction.
  - intros [Hr Hc].
    assert (Hr' : r = 0 ∨ r = 1 ∨ r = 2 ∨ r = 3) by lia.
    assert (Hc' : c = 0 ∨ c = 1 ∨ c = 2 ∨ c = 3) by lia.
    destruct Hr' as [Hr' | [Hr' | [Hr' | Hr']]];
      destruct Hc' as [Hc' | [Hc' | [Hc' | Hc']]]; rewrite Hr', Hc';
      apply (bool_decide_unpack _); vm_compute; exact I.
Qed.

Lemma unvisited_mono (v v' : gset (Z * Z)) :
  v ⊆ v' → (unvisited v' ≤ unvisited v)%nat.
Proof.
  intros Hsub. unfold unvisited. apply subseteq_size.
  intros x. rewrite !elem_of_difference. intros [Hx Hnot].
  split; [exact Hx |]. intros Hv. apply Hnot, Hsub, Hv.
Qed.

Lemma unvisited_visit (v : gset (Z * Z)) (rc : Z * Z) :
  rc ∈ squares → rc ∉ v → S (unvisited ({[ rc ]} ∪ v)) = unvisited v.
Proof.
  intros Hin Hnot. unfold unvisited.
  assert (Heq : (list_to_set squares ∖ v : gset (Z * Z))
                = {[ rc ]} ∪ (list_to_set squares ∖ ({[ rc ]} ∪ v))).
  { apply set_eq. intros x. rewrite !elem_of_union, !elem_of_difference,
      !elem_of_union, !elem_of_singleton, !elem_of_list_to_set.
    destruct (decide (x = rc)) as [-> | Hne]; [tauto | tauto]. }
  rewrite Heq.
  pose proof (size_union (C := gset (Z * Z)) {[ rc ]}
                (list_to_set squares ∖ ({[ rc ]} ∪ v))) as Hsize.
  rewrite Hsize, size_singleton; [reflexivity |].
  intros x Hx Hx'. apply elem_of_difference in Hx' as [_ Hx'].
  apply Hx', elem_of_union. left. exact Hx.
Qed.

Lemma unvisited_empty : unvisited ∅ = 16%nat.
Proof. vm_compute. reflexivity. Qed.

Section Kai.
Context {board num : Type} `{!BoardOps board, !BoardRows board, !NumOps num}.

Lemma unvisited_le_16 (v : gset (Z * Z)) : (unvisited v ≤ 16)%nat.
Proof.
  rewrite <- unvisited_empty. apply unvisited_mono.
  intros x Hx. apply elem_of_empty in Hx. contradiction.
Qed.

Lemma search_spec (call : gset (Z * Z) → Z → Z → option (Z * gset (Z * Z)))
  (after : board) (fuel : nat) (v0 : gset (Z * Z)) (r c : Z) (inside : bool)
  (r' c' : Z) (cur : Z * gset (Z * Z)) :
  (∀ v r c, 0 ≤ r < 4 → 0 ≤ c < 4 → (r, c) ∉ v → (unvisited v ≤ fuel)%nat →
     ∃ len v', call v r c = Some (len, v') ∧ v ⊆ v' ∧ 0 ≤ len
       ∧ len + Z.of_nat (unvisited v') ≤ Z.of_nat (unvisited v)) →
  (inside = true → 0 ≤ r' < 4 ∧ 0 ≤ c' < 4) →
  (unvisited v0 ≤ fuel)%nat →
  v0 ⊆ cur.2 → 0 ≤ cur.1 →
  cur.1 + Z.of_nat (unvisited cur.2) ≤ Z.of_nat (unvisited v0) →
  ∃ cur', heuristic_slider_kai.search call after r c inside r' c' cur
          = Some cur'
    ∧ v0 ⊆ cur'.2 ∧ 0 ≤ cur'.1
    ∧ cur'.1 + Z.of_nat (unvisited cur'.2) ≤ Z.of_nat (unvisited v0).
Proof.
  intros Hcall Hinside Hfuel Hsub Hpos Hsum.
  unfold heuristic_slider_kai.search.
  destruct inside; cbn [andb]; [| exists cur; auto].
  destruct (heuristic_slider_kai.continues after cur.2 r c r' c') eqn:Hcont;
    [| exists cur; auto].
  unfold heuristic_slider_kai.continues in Hcont.
  apply andb_true_iff in Hcont as [Hnew _].
  apply bool_decide_eq_true in Hnew.
  destruct (Hinside eq_refl) as [Hr' Hc'].
  pose proof (unvisited_mono _ _ Hsub) as Hmono.
  destruct (Hcall cur.2 r' c' Hr' Hc' Hnew ltac:(lia))
    as (len & v' & Hres & Hsub' & Hlen & Hsum').
  rewrite Hres. cbn [mbind option_bind fst snd].
  eexists. split; [reflexivity |]. cbn [fst snd].
  pose proof (unvisited_mono _ _ Hsub') as Hmono'.
  split; [etransitivity; eassumption |].
  case_bool_decide; lia.
Qed.

Lemma find_monotonic_structure_spec (after : board) (fuel : nat) :
  ∀ v r c, 0 ≤ r < 4 → 0 ≤ c < 4 → (r, c) ∉ v → (unvisited v ≤ fuel)%nat →
    ∃ len v',
      heuristic_slider_kai.find_monotonic_structure fuel after v r c
      = Some (len, v')
      ∧ {[ (r, c) ]} ∪ v ⊆ v'
      ∧ (len = 0 ↔ tile_at after r c = 0)
      ∧ 0 ≤ len
      ∧ len + Z.of_nat (unvisited v') ≤ Z.of_nat (unvisited v).
Proof.
  induction fuel as [| fuel IH]; intros v r c Hr Hc Hnew Hfuel.
  - pose proof (unvisited_visit v (r, c) (proj2 (squares_spec r c)
                                           (conj Hr Hc)) Hnew). lia.
  - pose proof (unvisited_visit v (r, c) (proj2 (squares_spec r c)
                                           (conj Hr Hc)) Hnew) as Hvisit.
    cbn [heuristic_slider_kai.find_monotonic_structure].
    set (v0 := {[ (r, c) ]} ∪ v) in *.
    case_bool_decide as Htile.
    + exists 0, v0. repeat split; try reflexivity; try assumption; lia.
    + set (call := heuristic_slider_kai.find_monotonic_structure fuel after).
      assert (Hcall : ∀ v r c, 0 ≤ r < 4 → 0 ≤ c < 4 → (r, c) ∉ v →
                (unvisited v ≤ fuel)%nat →
                ∃ len v', call v r c = Some (len, v') ∧ v ⊆ v' ∧ 0 ≤ len
                  ∧ len + Z.of_nat (unvisited v') ≤ Z.of_nat (unvisited v)).
      { intros v1 r1 c1 Hr1 Hc1 Hnew1 Hfuel1.
        destruct (IH v1 r1 c1 Hr1 Hc1 Hnew1 Hfuel1)
          as (len & v' & Hres & Hsub & _ & Hlen & Hsum).
        exists len, v'. repeat split; try assumption.
        etransitivity; [| exact Hsub]. apply union_subseteq_r. }
      assert (Hfuel0 : (unvisited v0 ≤ fuel)%nat) by lia.
      destruct (search_spec call after fuel v0 r c (bool_decide (r - 1 >= 0))
                  (r - 1) c (0, v0) Hcall)
        as (cur1 & -> & Hsub1 & Hpos1 & Hsum1);
        [intros Hin; apply bool_decide_eq_true in Hin; lia
        | exact Hfuel0 | reflexivity | cbn [fst]; lia | cbn [fst snd]; lia |].
      cbn [mbind option_bind].
      destruct (search_spec call after fuel v0 r c (bool_decide (c + 1 < 4))
                  r (c + 1) cur1 Hcall)
        as (cur2 & -> & Hsub2 & Hpos2 & Hsum2);
        [intros Hin; apply bool_decide_eq_true in Hin; lia
        | exact Hfuel0 | exact Hsub1 | exact Hpos1 | exact Hsum1 |].
      cbn [mbind option_bind].
      destruct (search_spec call after fuel v0 r c (bool_decide (r + 1 < 4))
                  (r + 1) c cur2 Hcall)
        as (cur3 & -> & Hsub3 & Hpos3 & Hsum3);
        [intros Hin; apply bool_decide_eq_true in Hin; lia
        | exact Hfuel0 | exact Hsub2 | exact Hpos2 | exact Hsum2 |].
      cbn [mbind option_bind].
      destruct (search_spec call after fuel v0 r c (bool_decide (c - 1 >= 0))
                  r (c - 1) cur3 Hcall)
        as (cur4 & -> & Hsub4 & Hpos4 & Hsum4);
        [intros Hin; apply bool_decide_eq_true in Hin; lia
        | exact Hfuel0 | exact Hsub3 | exact Hpos3 | exact Hsum3 |].
      cbn [mbind option_bind].
      exists (cur4.1 + 1), cur4.2.
      split; [reflexivity |]. split; [exact Hsub4 |].
      split; [split; [lia | intros Hz; contradiction] |]. lia.
Qed.

(** X14. [find_monotonic_structure] returns for every start square whose
    flag is clear, whatever flags are set elsewhere: the recursion is at
    most 16 deep, the length is between 0 and the number of squares with a
    clear flag, it is 0 exactly on an empty square, and no flag is ever
    cleared. *)
Theorem find_monotonic_structure_returns_bounded_length (after : board)
  (visited : gset (Z * Z)) (r c : Z) :
  0 ≤ r < 4 → 0 ≤ c < 4 → (r, c) ∉ visited →
  ∃ len visited',
    heuristic_slider_kai.find_monotonic_structure 16 after visited r c
    = Some (len, visited')
    ∧ 0 ≤ len ≤ Z.of_nat (unvisited visited) ≤ 16
    ∧ (len = 0 ↔ tile_at after r c = 0)
    ∧ {[ (r, c) ]} ∪ visited ⊆ visited'.
Proof.
  intros Hr Hc Hnew.
  pose proof (unvisited_le_16 visited) as H16.
  destruct (find_monotonic_structure_spec after 16 visited r c Hr Hc Hnew H16)
    as (len & v' & Hres & Hsub & Hzero & Hlen & Hsum).
  exists len, v'. repeat split; try assumption; try lia; apply Hzero.
Qed.

Lemma find_monotonic_structure_from_clear_flags (after : board) (r c : Z) :
  0 ≤ r < 4 → 0 ≤ c < 4 →
  ∃ len v',
    heuristic_slider_kai.find_monotonic_structure 16 after ∅ r c
    = Some (len, v')
    ∧ 0 ≤ len ≤ 16 ∧ (len = 0 ↔ tile_at after r c = 0).
Proof.
  intros Hr Hc.
  destruct (find_monotonic_structure_spec after 16 ∅ r c Hr Hc
              (not_elem_of_empty _) (unvisited_le_16 ∅))
    as (len & v' & Hres & _ & Hzero & Hlen & Hsum).
  pose proof (unvisited_le_16 ∅). exists len, v'.
  split; [exact Hres |]. split; [lia | exact Hzero].
Qed.

Lemma longest_structure_loop (after : board) (l : list (Z * Z)) :
  (∀ rc, rc ∈ l → rc ∈ squares) →
  ∀ best_len, ∃ len,
    for_each
      (λ best_len rc,
         res ← heuristic_slider_kai.find_monotonic_structure 16 after ∅
                 rc.1 rc.2;
         Some (if bool_decide (res.1 > best_len) then res.1 else best_len))
      l best_len = Some len
    ∧ best_len ≤ len ≤ Z.max best_len 16
    ∧ ∀ rc, rc ∈ l → tile_at after rc.1 rc.2 ≠ 0 → 1 ≤ len.
Proof.
  induction l as [| [r c] l IH]; intros Hin best_len; cbn [for_each].
  - exists best_len. split; [reflexivity |]. split; [lia |].
    intros rc Hrc. apply elem_of_nil in Hrc. contradiction.
  - assert (Hrc : 0 ≤ r < 4 ∧ 0 ≤ c < 4)
      by (apply squares_spec, Hin, list_elem_of_here).
    destruct (find_monotonic_structure_from_clear_flags after r c
                (proj1 Hrc) (proj2 Hrc))
      as (len & v' & Hres & Hlen & Hzero).
    cbn [fst snd]. rewrite Hres. cbn [mbind option_bind fst].
    destruct (IH (λ rc H', Hin rc (list_elem_of_further _ _ _ H'))
                (if bool_decide (len > best_len) then len else best_len))
      as (len' & -> & Hbound & Hsome).
    exists len'. split; [reflexivity |].
    split; [case_bool_decide; lia |].
    intros rc Hrc'. apply elem_of_cons in Hrc' as [-> | Hrc'].
    + cbn [fst snd]. intros Htile.
      assert (len ≠ 0) by (intros Hz; apply Htile, Hzero, Hz).
      case_bool_decide; lia.
    + apply Hsome, Hrc'.
Qed.

Lemma longest_structure_spec (after : board) (best_len : Z) :
  ∃ len, heuristic_slider_kai.longest_structure after best_len = Some len
    ∧ best_len ≤ len ≤ Z.max best_len 16
    ∧ ∀ r c, 0 ≤ r < 4 → 0 ≤ c < 4 → tile_at after r c ≠ 0 → 1 ≤ len.
Proof.
  destruct (longest_structure_loop after squares (λ rc H', H') best_len)
    as (len & Hres & Hbound & Hsome).
  exists len. split; [exact Hres |]. split; [exact Hbound |].
  intros r c Hr Hc. apply (Hsome (r, c)), squares_spec. split; assumption.
Qed.

Lemma find_empty_squares_loop (after : board) (l : list Z) :
  ∀ count,
    count
    ≤ foldl (λ empty_square_count i,
               if bool_decide (cell_at after i = 0)
               then empty_square_count + 1 else empty_square_count)
            count l
    ≤ count + Z.of_nat (length l).
Proof.
  induction l as [| i l IH]; intros count; cbn [foldl length].
  - lia.
  - case_bool_decide.
    + specialize (IH (count + 1)). lia.
    + specialize (IH count). lia.
Qed.

Lemma find_empty_squares_bound (after : board) :
  0 ≤ heuristic_slider_kai.find_empty_squares after ≤ 16.
Proof.
  unfold heuristic_slider_kai.find_empty_squares.
  pose proof (find_empty_squares_loop after (Z.of_nat <$> seq 0 16) 0) as H'.
  rewrite length_fmap, length_seq in H'. lia.
Qed.

Lemma outcome_bind_Done {A B : Type} (f : A → outcome B) (a : A) :
  Done a ≫= f = f a.
Proof. reflexivity. Qed.

Lemma int_result_Done (z : Z) :
  - 2 ^ 31 ≤ z < 2 ^ 31 → int_result z = Done z.
Proof.
  intros Hz. unfold int_result. rewrite bool_decide_eq_true_2; [reflexivity |].
  exact Hz.
Qed.

(** One iteration of the loop of [take_action], when the sums stay within
    [int]. *)
Lemma kai_take_action_body (ec mc : Z) (before : board)
  (cur : heuristic_slider_kai.locals) (op : Z) :
  0 ≤ ec → 0 ≤ mc → 16 * ec < 2 ^ 31 → 16 * mc < 2 ^ 31 →
  - 2 ^ 31 ≤ (slide before op).2 →
  (slide before op).2 + 16 * ec + 16 * mc < 2 ^ 31 →
  0 ≤ heuristic_slider_kai.best_len cur ≤ 16 →
  ∃ len,
    let reward :=
      (slide before op).2
      + heuristic_slider_kai.find_empty_squares (slide before op).1 * ec
      + len * mc in
    heuristic_slider_kai.take_action_body ec mc before cur op
    = Done (if bool_decide (reward > heuristic_slider_kai.best_reward cur)
            then heuristic_slider_kai.Locals reward op len
            else heuristic_slider_kai.Locals
                   (heuristic_slider_kai.best_reward cur)
                   (heuristic_slider_kai.best_action cur) len)
    ∧ heuristic_slider_kai.best_len cur ≤ len ≤ 16
    ∧ ∀ r c, 0 ≤ r < 4 → 0 ≤ c < 4 →
        tile_at (slide before op).1 r c ≠ 0 → 1 ≤ len.
Proof.
  intros Hec Hmc Hec' Hmc' Hlow Hhigh Hlen.
  pose proof (find_empty_squares_bound (slide before op).1) as Hempty.
  destruct (longest_structure_spec (slide before op).1
              (heuristic_slider_kai.best_len cur))
    as (len & Hres & Hbound & Hsome).
  exists len. split; [| split; [lia | exact Hsome]].
  assert (H1 : int_result (heuristic_slider_kai.find_empty_squares (slide before op).1 * ec) = Done (heuristic_slider_kai.find_empty_squares (slide before op).1 * ec))
    by (apply int_result_Done; nia).
  assert (H2 : int_result ((slide before op).2 + heuristic_slider_kai.find_empty_squares (slide before op).1 * ec) = Done ((slide before op).2 + heuristic_slider_kai.find_empty_squares (slide before op).1 * ec))
    by (apply int_result_Done; nia).
  assert (H3 : int_result (len * mc) = Done (len * mc))
    by (apply int_result_Done; nia).
  assert (H4 : int_result ((slide before op).2 + heuristic_slider_kai.find_empty_squares (slide before op).1 * ec + len * mc) = Done ((slide before op).2 + heuristic_slider_kai.find_empty_squares (slide before op).1 * ec + len * mc))
    by (apply int_result_Done; nia).
  unfold heuristic_slider_kai.take_action_body.
  rewrite H1, outcome_bind_Done.
  rewrite H2, outcome_bind_Done.
  rewrite Hres, outcome_bind_Done.
  rewrite H3, outcome_bind_Done.
  rewrite H4, outcome_bind_Done.
  exact eq_refl.
Qed.

Lemma kai_take_action_loop_cons (ec mc : Z) (before : board) (op : Z)
  (ops : list Z) (cur : heuristic_slider_kai.locals) :
  heuristic_slider_kai.take_action_loop ec mc before (op :: ops) cur
  = heuristic_slider_kai.take_action_body ec mc before cur op
    ≫= heuristic_slider_kai.take_action_loop ec mc before ops.
Proof. reflexivity. Qed.

Lemma kai_take_action_loop_adopted (ec mc : Z) (before : board)
  (ops : list Z) :
  0 ≤ ec < 2 ^ 25 → 0 ≤ mc < 2 ^ 25 →
  (∀ op, op ∈ ops → op ∈ opcode ∧ -1 ≤ (slide before op).2 < 2 ^ 30) →
  ∀ cur,
    0 ≤ heuristic_slider_kai.best_reward cur →
    heuristic_slider_kai.best_action cur ∈ opcode →
    0 ≤ heuristic_slider_kai.best_len cur ≤ 16 →
    ∃ cur',
      heuristic_slider_kai.take_action_loop ec mc before ops cur = Done cur'
      ∧ 0 ≤ heuristic_slider_kai.best_reward cur'
      ∧ heuristic_slider_kai.best_action cur' ∈ opcode.
Proof.
  intros Hec Hmc. induction ops as [| op ops IH]; intros Hops cur Hr Ha Hl;
    cbn [heuristic_slider_kai.take_action_loop].
  - exists cur. auto.
  - destruct (Hops op (list_elem_of_here _ _)) as (Hop & Hlow & Hhigh).
    assert (Hec' : 16 * ec < 2 ^ 31) by lia.
    assert (Hmc' : 16 * mc < 2 ^ 31) by lia.
    assert (Hlow' : - 2 ^ 31 ≤ (slide before op).2) by lia.
    assert (Hhigh' : (slide before op).2 + 16 * ec + 16 * mc < 2 ^ 31) by lia.
    destruct (kai_take_action_body ec mc before cur op (proj1 Hec) (proj1 Hmc)
                Hec' Hmc' Hlow' Hhigh' Hl)
      as (len & Hbody & Hlen & _).
    cbn zeta in Hbody. rewrite Hbody, outcome_bind_Done.
    apply IH.
    + intros op' Hin. apply Hops, list_elem_of_further, Hin.
    + case_bool_decide; cbn [heuristic_slider_kai.best_reward]; lia.
    + case_bool_decide; cbn [heuristic_slider_kai.best_action]; assumption.
    + case_bool_decide; cbn [heuristic_slider_kai.best_len]; lia.
Qed.

(** X15. Where the sums stay within [int] (coefficients below 2^25, slide
    rewards from -1 to below 2^30), [heuristic_slider_kai] never rejects
    while the board after the first attempted slide shows a tile: with a
    monotonic-structure coefficient of at least 1 and an empty-square
    coefficient of at least 0 (the presets are 1 and 5) the bonuses lift the
    reward of that direction above -1 even if every slide is illegal. *)
Theorem kai_slides_even_without_legal_move (meta : gmap string string)
  (before : board) (ec mc r c : Z) :
  heuristic_slider_kai.coefficient meta "empty_square_coef" 5 = Done ec →
  heuristic_slider_kai.coefficient meta "monotonic_structure_coef" 1
  = Done mc →
  0 ≤ ec < 2 ^ 25 → 1 ≤ mc < 2 ^ 25 →
  (∀ op, op ∈ opcode → -1 ≤ (slide before op).2 < 2 ^ 30) →
  0 ≤ r < 4 → 0 ≤ c < 4 → tile_at (slide before 0).1 r c ≠ 0 →
  ∃ op, op ∈ opcode
    ∧ heuristic_slider_kai.take_action meta before = Done (action_slide op).
Proof.
  intros Hecoef Hmcoef Hec Hmc Hrewards Hr Hc Htile.
  unfold heuristic_slider_kai.take_action.
  rewrite Hecoef, outcome_bind_Done, Hmcoef, outcome_bind_Done.
  unfold opcode. rewrite kai_take_action_loop_cons. fold opcode.
  assert (H0 : 0 ∈ opcode) by apply list_elem_of_here.
  destruct (Hrewards 0 H0) as [Hlow Hhigh].
  pose proof (find_empty_squares_bound (slide before 0).1) as Hempty.
  assert (Hec' : 16 * ec < 2 ^ 31) by lia.
  assert (Hmc' : 16 * mc < 2 ^ 31) by lia.
  assert (Hlow' : - 2 ^ 31 ≤ (slide before 0).2) by lia.
  assert (Hhigh' : (slide before 0).2 + 16 * ec + 16 * mc < 2 ^ 31) by lia.
  assert (Hmc0 : 0 ≤ mc) by lia.
  assert (Hlen0 : 0 ≤ heuristic_slider_kai.best_len
                        (heuristic_slider_kai.Locals (-1) (-1) 0) ≤ 16)
    by (cbn [heuristic_slider_kai.best_len]; lia).
  destruct (kai_take_action_body ec mc before
              (heuristic_slider_kai.Locals (-1) (-1) 0) 0
              (proj1 Hec) Hmc0 Hec' Hmc' Hlow' Hhigh' Hlen0)
    as (len & Hbody & Hlen & Hsome).
  cbn zeta in Hbody. rewrite Hbody, outcome_bind_Done.
  pose proof (Hsome r c Hr Hc Htile) as Hlen1.
  cbn [heuristic_slider_kai.best_reward heuristic_slider_kai.best_len] in *.
  rewrite bool_decide_eq_true_2 by nia.
  destruct (kai_take_action_loop_adopted ec mc before [1; 2; 3]
              Hec (conj Hmc0 (proj2 Hmc))
              (λ op Hin, let H' := list_elem_of_further op 0 [1; 2; 3] Hin in
                         conj H' (Hrewards op H'))
              (heuristic_slider_kai.Locals
                 ((slide before 0).2
                  + heuristic_slider_kai.find_empty_squares (slide before 0).1
                    * ec + len * mc) 0 len))
    as (cur' & Hloop & Hbest & Haction);
    [cbn [heuristic_slider_kai.best_reward]; nia
    | exact H0
    | cbn [heuristic_slider_kai.best_len]; lia |].
  rewrite Hloop, outcome_bind_Done.
  exists (heuristic_slider_kai.best_action cur').
  split; [exact Haction |].
  rewrite bool_decide_eq_true_2 by lia. reflexivity.
Qed.

Lemma kai_take_action_loop_plain (before : board) (ops : list Z) :
  (∀ op, op ∈ ops → - 2 ^ 31 ≤ (slide before op).2 < 2 ^ 31) →
  ∀ cur,
    0 ≤ heuristic_slider_kai.best_len cur ≤ 16 →
    ∃ cur',
      heuristic_slider_kai.take_action_loop 0 0 before ops cur = Done cur'
      ∧ (heuristic_slider_kai.best_reward cur',
         heuristic_slider_kai.best_action cur')
        = foldl (heuristic_slider.take_action_body before)
            (heuristic_slider_kai.best_reward cur,
             heuristic_slider_kai.best_action cur) ops.
Proof.
  induction ops as [| op ops IH]; intros Hops cur Hl;
    cbn [heuristic_slider_kai.take_action_loop foldl].
  - exists cur. auto.
  - destruct (Hops op (list_elem_of_here _ _)) as (Hlow & Hhigh).
    assert (Hzero : 0 ≤ 0) by lia.
    assert (Hzero' : 16 * 0 < 2 ^ 31) by lia.
    assert (Hhigh' : (slide before op).2 + 16 * 0 + 16 * 0 < 2 ^ 31) by lia.
    destruct (kai_take_action_body 0 0 before cur op
                Hzero Hzero Hzero' Hzero' Hlow Hhigh' Hl)
      as (len & Hbody & Hlen & _).
    cbn zeta in Hbody. rewrite Hbody, outcome_bind_Done.
    rewrite !Z.mul_0_r, !Z.add_0_r.
    assert (Hb : heuristic_slider.take_action_body before
                   (heuristic_slider_kai.best_reward cur,
                    heuristic_slider_kai.best_action cur) op
                 = if bool_decide ((slide before op).2
                                   > heuristic_slider_kai.best_reward cur)
                   then ((slide before op).2, op)
                   else (heuristic_slider_kai.best_reward cur,
                         heuristic_slider_kai.best_action cur))
      by reflexivity.
    rewrite Hb. clear Hb Hbody.
    destruct (bool_decide ((slide before op).2
                           > heuristic_slider_kai.best_reward cur)).
    + destruct (IH (λ op' Hin, Hops op' (list_elem_of_further _ _ _ Hin))
                  (heuristic_slider_kai.Locals (slide before op).2 op len))
        as (cur' & Hloop & Heq); [cbn; lia |].
      exists cur'. split; [exact Hloop | exact Heq].
    + destruct (IH (λ op' Hin, Hops op' (list_elem_of_further _ _ _ Hin))
                  (heuristic_slider_kai.Locals
                     (heuristic_slider_kai.best_reward cur)
                     (heuristic_slider_kai.best_action cur) len))
        as (cur' & Hloop & Heq); [cbn; lia |].
      exists cur'. split; [exact Hloop | exact Heq].
Qed.

(** X16. With both coefficients set to 0, [heuristic_slider_kai] takes the
    action that [heuristic_slider] takes. *)
Theorem kai_without_bonus_is_heuristic_slider (meta : gmap string string)
  (before : board) :
  heuristic_slider_kai.coefficient meta "empty_square_coef" 5 = Done 0 →
  heuristic_slider_kai.coefficient meta "monotonic_structure_coef" 1
  = Done 0 →
  (∀ op, op ∈ opcode → - 2 ^ 31 ≤ (slide before op).2 < 2 ^ 31) →
  heuristic_slider_kai.take_action meta before
  = Done (heuristic_slider.take_action before).
Proof.
  intros Hecoef Hmcoef Hrewards.
  unfold heuristic_slider_kai.take_action, heuristic_slider.take_action.
  rewrite Hecoef, outcome_bind_Done, Hmcoef, outcome_bind_Done.
  destruct (kai_take_action_loop_plain before opcode Hrewards
              (heuristic_slider_kai.Locals (-1) (-1) 0))
    as (cur' & -> & Heq); [cbn; lia |].
  rewrite outcome_bind_Done.
  cbn [heuristic_slider_kai.best_reward heuristic_slider_kai.best_action]
    in Heq.
  rewrite <- Heq. cbn [fst snd]. reflexivity.
Qed.

End Kai.

(** ** random_placer *)

Lemma count_occ_replicate (t x : Z) (n : nat) :
  count_occ Z.eq_dec (replicate n t) x = if decide (t = x) then n else 0%nat.
Proof.
  induction n as [| n IH]; cbn [replicate count_occ].
  - destruct (decide (t = x)); reflexivity.
  - destruct (Z.eq_dec t x) as [Heq | Hne], (decide (t = x)) as [Heq' | Hne'];
      try contradiction; rewrite IH.
    + destruct (decide (t = x)); [reflexivity | contradiction].
    + destruct (decide (t = x)); [contradiction | reflexivity].
Qed.

Lemma count_occ_lookup (l : list Z) (i : nat) (t : Z) :
  l !! i = Some t → (1 ≤ count_occ Z.eq_dec l t)%nat.
Proof.
  intros Hi. apply count_occ_In, list_elem_of_In.
  exact (list_elem_of_lookup_2 _ _ _ Hi).
Qed.

Lemma count_occ_lookup_twice (l : list Z) (i j : nat) (t : Z) :
  l !! i = Some t → l !! j = Some t → i ≠ j →
  (2 ≤ count_occ Z.eq_dec l t)%nat.
Proof.
  revert i j. induction l as [| x l IH]; intros i j Hi Hj Hne.
  - discriminate.
  - cbn [count_occ]. destruct i as [| i], j as [| j]; cbn in Hi, Hj.
    + contradiction.
    + injection Hi as ->. pose proof (count_occ_lookup l j t Hj).
      destruct (Z.eq_dec t t); [lia | contradiction].
    + injection Hj as ->. pose proof (count_occ_lookup l i t Hi).
      destruct (Z.eq_dec t t); [lia | contradiction].
    + assert (Hne' : i ≠ j) by congruence.
      pose proof (IH i j Hi Hj Hne'). destruct (Z.eq_dec x t); lia.
Qed.

Section RandomPlacer.
Context {board engine : Type}
  `{!BoardOps board, !BoardPlace board, !Shuffle engine}
  `{!ShuffleLaw engine}.

Lemma first_empty_None (after : board) (space : list Z) :
  random_placer.first_empty after space = None
  ↔ ∀ pos, pos ∈ space → cell_at after pos ≠ 0.
Proof.
  induction space as [| pos space IH]; cbn [random_placer.first_empty].
  - split; [| reflexivity]. intros _ pos Hin.
    apply elem_of_nil in Hin. contradiction.
  - destruct (decide (cell_at after pos ≠ 0)) as [Hfull | Hempty].
    + rewrite bool_decide_eq_true_2 by exact Hfull. rewrite IH. split.
      * intros H' pos' Hin. apply elem_of_cons in Hin as [-> | Hin];
          [exact Hfull | exact (H' pos' Hin)].
      * intros H' pos' Hin. exact (H' pos' (list_elem_of_further _ _ _ Hin)).
    + rewrite bool_decide_eq_false_2 by exact Hempty.
      split; [discriminate |]. intros H'. exfalso.
      exact (Hempty (H' pos (list_elem_of_here _ _))).
Qed.

Lemma first_empty_Some (after : board) (space : list Z) (pos : Z) :
  random_placer.first_empty after space = Some pos →
  pos ∈ space ∧ cell_at after pos = 0.
Proof.
  induction space as [| pos' space IH]; cbn [random_placer.first_empty].
  - discriminate.
  - destruct (decide (cell_at after pos' ≠ 0)) as [Hfull | Hempty].
    + rewrite bool_decide_eq_true_2 by exact Hfull. intros H'.
      destruct (IH H') as [Hin Hcell].
      split; [apply list_elem_of_further; exact Hin | exact Hcell].
    + rewrite bool_decide_eq_false_2 by exact Hempty. intros [= <-].
      split; [apply list_elem_of_here |].
      destruct (decide (cell_at after pos' = 0)) as [Hz | Hnz];
        [exact Hz | contradiction].
Qed.

Lemma bag_tiles_unfold (after : board) :
  random_placer.bag_tiles after
  = replicate (board_bag after 1) 1 ++ replicate (board_bag after 2) 2
    ++ replicate (board_bag after 3) 3.
Proof.
  unfold random_placer.bag_tiles. cbn [mbind list_bind mapM]. 
  rewrite app_nil_r. reflexivity.
Qed.

Lemma bag_tiles_length (after : board) :
  length (random_placer.bag_tiles after)
  = (board_bag after 1 + board_bag after 2 + board_bag after 3)%nat.
Proof.
  rewrite bag_tiles_unfold, !length_app, !length_replicate. lia.
Qed.

Lemma bag_tiles_count (after : board) (t : Z) :
  count_occ Z.eq_dec (random_placer.bag_tiles after) t
  = if bool_decide (1 ≤ t ≤ 3) then board_bag after t else 0%nat.
Proof.
  rewrite bag_tiles_unfold, !count_occ_app, !count_occ_replicate.
  destruct (decide (1 = t)) as [H1 | H1], (decide (2 = t)) as [H2 | H2],
    (decide (3 = t)) as [H3 | H3]; case_bool_decide; subst; lia.
Qed.

(** A tile that [bag[--num]] reads after the shuffle is one of the tiles of
    the board's bag. *)
Lemma draw_is_bag_tile (after : board) (e : engine) (num num' : nat)
  (tile : Z) :
  random_placer.draw (shuffle e (random_placer.bag_tiles after)).1 num
  = Done (tile, num') →
  num = S num'
  ∧ (shuffle e (random_placer.bag_tiles after)).1 !! num' = Some tile
  ∧ 1 ≤ tile ≤ 3 ∧ (0 < board_bag after tile)%nat.
Proof.
  unfold random_placer.draw. destruct num as [| n]; [discriminate |].
  destruct (_ !! n) as [x |] eqn:Hx; [| discriminate].
  intros [= -> ->]. split; [reflexivity |]. split; [exact Hx |].
  pose proof (count_occ_lookup _ _ _ Hx) as Hcount.
  rewrite (proj1 (Permutation_count_occ Z.eq_dec _ _)
             (shuffle_permutation e (random_placer.bag_tiles after)) tile)
    in Hcount.
  rewrite bag_tiles_count in Hcount. case_bool_decide; lia.
Qed.

(** X17. [random_placer] rejects exactly when no cell of the space of the
    last slide is empty; otherwise it places on an empty cell of that
    space and the new hint is a tile of the bag.  With a hint on the board
    the tile is that hint (whatever the bag holds); without one the tile is
    a tile of the bag too, and tile and new hint are then of the same kind
    only if the bag holds two of that kind. *)
Theorem random_placer_places_bag_tile_on_empty_cell (e e' : engine)
  (after : board) (space : list Z) (a : placement) :
  random_placer.spaces (board_last after) = Some space →
  random_placer.take_action e after = Done (e', a) →
  (a = placement_none ↔ ∀ pos, pos ∈ space → cell_at after pos ≠ 0)
  ∧ ∀ pos tile hint, a = placement_place pos tile hint →
      pos ∈ space ∧ cell_at after pos = 0
      ∧ (board_hint after ≠ 0 → tile = board_hint after)
      ∧ (board_hint after = 0 →
         1 ≤ tile ≤ 3 ∧ (0 < board_bag after tile)%nat
         ∧ (tile = hint → (2 ≤ board_bag after tile)%nat))
      ∧ 1 ≤ hint ≤ 3 ∧ (0 < board_bag after hint)%nat.
Proof.
  intros Hspace. unfold random_placer.take_action. rewrite Hspace.
  pose proof (shuffle_permutation e space) as Hperm.
  destruct (random_placer.first_empty after (shuffle e space).1) as [pos |]
    eqn:Hfirst.
  - apply first_empty_Some in Hfirst as [Hin Hcell].
    rewrite Hperm in Hin.
    case_bool_decide as Hlen; [discriminate |].
    set (e1 := (shuffle e space).2).
    destruct (decide (board_hint after ≠ 0)) as [Hhint | Hhint].
    + rewrite bool_decide_eq_true_2 by exact Hhint.
      rewrite outcome_bind_Done. cbn [fst snd].
      destruct (random_placer.draw _ _) as [[hint num'] | | |] eqn:Hdraw;
        try discriminate.
      rewrite outcome_bind_Done. cbn [fst snd]. intros [= <- <-].
      apply draw_is_bag_tile in Hdraw as (_ & _ & Hrange & Hbag).
      split; [split; [discriminate |] |].
      * intros Hfull. exfalso. exact (Hfull pos Hin Hcell).
      * intros pos' tile' hint' [= <- <- <-].
        repeat split; try assumption; try lia; contradiction.
    + rewrite bool_decide_eq_false_2 by exact Hhint.
      destruct (random_placer.draw _ _) as [[tile num'] | | |] eqn:Hdraw1;
        try discriminate.
      rewrite outcome_bind_Done. cbn [fst snd].
      destruct (random_placer.draw _ num') as [[hint num''] | | |]
        eqn:Hdraw2; try discriminate.
      rewrite outcome_bind_Done. cbn [fst snd]. intros [= <- <-].
      apply draw_is_bag_tile in Hdraw1 as (Hnum1 & Hlook1 & Hrange1 & Hbag1).
      apply draw_is_bag_tile in Hdraw2 as (Hnum2 & Hlook2 & Hrange2 & Hbag2).
      split; [split; [discriminate |] |].
      * intros Hfull. exfalso. exact (Hfull pos Hin Hcell).
      * intros pos' tile' hint' [= <- <- <-].
        split; [exact Hin |]. split; [exact Hcell |].
        split; [intros Hne; contradiction |].
        split; [| split; assumption].
        intros _. split; [exact Hrange1 |]. split; [exact Hbag1 |].
        intros ->.
        assert (Hne : num' ≠ num'') by lia.
        pose proof (count_occ_lookup_twice _ _ _ _ Hlook1 Hlook2 Hne)
          as Hcount.
        rewrite (proj1 (Permutation_count_occ Z.eq_dec _ _)
                   (shuffle_permutation e1 (random_placer.bag_tiles after))
                   hint) in Hcount.
        rewrite bag_tiles_count in Hcount. case_bool_decide; lia.
  - intros [= <- <-].
    pose proof (proj1 (first_empty_None after _) Hfirst) as Hfull.
    split; [split; [intros _ | reflexivity] |].
    + intros pos Hin. apply Hfull. rewrite Hperm. exact Hin.
    + intros pos tile hint Hplace. discriminate.
Qed.

Lemma draw_defined (bag : list Z) (num : nat) :
  (num ≤ length bag)%nat →
  match random_placer.draw bag num with
  | Done r => num = S r.2
  | Undefined => num = 0%nat
  | _ => False
  end.
Proof.
  intros Hnum. unfold random_placer.draw. destruct num as [| n]; [reflexivity |].
  destruct (lookup_lt_is_Some_2 bag n ltac:(lia)) as [x ->]. reflexivity.
Qed.

(** X18. When the space of the last slide has an empty cell,
    [random_placer] is defined exactly if the bag holds at most three tiles
    (the size of the array) and at least as many as are drawn: one if the
    board has a hint, two if not. *)
Theorem random_placer_defined_iff_bag_fits (e : engine) (after : board)
  (space : list Z) (pos : Z) :
  random_placer.spaces (board_last after) = Some space →
  pos ∈ space → cell_at after pos = 0 →
  (∃ r, random_placer.take_action e after = Done r)
  ↔ ((if bool_decide (board_hint after ≠ 0)%Z then 1 else 2)
     ≤ board_bag after 1 + board_bag after 2 + board_bag after 3 ≤ 3)%nat.
Proof.
  intros Hspace Hin Hcell. unfold random_placer.take_action. rewrite Hspace.
  destruct (random_placer.first_empty after (shuffle e space).1) as [pos' |]
    eqn:Hfirst.
  - clear Hfirst. rewrite <- bag_tiles_length.
    case_bool_decide as Hlen.
    { split; [intros [r Hr]; discriminate | lia]. }
    set (e1 := (shuffle e space).2).
    pose proof (Permutation_length
                  (shuffle_permutation e1 (random_placer.bag_tiles after)))
      as Hsame.
    destruct (decide (board_hint after ≠ 0)) as [Hhint | Hhint].
    + rewrite !bool_decide_eq_true_2 by exact Hhint.
      rewrite outcome_bind_Done. cbn [fst snd].
      pose proof (draw_defined
                    (shuffle e1 (random_placer.bag_tiles after)).1
                    (length (random_placer.bag_tiles after))
                    ltac:(lia)) as Hdraw.
      destruct (random_placer.draw _ _) as [r | | |]; try contradiction.
      * rewrite outcome_bind_Done. split; [lia | eauto].
      * split; [intros [r Hr]; discriminate | lia].
    + rewrite !bool_decide_eq_false_2 by exact Hhint.
      pose proof (draw_defined
                    (shuffle e1 (random_placer.bag_tiles after)).1
                    (length (random_placer.bag_tiles after))
                    ltac:(lia)) as Hdraw1.
      destruct (random_placer.draw _ _) as [r1 | | |]; try contradiction.
      * rewrite outcome_bind_Done.
        pose proof (draw_defined
                      (shuffle e1 (random_placer.bag_tiles after)).1
                      r1.2 ltac:(lia)) as Hdraw2.
        destruct (random_placer.draw _ r1.2) as [r2 | | |];
          try contradiction.
        -- rewrite outcome_bind_Done. split; [lia | eauto].
        -- split; [intros [r Hr]; discriminate | lia].
      * split; [intros [r Hr]; discriminate | lia].
  - exfalso.
    pose proof (proj1 (first_empty_None after _) Hfirst) as Hfull.
    apply (Hfull pos); [| exact Hcell].
    rewrite (shuffle_permutation e space). exact Hin.
Qed.

End RandomPlacer.

(** ** Closing an episode stays within the tables *)

Section EpisodeDefined.
Context {board num : Type} `{!BoardOps board, !NumOps num}.

Lemma six_active_entries_ok (nt : list (weight num)) (b : board) :
  (∀ s, (s < 32)%nat → ∃ size, net_shape nt !! s = Some size ∧ 2 ^ 24 ≤ size) →
  (∀ fb, fb ∈ variants b → ∀ p, 0 ≤ p < 16 → 0 ≤ cell_at fb p < 16) →
  Forall (entry_ok nt) (six_active_entries b).
Proof.
  intros Hshards Hcells.
  unfold six_active_entries, variants, six_tuple_agent.tuple_index.
  cbn [imap mjoin list_join app Nat.add Nat.mul compose].
  repeat (apply Forall_cons; split;
          [apply six_entry_ok;
           [apply Hcells; unfold variants;
            repeat (first [apply list_elem_of_here
                          | apply list_elem_of_further])
           | repeat constructor; lia
           | reflexivity
           | apply Hshards; lia] |]).
  apply Forall_nil_2.
Qed.

Lemma four_active_entries_ok (nt : list (weight num)) (b : board) :
  (∀ s, (s < 8)%nat → ∃ size, net_shape nt !! s = Some size ∧ 2 ^ 16 ≤ size) →
  (∀ p, 0 ≤ p < 16 → 0 ≤ cell_at b p < 16) →
  Forall (entry_ok nt) (four_active_entries b).
Proof.
  intros Hshards Hcells.
  unfold four_active_entries, four_tuple_entries.
  cbn [seq map mjoin list_join app].
  repeat (apply Forall_cons; split;
          [apply four_entry_ok;
           [apply Hshards; cbn [Nat.add]; lia | apply Hcells; lia ..] |]).
  apply Forall_nil_2.
Qed.

Lemma close_episode_loop_defined
  (update_net : list (weight num) → board → num → option (list (weight num)))
  (a : num) (boards : list board) (values rewards : list Z)
  (shape : list Z) :
  (∀ nt b d, b ∈ boards → net_shape nt = shape →
     ∃ nt', update_net nt b d = Some nt' ∧ net_shape nt' = shape) →
  (length boards < length values)%nat →
  (length boards < length rewards)%nat →
  ∀ l nt, (∀ i, i ∈ l → (i < length boards)%nat) → net_shape nt = shape →
    ∃ nt', for_each (close_episode_body update_net a boards values rewards)
             l nt = Some nt'
      ∧ net_shape nt' = shape.
Proof.
  intros Hupd Hvalues Hrewards.
  induction l as [| i l IH]; intros nt Hl Hshape; cbn [for_each].
  - exists nt. auto.
  - pose proof (Hl i (list_elem_of_here _ _)) as Hi.
    assert (Hbody : ∃ nt1,
              close_episode_body update_net a boards values rewards nt i
              = Some nt1 ∧ net_shape nt1 = shape).
    { unfold close_episode_body.
      destruct (lookup_lt_is_Some_2 values (i + 1) ltac:(lia)) as [v1 ->].
      destruct (lookup_lt_is_Some_2 rewards (i + 1) ltac:(lia)) as [r1 ->].
      destruct (lookup_lt_is_Some_2 values i ltac:(lia)) as [v0 ->].
      destruct (lookup_lt_is_Some_2 boards i Hi) as [b Hb]. rewrite Hb.
      cbn [mbind option_bind].
      exact (Hupd nt b (nmul a (num_of_Z (v1 + r1 - v0)))
               (list_elem_of_lookup_2 _ _ _ Hb) Hshape). }
    destruct Hbody as (nt1 & -> & Hshape1). cbn [mbind option_bind].
    apply IH; [| exact Hshape1].
    intros j Hj. apply Hl, list_elem_of_further, Hj.
Qed.

Lemma countdown_below (len i : nat) : i ∈ rev (seq 0 len) → (i < len)%nat.
Proof.
  intros Hin. apply list_elem_of_In, in_rev, in_seq in Hin. lia.
Qed.

(** X19. Six-tuple agent: [close_episode] makes no out-of-range access
    when the value and reward traces are at least as long as the board
    trace, the table store has 32 shards of at least 2^24 entries, and the
    recorded boards hold cell values in 0..15 in all 8 variants; the tables
    keep their shape. *)
Theorem six_close_episode_stays_in_range (st : agent_state board num) :
  (length (episode_boards st) ≤ length (episode_values st))%nat →
  (length (episode_boards st) ≤ length (episode_rewards st))%nat →
  (∀ s, (s < 32)%nat →
     ∃ size, net_shape (net st) !! s = Some size ∧ 2 ^ 24 ≤ size) →
  (∀ b, b ∈ episode_boards st → ∀ fb, fb ∈ variants b →
     ∀ p, 0 ≤ p < 16 → 0 ≤ cell_at fb p < 16) →
  ∃ st', six_tuple_agent.close_episode st = Some st'
    ∧ net_shape (net st') = net_shape (net st).
Proof.
  intros Hvalues Hrewards Hshards Hcells.
  unfold six_tuple_agent.close_episode.
  destruct (close_episode_loop_defined six_tuple_agent.update_net (alpha st)
              (episode_boards st) (episode_values st ++ [0])
              (episode_rewards st ++ [0]) (net_shape (net st)))
    with (l := rev (seq 0 (length (episode_boards st)))) (nt := net st)
    as (nt' & -> & Hshape).
  - intros nt b d Hb Hshape.
    assert (Hsome : is_Some (six_tuple_agent.update_net nt b d)).
    { rewrite six_update_net_entries, entries_add_is_Some.
      apply six_active_entries_ok; [| apply Hcells, Hb].
      rewrite Hshape. exact Hshards. }
    destruct Hsome as [nt' Hnt']. exists nt'. split; [exact Hnt' |].
    rewrite <- Hshape. rewrite six_update_net_entries in Hnt'.
    exact (entries_add_shape _ _ _ _ Hnt').
  - rewrite length_app. cbn [length]. lia.
  - rewrite length_app. cbn [length]. lia.
  - intros i. apply countdown_below.
  - reflexivity.
  - cbn [mbind option_bind]. eexists. split; [reflexivity |]. exact Hshape.
Qed.

(** X20. Four-tuple agent: [close_episode] makes no out-of-range access
    when the value and reward traces are at least as long as the board
    trace, the table store has 8 shards of at least 2^16 entries, and the
    recorded boards hold cell values in 0..15; the tables keep their
    shape. *)
Theorem four_close_episode_stays_in_range (st : agent_state board num) :
  (length (episode_boards st) ≤ length (episode_values st))%nat →
  (length (episode_boards st) ≤ length (episode_rewards st))%nat →
  (∀ s, (s < 8)%nat →
     ∃ size, net_shape (net st) !! s = Some size ∧ 2 ^ 16 ≤ size) →
  (∀ b, b ∈ episode_boards st → ∀ p, 0 ≤ p < 16 → 0 ≤ cell_at b p < 16) →
  ∃ st', four_tuple_agent.close_episode st = Some st'
    ∧ net_shape (net st') = net_shape (net st).
Proof.
  intros Hvalues Hrewards Hshards Hcells.
  unfold four_tuple_agent.close_episode.
  destruct (close_episode_loop_defined four_tuple_agent.update_net (alpha st)
              (episode_boards st) (episode_values st ++ [0])
              (episode_rewards st ++ [0]) (net_shape (net st)))
    with (l := rev (seq 0 (length (episode_boards st)))) (nt := net st)
    as (nt' & -> & Hshape).
  - intros nt b d Hb Hshape.
    assert (Hsome : is_Some (four_tuple_agent.update_net nt b d)).
    { rewrite four_update_net_entries, entries_add_is_Some.
      apply four_active_entries_ok; [| apply Hcells, Hb].
      rewrite Hshape. exact Hshards. }
    destruct Hsome as [nt' Hnt']. exists nt'. split; [exact Hnt' |].
    rewrite <- Hshape. rewrite four_update_net_entries in Hnt'.
    exact (entries_add_shape _ _ _ _ Hnt').
  - rewrite length_app. cbn [length]. lia.
  - rewrite length_app. cbn [length]. lia.
  - intros i. apply countdown_below.
  - reflexivity.
  - cbn [mbind option_bind]. eexists. split; [reflexivity |]. exact Hshape.
Qed.

End EpisodeDefined.

(** ** Worked examples for the further properties *)

Lemma six_fresh_net_shards (s : nat) :
  (s < 32)%nat →
  ∃ size, net_shape six_fresh_net !! s = Some size ∧ 2 ^ 24 ≤ size.
Proof.
  intros Hs. exists (2 ^ 24). split; [| lia].
  unfold net_shape, six_fresh_net. rewrite fmap_replicate.
  apply lookup_replicate_2. exact Hs.
Qed.

Lemma four_fresh_net_shards (s : nat) :
  (s < 8)%nat →
  ∃ size, net_shape four_fresh_net !! s = Some size ∧ 2 ^ 16 ≤ size.
Proof.
  intros Hs. exists (2 ^ 16). split; [| lia].
  unfold net_shape, four_fresh_net. rewrite fmap_replicate.
  apply lookup_replicate_2. exact Hs.
Qed.

Lemma demo_right_in_range (p : Z) :
  0 ≤ p < 16 → 0 ≤ @cell_at grid demo_board demo_right p < 16.
Proof.
  intros _. apply grid_cells_in_range. repeat constructor; lia.
Qed.

Lemma demo_right_variants_in_range (fb : grid) :
  fb ∈ @variants grid demo_board demo_right →
  ∀ p, 0 ≤ p < 16 → 0 ≤ @cell_at grid demo_board fb p < 16.
Proof.
  intros Hfb p _. apply grid_cells_in_range.
  assert (Hall : Forall (Forall (λ c, 0 ≤ c < 16))
                   (@variants grid demo_board demo_right))
    by (apply (bool_decide_unpack _); vm_compute; exact I).
  exact (proj1 (Forall_forall _ _) Hall fb Hfb).
Qed.

Lemma table_shape_is_invariant_witness :
  net_shape six_trained_net = net_shape six_fresh_net.
Proof.
  assert (Hupd : six_tuple_agent.update_net six_fresh_net demo_right
                   (Q2Qc (5 # 64)) = Some six_trained_net)
    by (vm_compute; reflexivity).
  exact (proj1 (proj2 (@table_shape_is_invariant grid Qc demo_board Qc_num
                         six_fresh six_fresh six_fresh_net six_trained_net
                         demo_right (Q2Qc (5 # 64)) action_none)) Hupd).
Defined.

Lemma update_net_leaves_other_entries_witness :
  net_get six_trained_net (0%nat, 5).1 (0%nat, 5).2
  = net_get six_fresh_net (0%nat, 5).1 (0%nat, 5).2.
Proof.
  assert (Hupd : six_tuple_agent.update_net six_fresh_net demo_right
                   (Q2Qc (5 # 64)) = Some six_trained_net)
    by (vm_compute; reflexivity).
  assert (Hnot : (0%nat, 5) ∉ @six_active_entries grid demo_board demo_right)
    by (apply (bool_decide_unpack _); vm_compute; exact I).
  exact (proj2 (@update_net_leaves_other_entries grid Qc demo_board Qc_num
                  six_fresh_net six_trained_net demo_right (Q2Qc (5 # 64))
                  (0%nat, 5)) Hupd Hnot).
Defined.

Lemma six_tuple_tables_are_large_enough_witness :
  is_Some (six_tuple_agent.calculate_state_value six_fresh_net demo_right)
  ∧ is_Some (six_tuple_agent.update_net six_fresh_net demo_right
               (Q2Qc (5 # 64))).
Proof.
  exact (@six_tuple_tables_are_large_enough grid Qc demo_board Qc_num
           six_fresh_net demo_right (Q2Qc (5 # 64))
           six_fresh_net_shards demo_right_variants_in_range).
Defined.

Lemma four_tuple_tables_are_large_enough_witness :
  is_Some (four_tuple_agent.calculate_state_value four_fresh_net demo_right)
  ∧ is_Some (four_tuple_agent.update_net four_fresh_net demo_right
               (Q2Qc (5 # 16))).
Proof.
  exact (@four_tuple_tables_are_large_enough grid Qc demo_board Qc_num
           four_fresh_net demo_right (Q2Qc (5 # 16))
           four_fresh_net_shards demo_right_in_range).
Defined.

Lemma take_action_rejects_only_without_legal_slide_witness :
  ¬ @legal grid demo_board demo_end 0.
Proof.
  assert (Hta : four_tuple_agent.take_action four_trained demo_end
                = Some (four_trained, action_none))
    by (vm_compute; reflexivity).
  assert (Hin : 0 ∈ opcode) by apply list_elem_of_here.
  exact (proj1 (proj1 (proj1 (@take_action_rejects_only_without_legal_slide
                                grid Qc demo_board Qc_num four_trained
                                four_trained demo_end action_none) Hta))
           eq_refl 0 Hin).
Defined.

Lemma agent_last_setting_wins_witness :
  agent.property (agent_new ("alpha=0.1" +:+ " " +:+ "alpha" +:+ "=" +:+ "0.5"))
    "alpha"
  = Done "0.5".
Proof.
  exact (agent_last_setting_wins "alpha=0.1" "alpha" "0.5" eq_refl eq_refl).
Defined.

Lemma notify_sets_one_key_witness :
  agent.property (agent.notify (agent_new "") ("name" +:+ "=" +:+ "x")) "name"
  = Done "x"
  ∧ agent.property (agent.notify (agent_new "") "quiet") "quiet"
    = Done "quiet".
Proof.
  split.
  - exact (proj1 (proj1 (notify_sets_one_key (agent_new "") "name" "x" "quiet")
                    eq_refl)).
  - exact (proj2 (notify_sets_one_key (agent_new "") "name" "x" "quiet")
             eq_refl).
Defined.

Lemma save_then_load_restores_tables_witness :
  let loaded : list (weight Qc) :=
    match load_weights demo_fs "w.bin" [] with Done nt => nt | _ => [] end in
  ∃ fs', save_weights demo_fs "out.bin" loaded = Done fs'
    ∧ load_weights fs' "out.bin" [] = Done loaded.
Proof.
  intros loaded.
  assert (Hwritable : fs_writable demo_fs "out.bin" = true)
    by (vm_compute; reflexivity).
  assert (Hheader : length (u32_encode (Z.of_nat (length loaded) mod 2 ^ 32))
                    = 4%nat)
    by (vm_compute; reflexivity).
  assert (Hcount : Z.to_nat (u32_decode
                               (u32_encode
                                  (Z.of_nat (length loaded) mod 2 ^ 32)))
                   = length loaded)
    by (vm_compute; reflexivity).
  assert (Hcodec : ∀ (w w0 : weight Qc) (input : list byte), w ∈ loaded →
            weight_read w0 (weight_write w ++ input) = (w, input)).
  { intros w w0 input Hin. vm_compute in Hin.
    apply elem_of_cons in Hin as [-> | Hin]; [vm_compute; reflexivity |].
    apply elem_of_cons in Hin as [-> | Hin]; [vm_compute; reflexivity |].
    apply elem_of_nil in Hin. contradiction. }
  exact (@save_then_load_restores_tables Qc demo_weight_io demo_fs "out.bin"
           loaded [] Hwritable Hheader Hcount Hcodec).
Defined.

Lemma heuristic_slider_takes_first_best_reward_witness :
  @legal grid demo_board demo_start 1
  ∧ (∀ i, i ∈ opcode →
       (@slide grid demo_board demo_start i).2
       ≤ (@slide grid demo_board demo_start 1).2
       ∧ (i < 1 → (@slide grid demo_board demo_start i).2
                  < (@slide grid demo_board demo_start 1).2)).
Proof.
  assert (Hta : @heuristic_slider.take_action grid demo_board demo_start
                = action_slide 1)
    by (vm_compute; reflexivity).
  exact (proj2 (proj2 (@heuristic_slider_takes_first_best_reward grid
                         demo_board demo_start) 1 Hta)).
Defined.

Lemma random_slider_returns_legal_direction_witness :
  [3; 2; 1; 0] ≡ₚ opcode ∧ @legal grid demo_board demo_start 3.
Proof.
  assert (Hperm : random_slider.opcode (random_slider.State opcode 0%nat)
                  ≡ₚ opcode)
    by reflexivity.
  assert (Hta : @random_slider.take_action grid nat demo_board demo_shuffle
                  (random_slider.State opcode 0%nat) demo_start
                = (random_slider.State [3; 2; 1; 0] 1%nat, action_slide 3))
    by (vm_compute; reflexivity).
  pose proof (@random_slider_returns_legal_direction grid nat demo_board
                demo_shuffle demo_shuffle_law
                (random_slider.State opcode 0%nat)
                (random_slider.State [3; 2; 1; 0] 1%nat) demo_start
                (action_slide 3) Hperm Hta) as (Hperm' & _ & Hlegal).
  split; [exact Hperm' | exact (proj2 (Hlegal 3 eq_refl))].
Defined.

Lemma find_monotonic_structure_returns_bounded_length_witness :
  ∃ len visited',
    @heuristic_slider_kai.find_monotonic_structure grid grid_rows 16
      demo_start ∅ 0 0
    = Some (len, visited')
    ∧ 0 ≤ len ≤ Z.of_nat (unvisited ∅) ≤ 16
    ∧ (len = 0 ↔ @tile_at grid grid_rows demo_start 0 0 = 0)
    ∧ {[ (0, 0) ]} ∪ ∅ ⊆ visited'.
Proof.
  assert (Hr : 0 ≤ 0 < 4) by lia.
  exact (@find_monotonic_structure_returns_bounded_length grid grid_rows
           demo_start ∅ 0 0 Hr Hr (not_elem_of_empty _)).
Defined.

Lemma kai_slides_even_without_legal_move_witness :
  ∃ op, op ∈ opcode
    ∧ @heuristic_slider_kai.take_action grid Qc demo_board grid_rows Qc_num
        ∅ demo_end
      = Done (action_slide op).
Proof.
  assert (Hec : @heuristic_slider_kai.coefficient Qc Qc_num ∅
                  "empty_square_coef" 5 = Done 5)
    by reflexivity.
  assert (Hmc : @heuristic_slider_kai.coefficient Qc Qc_num ∅
                  "monotonic_structure_coef" 1 = Done 1)
    by reflexivity.
  assert (Hec' : 0 ≤ 5 < 2 ^ 25) by lia.
  assert (Hmc' : 1 ≤ 1 < 2 ^ 25) by lia.
  assert (Hrewards : ∀ op, op ∈ opcode →
            -1 ≤ (@slide grid demo_board demo_end op).2 < 2 ^ 30)
    by (intros op _; rewrite demo_end_is_terminal; lia).
  assert (Hr : 0 ≤ 0 < 4) by lia.
  assert (Hc : 0 ≤ 1 < 4) by lia.
  assert (Htile : @tile_at grid grid_rows
                    (@slide grid demo_board demo_end 0).1 0 1 ≠ 0)
    by (vm_compute; discriminate).
  exact (@kai_slides_even_without_legal_move grid Qc demo_board grid_rows
           Qc_num ∅ demo_end 5 1 0 1 Hec Hmc Hec' Hmc' Hrewards Hr Hc Htile).
Defined.

Lemma kai_without_bonus_is_heuristic_slider_witness :
  @heuristic_slider_kai.take_action grid Qc demo_board grid_rows Qc_num
    {[ "empty_square_coef" := "0"; "monotonic_structure_coef" := "0" ]}
    demo_start
  = Done (@heuristic_slider.take_action grid demo_board demo_start).
Proof.
  assert (Hec : @heuristic_slider_kai.coefficient Qc Qc_num
                  {[ "empty_square_coef" := "0";
                     "monotonic_structure_coef" := "0" ]}
                  "empty_square_coef" 5 = Done 0)
    by (vm_compute; reflexivity).
  assert (Hmc : @heuristic_slider_kai.coefficient Qc Qc_num
                  {[ "empty_square_coef" := "0";
                     "monotonic_structure_coef" := "0" ]}
                  "monotonic_structure_coef" 1 = Done 0)
    by (vm_compute; reflexivity).
  assert (Hrewards : ∀ op, op ∈ opcode →
            - 2 ^ 31 ≤ (@slide grid demo_board demo_start op).2 < 2 ^ 31).
  { intros op Hin. unfold opcode in Hin.
    repeat (apply elem_of_cons in Hin as [-> | Hin];
            [vm_compute; split; [discriminate | reflexivity] |]).
    apply elem_of_nil in Hin. contradiction. }
  exact (@kai_without_bonus_is_heuristic_slider grid Qc demo_board grid_rows
           Qc_num _ demo_start Hec Hmc Hrewards).
Defined.

Lemma random_placer_places_bag_tile_on_empty_cell_witness :
  @cell_at grid demo_board demo_start 15 = 0
  ∧ (0 < @board_bag grid grid_place demo_start 2)%nat.
Proof.
  assert (Hspace : random_placer.spaces (@board_last grid grid_place demo_start)
                   = Some [0; 1; 2; 3; 4; 5; 6; 7; 8; 9; 10; 11; 12; 13; 14;
                           15])
    by reflexivity.
  assert (Hta : @random_placer.take_action grid nat demo_board grid_place
                  demo_shuffle 0%nat demo_start
                = Done (2%nat, placement_place 15 1 2))
    by (vm_compute; reflexivity).
  pose proof (@random_placer_places_bag_tile_on_empty_cell grid nat demo_board
                grid_place demo_shuffle demo_shuffle_law 0%nat 2%nat
                demo_start _ (placement_place 15 1 2) Hspace Hta)
    as (_ & Hplace).
  destruct (Hplace 15 1 2 eq_refl) as (_ & Hcell & _ & _ & _ & Hbag).
  split; [exact Hcell | exact Hbag].
Defined.

Lemma random_placer_defined_iff_bag_fits_witness :
  ∃ r, @random_placer.take_action grid nat demo_board grid_place demo_shuffle
         0%nat demo_start = Done r.
Proof.
  assert (Hspace : random_placer.spaces (@board_last grid grid_place demo_start)
                   = Some [0; 1; 2; 3; 4; 5; 6; 7; 8; 9; 10; 11; 12; 13; 14;
                           15])
    by reflexivity.
  assert (Hin : 15 ∈ [0; 1; 2; 3; 4; 5; 6; 7; 8; 9; 10; 11; 12; 13; 14; 15])
    by (apply (bool_decide_unpack _); vm_compute; exact I).
  assert (Hcell : @cell_at grid demo_board demo_start 15 = 0) by reflexivity.
  assert (Hbag : ((if bool_decide
                        (@board_hint grid grid_place demo_start ≠ 0)%Z
                   then 1 else 2)
                  ≤ @board_bag grid grid_place demo_start 1
                    + @board_bag grid grid_place demo_start 2
                    + @board_bag grid grid_place demo_start 3 ≤ 3)%nat)
    by (vm_compute; lia).
  exact (proj2 (@random_placer_defined_iff_bag_fits grid nat demo_board
                  grid_place demo_shuffle demo_shuffle_law 0%nat demo_start
                  _ 15 Hspace Hin Hcell) Hbag).
Defined.

Lemma six_close_episode_stays_in_range_witness :
  ∃ st', six_tuple_agent.close_episode
           (AgentState six_fresh_net (Q2Qc (1 # 2)) [demo_right] [0] [3])
         = Some st'
    ∧ net_shape (net st')
      = net_shape (net (AgentState six_fresh_net (Q2Qc (1 # 2)) [demo_right]
                          [0] [3])).
Proof.
  assert (Hlen : (1 ≤ 1)%nat) by lia.
  assert (Hcells : ∀ b, b ∈ [demo_right] →
            ∀ fb, fb ∈ @variants grid demo_board b →
            ∀ p, 0 ≤ p < 16 → 0 ≤ @cell_at grid demo_board fb p < 16).
  { intros b Hb. apply list_elem_of_singleton in Hb as ->.
    exact demo_right_variants_in_range. }
  exact (@six_close_episode_stays_in_range grid Qc demo_board Qc_num
           (AgentState six_fresh_net (Q2Qc (1 # 2)) [demo_right] [0] [3])
           Hlen Hlen six_fresh_net_shards Hcells).
Defined.

Lemma four_close_episode_stays_in_range_witness :
  ∃ st', four_tuple_agent.close_episode
           (AgentState four_fresh_net (Q2Qc (1 # 2)) [demo_right] [0] [3])
         = Some st'
    ∧ net_shape (net st')
      = net_shape (net (AgentState four_fresh_net (Q2Qc (1 # 2)) [demo_right]
                          [0] [3])).
Proof.
  assert (Hlen : (1 ≤ 1)%nat) by lia.
  assert (Hcells : ∀ b, b ∈ [demo_right] →
            ∀ p, 0 ≤ p < 16 → 0 ≤ @cell_at grid demo_board b p < 16).
  { intros b Hb. apply list_elem_of_singleton in Hb as ->.
    exact demo_right_in_range. }
  exact (@four_close_episode_stays_in_range grid Qc demo_board Qc_num
           (AgentState four_fresh_net (Q2Qc (1 # 2)) [demo_right] [0] [3])
           Hlen Hlen four_fresh_net_shards Hcells).
Defined.
